(** * Gmail AI Triage: a shallow embedding of [app.js]

    The page script is modelled function by function, under the names it
    has in the source.

    - JavaScript strings are Rocq strings whose characters are UTF-16 code
      units below 256 (Latin-1); [trim] and [toLowerCase] are the
      ECMAScript operations on that range.  Status texts that contain
      other characters are kept as the bytes of the source file; the
      script only ever writes them.
    - What [JSON.parse] returns is a value of the inductive type [value];
      the text handed to it is represented by what the parser makes of it.
    - [localStorage], the access token, the form, the status line, what is
      rendered and the log of network requests form the page state, which
      is threaded through a state-and-exception monad: an [await] is a
      sequencing step, a [throw] ends the computation and keeps the page.
    - The mailbox and the classifier are an oracle that answers each
      request from the requests issued before it.  Ids, header values and
      snippets are strings.
    - Numbers are IEEE 754 doubles, given by mantissa and binary
      exponent; sums are rounded to the nearest double, and a number is
      printed as Number::toString prints it.

    The sign-in flow (lines 82-108, 376-380), the loading of the settings
    form (lines 52-61) and the wiring of the buttons other than Scan
    (lines 382-414) depend on the sign-in library and on the markup of the
    page, and are left out. *)

From Stdlib Require Import String Ascii List ZArith Bool Arith Lia.
From Stdlib Require Import Permutation Sorted DecimalString.
Import ListNotations.
Local Open Scope string_scope.
Set Warnings "-register-all".

(** ** JavaScript string primitives *)

Module JsString.

(** [String.prototype.trim] strips WhiteSpace and LineTerminator code
    units; below 256 these are TAB, LF, VT, FF, CR, SP and NBSP. *)
Definition is_ws (c : ascii) : bool :=
  let n := nat_of_ascii c in
  (((9 <=? n) && (n <=? 13)) || (n =? 32) || (n =? 160))%nat.

Fixpoint trimStart (s : string) : string :=
  match s with
  | EmptyString => EmptyString
  | String c r => if is_ws c then trimStart r else s
  end.

Fixpoint trimEnd (s : string) : string :=
  match s with
  | EmptyString => EmptyString
  | String c r =>
      match trimEnd r with
      | EmptyString => if is_ws c then EmptyString else String c EmptyString
      | r' => String c r'
      end
  end.

Definition trim (s : string) : string := trimEnd (trimStart s).

(** [String.prototype.toLowerCase] on code units below 256: A-Z and the
    Latin-1 capitals (0xC0-0xDE without the multiplication sign 0xD7)
    move up by 32, everything else is unchanged. *)
Definition lower_char (c : ascii) : ascii :=
  let n := nat_of_ascii c in
  if (((65 <=? n) && (n <=? 90)) ||
      ((192 <=? n) && (n <=? 222) && negb (n =? 215)))%nat
  then ascii_of_nat (n + 32) else c.

Fixpoint toLowerCase (s : string) : string :=
  match s with
  | EmptyString => EmptyString
  | String c r => String (lower_char c) (toLowerCase r)
  end.

Definition is_empty (s : string) : bool :=
  match s with EmptyString => true | _ => false end.

(** [a || b] on strings: the empty string is the only falsy string. *)
Definition or_else (a b : string) : string :=
  if is_empty a then b else a.

(** [x || ""] where [x] may be [undefined]. *)
Definition or_empty (x : option string) : string :=
  match x with Some s => s | None => EmptyString end.

(** Longest prefix without [>] and the rest: how [[^>]+] advances. *)
Fixpoint span_not_gt (s : string) : string * string :=
  match s with
  | EmptyString => (EmptyString, EmptyString)
  | String c r =>
      if Ascii.eqb c ">" then (EmptyString, s)
      else let (run, tail) := span_not_gt r in (String c run, tail)
  end.

(** [s.match(/<([^>]+)>/)]: capture group 1 of the leftmost match, or
    [None] when the regular expression does not match.  At a [<] the
    greedy class takes every code unit up to the next [>]; the match
    succeeds there iff that run is non-empty and a [>] follows. *)
Fixpoint match_angle (s : string) : option string :=
  match s with
  | EmptyString => None
  | String c r =>
      if Ascii.eqb c "<" then
        match span_not_gt r with
        | (String a run, String _ _) => Some (String a run)
        | _ => match_angle r
        end
      else match_angle r
  end.

(** Decimal rendering of a number in a template literal. *)
Definition string_of_nat (n : nat) : string :=
  NilZero.string_of_uint (Nat.to_uint n).

Definition string_of_Z (z : Z) : string :=
  NilZero.string_of_int (Z.to_int z).

End JsString.
Import JsString.

(** ** [normalizeSender] (app.js 46-50) *)

Definition normalizeSender (fromHeader : option string) : string :=
  match match_angle (or_empty fromHeader) with
  | Some m1 => toLowerCase (trim m1)
  | None => or_else (toLowerCase (trim (or_empty fromHeader))) "(unknown)"
  end.

(** ** JavaScript numbers *)

Module JsNumber.
Local Open Scope Z_scope.

(** A Number is an IEEE 754 binary64 value.  [Fin m e] stands for
    [m * 2^e], [Fin 0 e] for [+0].  A double has several such
    representations and not every [Fin m e] is a double; the operations
    go by the value, and what they compute is rounded to the nearest
    double, ties to even ([to_double]). *)
Inductive number : Type :=
| NaN
| PosInf
| NegInf
| NegZero
| Fin (m e : Z).

(** The [l] with [2^l <= num / den < 2^(l+1)], for [0 < num] and
    [0 < den]. *)
Definition binary_log (num den : Z) : Z :=
  let l0 := Z.log2 num - Z.log2 den in
  if den * 2 ^ Z.max l0 0 <=? num * 2 ^ Z.max (- l0) 0 then l0 else l0 - 1.

(** The double nearest to [num / den], for [0 < num] and [0 < den], as
    mantissa and exponent; [None] when it is beyond the largest double.
    The exponent is that of a 53-bit mantissa, and never below that of
    the subnormal numbers; of two doubles equally near, the one with the
    even mantissa is taken. *)
Definition round_ratio (num den : Z) : option (Z * Z) :=
  let E := Z.max (binary_log num den - 52) (-1074) in
  let N := num * 2 ^ Z.max (- E) 0 in
  let D := den * 2 ^ Z.max E 0 in
  let q := N / D in
  let r := N mod D in
  let q' := if (D <? 2 * r) || ((2 * r =? D) && Z.odd q)
            then q + 1 else q in
  if 1024 <? Z.log2 q' + 1 + E then None else Some (q', E).

Definition signed_zero (negative : bool) : number :=
  if negative then NegZero else Fin 0 0.

Definition of_ratio (negative : bool) (num den : Z) : number :=
  if num =? 0 then signed_zero negative
  else match round_ratio num den with
       | None => if negative then NegInf else PosInf
       | Some (q, E) =>
           if q =? 0 then signed_zero negative
           else Fin (if negative then - q else q) E
       end.

Definition to_double (x : number) : number :=
  match x with
  | Fin m e => of_ratio (m <? 0) (Z.abs m * 2 ^ Z.max e 0) (2 ^ Z.max (- e) 0)
  | _ => x
  end.

(** Mantissa and exponent of a finite number. *)
Definition mantissa_exponent (x : number) : option (Z * Z) :=
  match x with
  | NegZero => Some (0, 0)
  | Fin m e => Some (m, e)
  | _ => None
  end.

(** [x + y]. *)
Definition Number_add (x y : number) : number :=
  match x, y with
  | NaN, _ | _, NaN => NaN
  | PosInf, NegInf | NegInf, PosInf => NaN
  | PosInf, _ | _, PosInf => PosInf
  | NegInf, _ | _, NegInf => NegInf
  | NegZero, NegZero => NegZero
  | NegZero, Fin m e | Fin m e, NegZero => to_double (Fin m e)
  | Fin m1 e1, Fin m2 e2 =>
      let e := Z.min e1 e2 in
      to_double (Fin (m1 * 2 ^ (e1 - e) + m2 * 2 ^ (e2 - e)) e)
  end.

(** The order of two numbers, [None] when one of them is [NaN]. *)
Definition Number_compare (x y : number) : option comparison :=
  match x, y with
  | NaN, _ | _, NaN => None
  | PosInf, PosInf | NegInf, NegInf => Some Eq
  | PosInf, _ | _, NegInf => Some Gt
  | NegInf, _ | _, PosInf => Some Lt
  | _, _ =>
      match mantissa_exponent x, mantissa_exponent y with
      | Some (m1, e1), Some (m2, e2) =>
          let e := Z.min e1 e2 in
          Some (m1 * 2 ^ (e1 - e) ?= m2 * 2 ^ (e2 - e))
      | _, _ => None
      end
  end.

(** [x < y]. *)
Definition Number_lessThan (x y : number) : bool :=
  match Number_compare x y with Some Lt => true | _ => false end.

(** ToBoolean: [NaN] and the two zeros are falsy. *)
Definition Number_toBoolean (x : number) : bool :=
  match x with
  | NaN | NegZero => false
  | Fin m _ => negb (m =? 0)
  | _ => true
  end.

(** [Math.max(x, y)] and [Math.min(x, y)]; [+0] counts as larger than
    [-0]. *)
Definition Math_max (x y : number) : number :=
  match Number_compare x y with
  | None => NaN
  | Some Lt => y
  | Some Gt => x
  | Some Eq => match x with NegZero => y | _ => x end
  end.

Definition Math_min (x y : number) : number :=
  match Number_compare x y with
  | None => NaN
  | Some Lt => x
  | Some Gt => y
  | Some Eq => match y with NegZero => y | _ => x end
  end.

(** The length of an array as a number. *)
Definition of_nat (n : nat) : number := Fin (Z.of_nat n) 0.

(** ToIntegerOrInfinity: truncation towards zero. *)
Inductive integer : Type :=
| MinusInfinity
| Int (z : Z)
| PlusInfinity.

Definition ToIntegerOrInfinity (x : number) : integer :=
  match x with
  | NaN | NegZero => Int 0
  | PosInf => PlusInfinity
  | NegInf => MinusInfinity
  | Fin m e => Int (if 0 <=? e then m * 2 ^ e else Z.quot m (2 ^ (- e)))
  end.

(** An argument of [slice] as an index into an array of [len] elements:
    a negative one counts from the end, and both ends are clamped. *)
Definition relative_index (x : number) (len : nat) : nat :=
  match ToIntegerOrInfinity x with
  | MinusInfinity => 0
  | Int z =>
      if z <? 0 then Z.to_nat (Z.max (Z.of_nat len + z) 0)
      else Z.to_nat (Z.min z (Z.of_nat len))
  | PlusInfinity => len
  end.

(** *** Number::toString *)

(** [num / den < 10^n]. *)
Definition below_pow10 (num den n : Z) : bool :=
  num * 10 ^ Z.max (- n) 0 <? den * 10 ^ Z.max n 0.

(** The [n] with [10^(n-1) <= num / den < 10^n].  The estimate from the
    binary logarithm is at most two below it. *)
Definition decimal_exponent (num den : Z) : Z :=
  let est := ((Z.log2 num - Z.log2 den) * 30103) / 100000 in
  if below_pow10 num den (est - 1) then est - 1
  else if below_pow10 num den est then est
  else if below_pow10 num den (est + 1) then est + 1
  else est + 2.

(** Does [s * 10^j] round to the double [m * 2^e]? *)
Definition rounds_to (s j m e : Z) : bool :=
  match round_ratio (s * 10 ^ Z.max j 0) (10 ^ Z.max (- j) 0) with
  | Some (q, E) =>
      match Number_compare (Fin q E) (Fin m e) with
      | Some Eq => true
      | _ => false
      end
  | None => false
  end.

(** The digits [s] and the exponent [n] of the shortest decimal
    [s * 10^(n-k)] with [k] digits, [k] from [k0] on, that rounds to
    [num / den = m * 2^e]; of two such decimals the one closer to the
    number, and of two equally close ones the even one. *)
Fixpoint shortest (fuel : nat) (k n num den m e : Z) : Z * Z :=
  let j := n - k in
  let lo := (num * 10 ^ Z.max (- j) 0) / (den * 10 ^ Z.max j 0) in
  let hi := lo + 1 in
  let ok_lo := rounds_to lo j m e in
  let ok_hi := rounds_to hi j m e in
  (* twice the distance of the number from the middle of [lo] and [hi],
     in units of [10^j / den] *)
  let side := 2 * (num * 10 ^ Z.max (- j) 0)
              ?= (2 * lo + 1) * (den * 10 ^ Z.max j 0) in
  let pick_hi := if hi =? 10 ^ k then (10 ^ (k - 1), n + 1) else (hi, n) in
  match fuel with
  | O => (lo, n)
  | S fuel' =>
      if ok_lo && ok_hi then
        match side with
        | Lt => (lo, n)
        | Gt => pick_hi
        | Eq => if Z.even lo then (lo, n) else pick_hi
        end
      else if ok_lo then (lo, n)
      else if ok_hi then pick_hi
      else shortest fuel' (k + 1) n num den m e
  end.

Definition zeros (n : Z) : string :=
  String.concat "" (repeat "0" (Z.to_nat n)).

(** Steps 6 to 10 of Number::toString: the digit string [digits] of
    [k] digits and the exponent [n]. *)
Definition decimal_text (digits : string) (n : Z) : string :=
  let k := Z.of_nat (String.length digits) in
  if (k <=? n) && (n <=? 21) then digits ++ zeros (n - k)
  else if (0 <? n) && (n <=? 21) then
    substring 0 (Z.to_nat n) digits ++ "."
    ++ substring (Z.to_nat n) (Z.to_nat (k - n)) digits
  else if (-6 <? n) && (n <=? 0) then "0." ++ zeros (- n) ++ digits
  else
    let exponent := (if n - 1 <? 0 then "-" else "+")
                    ++ string_of_Z (Z.abs (n - 1)) in
    if k =? 1 then digits ++ "e" ++ exponent
    else substring 0 1 digits ++ "."
         ++ substring 1 (Z.to_nat (k - 1)) digits ++ "e" ++ exponent.

Definition positive_text (m e : Z) : string :=
  let num := m * 2 ^ Z.max e 0 in
  let den := 2 ^ Z.max (- e) 0 in
  let '(s, n) := shortest 17 1 (decimal_exponent num den) num den m e in
  decimal_text (string_of_Z s) n.

(** [String(x)], and [x] in a template literal. *)
Definition Number_toString (x : number) : string :=
  match x with
  | NaN => "NaN"
  | PosInf => "Infinity"
  | NegInf => "-Infinity"
  | NegZero => "0"
  | Fin m e =>
      if m =? 0 then "0"
      else if m <? 0 then "-" ++ positive_text (- m) e
      else positive_text m e
  end.

(** A number as [JSON.stringify] writes it: the digits of [String] when
    it is finite, and [null] ([None]) for NaN and the infinities. *)
Definition JSON_number (x : number) : option string :=
  match x with
  | NaN | PosInf | NegInf => None
  | _ => Some (Number_toString x)
  end.

End JsNumber.
Import JsNumber.

(** ** JavaScript values and exceptions *)

(** What a [throw] carries: [new Error(message)] raised by the script, the
    engine's [TypeError] (a property read on [undefined] or [null], a call
    of something that is not a function) and [SyntaxError] (invalid JSON),
    and the rejection of [fetch] itself when the network fails. *)
Inductive exn : Type :=
| Error (message : string)
| TypeError
| SyntaxError
| NetworkError.

Inductive result (A : Type) : Type :=
| Ok (a : A)
| Throw (e : exn).
Arguments Ok {A} a.
Arguments Throw {A} e.

Definition result_bind {A B} (r : result A) (f : A -> result B) : result B :=
  match r with Ok a => f a | Throw e => Throw e end.

Fixpoint result_map {A B} (f : A -> result B) (l : list A) : result (list B) :=
  match l with
  | [] => Ok []
  | a :: l' =>
      result_bind (f a) (fun b =>
      result_bind (result_map f l') (fun bs => Ok (b :: bs)))
  end.

(** Values reachable from [JSON.parse], plus [undefined].  [VNum m e] is
    the number written [m * 10^e]; an object lists its own properties in
    creation order, each key once. *)
Inductive value : Type :=
| VUndefined
| VNull
| VBool (b : bool)
| VNum (m e : Z)
| VStr (s : string)
| VArr (items : list value)
| VObj (props : list (string * value)).

(** The double nearest to [m * 10^e] is zero iff the magnitude is at most
    half the least subnormal, [2^-1075]. *)
Definition num_is_zero (m e : Z) : bool :=
  ((m =? 0) || ((e <? 0) && (Z.abs m * 2 ^ 1075 <=? 10 ^ (- e))))%Z.

(** ToBoolean. *)
Definition truthy (v : value) : bool :=
  match v with
  | VUndefined | VNull => false
  | VBool b => b
  | VNum m e => negb (num_is_zero m e)
  | VStr s => negb (is_empty s)
  | VArr _ | VObj _ => true
  end.

Fixpoint assoc {A} (k : string) (l : list (string * A)) : option A :=
  match l with
  | [] => None
  | (k', a) :: l' => if String.eqb k k' then Some a else assoc k l'
  end.

(** [v?.k] for the property names the page reads from parsed JSON
    ([decisions], [id], [action], [category], [summary], [reason]): none
    of them is an array index, [length] or a prototype property, so only
    an object can answer with something else than [undefined]. *)
Definition get_opt (v : value) (k : string) : value :=
  match v with
  | VObj props => match assoc k props with Some x => x | None => VUndefined end
  | _ => VUndefined
  end.

(** [v.k]: as [v?.k], except that reading from [undefined] or [null]
    throws. *)
Definition get (v : value) (k : string) : result value :=
  match v with
  | VUndefined | VNull => Throw TypeError
  | _ => Ok (get_opt v k)
  end.

(** [(v || dflt).m(...)] for a String method [m]: a truthy [v] that is not
    a string has no such method and the call throws. *)
Definition string_or (v : value) (dflt : string) : result string :=
  if truthy v then
    match v with VStr s => Ok s | _ => Throw TypeError end
  else Ok dflt.

(** A [Map] built from an entry list, looked up at a string key: the
    constructor sets the entries in turn, so the last entry whose key is
    that string holds the value ([Map] compares keys by SameValueZero,
    under which a string equals only the same string). *)
Fixpoint Map_get (entries : list (value * value)) (k : string) : option value :=
  match entries with
  | [] => None
  | (k', v) :: rest =>
      match Map_get rest k with
      | Some v' => Some v'
      | None =>
          match k' with
          | VStr s => if String.eqb s k then Some v else None
          | _ => None
          end
      end
  end.

(** The text handed to [JSON.parse], by what the parser does with it: it
    throws a [SyntaxError] on [NotJson], it returns [v] on [Json v]. *)
Inductive json_text : Type :=
| NotJson (raw : string)
| Json (v : value).

Definition JSON_parse (t : json_text) : result value :=
  match t with
  | NotJson _ => Throw SyntaxError
  | Json v => Ok v
  end.

(** ** Data model *)

Module Settings.
(** The settings object of [DEFAULTS], [saveSettings] and [getSettings].
    The two numeric fields hold what [Number(...)] returned. *)
Record t : Type := mk {
  googleClientId : string;
  groqKey : string;
  groqModel : string;
  batchSize : number;
  maxMessages : number;
  query : string
}.
End Settings.

Module SettingsDocument.
(** The settings document under [LS_KEY]: the properties that
    [JSON.stringify] writes for the settings object.  A numeric property
    is the text of its number, or [None] where the document has
    [null]. *)
Record t : Type := mk {
  googleClientId : string;
  groqKey : string;
  groqModel : string;
  batchSize : option string;
  maxMessages : option string;
  query : string
}.
End SettingsDocument.

Module Form.
(** The six inputs of the settings form.  A numeric input is [None] when
    the field is empty; otherwise it holds a text, which is given by the
    number it denotes: [NaN] when it denotes none, and else its value,
    exactly or rounded to a double ([Number(text)] is the nearest
    double in both cases). *)
Record t : Type := mk {
  googleClientId : string;
  groqKey : string;
  groqModel : string;
  batchSize : option number;
  maxMessages : option number;
  query : string
}.
End Form.

Module Email.
(** The object built by [getMessageMeta], with the two properties added
    later: [decision] ([VUndefined] until a batch is classified) and
    [_trashed] ([false] while the property is absent). *)
Record t : Type := mk {
  id : string;
  from : string;
  to : string;
  subject : string;
  date : string;
  snippet : string;
  sender : string;
  decision : value;
  _trashed : bool
}.

Definition with_decision (d : value) (e : t) : t :=
  mk (id e) (from e) (to e) (subject e) (date e) (snippet e) (sender e)
     d (_trashed e).

Definition mark_trashed (e : t) : t :=
  mk (id e) (from e) (to e) (subject e) (date e) (snippet e) (sender e)
     (decision e) true.
End Email.

Module Group.
Record t : Type := mk {
  sender : string;
  fromHeaderSample : string;
  emails : list Email.t
}.

Definition with_emails (l : list Email.t) (g : t) : t :=
  mk (sender g) (fromHeaderSample g) l.
End Group.

Module ScanState.
(** The snapshot object of [scan].  [grouped] is a plain object used as
    a dictionary: its own properties in creation order. *)
Record t : Type := mk {
  generatedAt : string;
  query : string;
  total : Z;
  grouped : list (string * Group.t)
}.

Definition with_grouped (g : list (string * Group.t)) (s : t) : t :=
  mk (generatedAt s) (query s) (total s) g.
End ScanState.

(** ** What is rendered *)

Record RowView : Type := {
  row_subject : string;
  row_snip : string;
  row_pillClass : string;
  row_action : string;
  row_category : string;
  row_date : option string;
  row_reason : option string;
  row_trashed : bool
}.

Record SectionView : Type := {
  sec_sender : string;
  sec_sample : string;
  sec_total : Z;
  sec_keep : Z;
  sec_trash : Z;
  sec_review : Z;
  sec_collapsed : bool;
  sec_rows : list RowView
}.

(** The numbers of the summary line
    [Scanned <total>. Keep: <k> * Trash: <t> * Review: <r>]. *)
Record Summary : Type := {
  sum_scanned : Z;
  sum_keep : Z;
  sum_trash : Z;
  sum_review : Z
}.

Record View : Type := {
  view_sections : list SectionView;
  view_summary : Summary
}.

(** ** Network requests and the remote services *)

(** The JSON body posted to the chat-completions endpoint.  [user_content]
    is the object whose [JSON.stringify] is the user message. *)
Record GroqBody : Type := {
  body_model : string;
  body_temperature : Z;
  body_response_format : string;
  body_system : string;
  user_content : value
}.

(** A request as the script issues it: for the mailbox, the HTTP method,
    the path below [users/me/], the [URLSearchParams] entries in order and
    the bearer token; for the classifier, the bearer key and the body. *)
Inductive request : Type :=
| GmailRequest (method path : string) (params : list (string * string))
               (bearer : string)
| GroqRequest (bearer : string) (body : GroqBody).

(** The settled [fetch]: it rejects, or it resolves to a response with
    [res.ok], [res.status], [res.text()] and [res.json()] ([None] when the
    body is not JSON of the expected shape and [res.json()] rejects). *)
Inductive fetched (A : Type) : Type :=
| Rejected
| Response (ok : bool) (status : nat) (text : string) (json : option A).
Arguments Rejected {A}.
Arguments Response {A} ok status text json.

(** [users.messages.list]: [data.messages], each entry by its [id]. *)
Record ListData : Type := { messages : option (list string) }.

(** [users.messages.get] with [format=metadata]: the entries of
    [msg.payload.headers] as name and value, and [msg.snippet]. *)
Record MessageData : Type := {
  headers : list (string * string);
  msg_snippet : option string
}.

(** Chat completion: [data?.choices?.[0]?.message?.content], [None] when
    that chain ends in [undefined] or [null]. *)
Record CompletionData : Type := { content : option json_text }.

(** The environment of the page.  Each service answers a request knowing
    the requests issued before it, so an answer may differ from one call
    to the next.  [clock] is [new Date().toISOString()], [confirm] the
    user's answer to a confirmation dialog. *)
Record World : Type := {
  list_service : list request -> request -> fetched ListData;
  get_service : list request -> request -> fetched MessageData;
  trash_service : list request -> request -> fetched unit;
  groq_service : list request -> request -> fetched CompletionData;
  clock : list request -> string;
  confirm : string -> bool
}.

(** ** Page state and the monad of the script *)

Record Page : Type := {
  accessToken : option string;
  form : Form.t;
  LS_KEY : option SettingsDocument.t;
  LS_LAST : option ScanState.t;
  status : string;
  rendered : option ScanState.t;
  results : list SectionView;
  summary : option Summary;
  requests : list request;
  console : list exn;
  alerts : list string
}.

Module PageUpdate.
Definition with_LS_KEY (x : option SettingsDocument.t) (p : Page) : Page :=
  Build_Page (accessToken p) (form p) x (LS_LAST p) (status p) (rendered p)
    (results p) (summary p) (requests p) (console p) (alerts p).
Definition with_LS_LAST (x : option ScanState.t) (p : Page) : Page :=
  Build_Page (accessToken p) (form p) (LS_KEY p) x (status p) (rendered p)
    (results p) (summary p) (requests p) (console p) (alerts p).
Definition with_status (x : string) (p : Page) : Page :=
  Build_Page (accessToken p) (form p) (LS_KEY p) (LS_LAST p) x (rendered p)
    (results p) (summary p) (requests p) (console p) (alerts p).
Definition with_rendered (x : option ScanState.t) (p : Page) : Page :=
  Build_Page (accessToken p) (form p) (LS_KEY p) (LS_LAST p) (status p) x
    (results p) (summary p) (requests p) (console p) (alerts p).
Definition with_results (x : list SectionView) (p : Page) : Page :=
  Build_Page (accessToken p) (form p) (LS_KEY p) (LS_LAST p) (status p)
    (rendered p) x (summary p) (requests p) (console p) (alerts p).
Definition with_summary (x : option Summary) (p : Page) : Page :=
  Build_Page (accessToken p) (form p) (LS_KEY p) (LS_LAST p) (status p)
    (rendered p) (results p) x (requests p) (console p) (alerts p).
Definition with_requests (x : list request) (p : Page) : Page :=
  Build_Page (accessToken p) (form p) (LS_KEY p) (LS_LAST p) (status p)
    (rendered p) (results p) (summary p) x (console p) (alerts p).
Definition with_console (x : list exn) (p : Page) : Page :=
  Build_Page (accessToken p) (form p) (LS_KEY p) (LS_LAST p) (status p)
    (rendered p) (results p) (summary p) (requests p) x (alerts p).
Definition with_alerts (x : list string) (p : Page) : Page :=
  Build_Page (accessToken p) (form p) (LS_KEY p) (LS_LAST p) (status p)
    (rendered p) (results p) (summary p) (requests p) (console p) x.
End PageUpdate.
Import PageUpdate.

(** A computation of the script: it reads and updates the page, and ends
    in a value or in a thrown exception.  What was written to the page
    before a [throw] stays written. *)
Definition M (A : Type) : Type := Page -> result A * Page.

Definition ret {A} (a : A) : M A := fun p => (Ok a, p).

Definition throw {A} (e : exn) : M A := fun p => (Throw e, p).

Definition bind {A B} (m : M A) (f : A -> M B) : M B :=
  fun p =>
    match m p with
    | (Ok a, p') => f a p'
    | (Throw e, p') => (Throw e, p')
    end.

Definition lift {A} (r : result A) : M A := fun p => (r, p).

Definition update (f : Page -> Page) : M unit := fun p => (Ok tt, f p).

Definition read {A} (f : Page -> A) : M A := fun p => (Ok (f p), p).

(** [try { body } catch (e) { handler(e) }]. *)
Definition try_catch {A} (body : M A) (handler : exn -> M A) : M A :=
  fun p =>
    match body p with
    | (Ok a, p') => (Ok a, p')
    | (Throw e, p') => handler e p'
    end.

Declare Scope js_scope.
Delimit Scope js_scope with js.
Notation "x <- m ;; k" := (bind m (fun x => k))
  (at level 61, m at next level, right associativity) : js_scope.
Notation "m ;;; k" := (bind m (fun _ => k))
  (at level 61, right associativity) : js_scope.
Local Open Scope js_scope.

(** [for (const x of l) acc.push(await f(x))]. *)
Fixpoint for_each {A B} (f : A -> M B) (l : list A) : M (list B) :=
  match l with
  | [] => ret []
  | a :: l' => b <- f a ;; bs <- for_each f l' ;; ret (b :: bs)
  end.

(** ** Page primitives (app.js 34-36, 63-75) *)

Definition setStatus (text : string) : M unit := update (with_status text).

Definition localStorage_setItem_LAST (s : ScanState.t) : M unit :=
  update (with_LS_LAST (Some s)).

(** [Number(input.value || dflt)]: the empty text is falsy and gives the
    default; any other text gives the double nearest to what it
    denotes. *)
Definition number_or (input : option number) (dflt : number) : number :=
  match input with Some x => to_double x | None => dflt end.

(** [JSON.stringify(s)] of line 72. *)
Definition JSON_stringify_settings (s : Settings.t) : SettingsDocument.t :=
  SettingsDocument.mk (Settings.googleClientId s) (Settings.groqKey s)
    (Settings.groqModel s) (JSON_number (Settings.batchSize s))
    (JSON_number (Settings.maxMessages s)) (Settings.query s).

Definition saveSettings : M Settings.t :=
  f <- read form ;;
  let s := Settings.mk (trim (Form.googleClientId f)) (trim (Form.groqKey f))
             (Form.groqModel f)
             (number_or (Form.batchSize f) (Fin 10 0))
             (number_or (Form.maxMessages f) (Fin 50 0))
             (trim (Form.query f)) in
  update (with_LS_KEY (Some (JSON_stringify_settings s))) ;;;
  setStatus "Saved ✅" ;;;
  ret s.

(** ** Mailbox client (app.js 110-157, 245-247) *)

(** [await fetch(...)]: the request is recorded and the service answers
    from the requests that came before. *)
Definition send {A} (service : list request -> request -> fetched A)
    (req : request) : M (fetched A) :=
  fun p => (Ok (service (requests p) req),
            with_requests (requests p ++ [req])%list p).

Definition gmailFetch {A} (service : list request -> request -> fetched A)
    (method path : string) (params : list (string * string)) : M A :=
  tok <- read accessToken ;;
  match tok with
  | None => throw (Error "Not connected to Gmail yet. Tap Connect Gmail first.")
  | Some t =>
      if is_empty t
      then throw (Error "Not connected to Gmail yet. Tap Connect Gmail first.")
      else
        res <- send service (GmailRequest method path params t) ;;
        match res with
        | Rejected => throw NetworkError
        | Response ok st txt json =>
            if ok then
              match json with
              | Some data => ret data
              | None => throw SyntaxError
              end
            else throw (Error ("Gmail API error " ++ string_of_nat st
                               ++ ": " ++ txt))
        end
  end.

Definition listMessageIds (w : World) (query : string)
    (maxResults : number) : M (list string) :=
  let params :=
    ([("maxResults", Number_toString maxResults)] ++
     (if is_empty (trim query) then [] else [("q", trim query)]))%list in
  data <- gmailFetch (list_service w) "GET" "messages" params ;;
  ret (match messages data with Some l => l | None => [] end).

Definition headerValue (msg : MessageData) (name : string) : string :=
  match find (fun x => String.eqb (toLowerCase (fst x)) (toLowerCase name))
             (headers msg) with
  | Some h => snd h
  | None => ""
  end.

Definition metadata_params : list (string * string) :=
  ("format", "metadata") ::
  map (fun h => ("metadataHeaders", h)) ["From"; "To"; "Subject"; "Date"].

Definition getMessageMeta (w : World) (id : string) : M Email.t :=
  msg <- gmailFetch (get_service w) "GET" ("messages/" ++ id)
           metadata_params ;;
  let from := headerValue msg "From" in
  ret (Email.mk id from (headerValue msg "To") (headerValue msg "Subject")
         (headerValue msg "Date") (or_empty (msg_snippet msg))
         (normalizeSender (Some from)) VUndefined false).

Definition trashMessage (w : World) (id : string) : M unit :=
  gmailFetch (trash_service w) "POST" ("messages/" ++ id ++ "/trash") [] ;;;
  ret tt.

(** ** Classification client (app.js 159-206) *)

Definition nl : string := String (ascii_of_nat 10) EmptyString.
Definition dq : string := String (ascii_of_nat 34) EmptyString.
Definition quoted (s : string) : string := dq ++ s ++ dq.

Definition system_prompt : string :=
  String.concat nl
    [ "You are an email triage assistant.";
      "You will be given a JSON array of email metadata objects.";
      "For each email decide an action: keep, trash, or review.";
      "Rules:";
      "- Prefer KEEP for receipts, invoices, banking, account/security alerts, 2FA, school/work, shipping updates, and anything that looks important.";
      "- Prefer TRASH for obvious promos, spam, random repo noise, low-value newsletters, and stuff the user can safely ignore.";
      "- Use REVIEW if uncertain.";
      "Return ONLY valid JSON with this shape:";
      "{ " ++ quoted "decisions" ++ ": [ {" ++ quoted "id" ++ ": "
        ++ quoted "..." ++ ", " ++ quoted "action" ++ ": "
        ++ quoted "keep|trash|review" ++ ", " ++ quoted "category" ++ ": "
        ++ quoted "receipt|security|work|school|github|newsletter|promo|spam|other"
        ++ ", " ++ quoted "summary" ++ ": " ++ quoted "short" ++ ", "
        ++ quoted "reason" ++ ": " ++ quoted "short" ++ " } ] }" ].

(** The object literal of lines 179-181, one per email. *)
Definition payload (e : Email.t) : value :=
  VObj [ ("id", VStr (Email.id e)); ("from", VStr (Email.from e));
         ("to", VStr (Email.to e)); ("subject", VStr (Email.subject e));
         ("date", VStr (Email.date e)); ("snippet", VStr (Email.snippet e)) ].

Definition groq_body (settings : Settings.t) (emails : list Email.t)
    : GroqBody :=
  {| body_model := Settings.groqModel settings;
     body_temperature := 0;
     body_response_format := "json_object";
     body_system := system_prompt;
     user_content := VObj [("emails", VArr (map payload emails))] |}.

(** The fallback decision of line 205. *)
Definition no_decision (id : string) : value :=
  VObj [ ("id", VStr id); ("action", VStr "review");
         ("category", VStr "other"); ("summary", VStr "");
         ("reason", VStr "No decision.") ].

(** [content || "{}"]: an absent or empty content is replaced by the text
    of the empty object. *)
Definition content_or_default (c : option json_text) : json_text :=
  match c with
  | None | Some (NotJson EmptyString) => Json (VObj [])
  | Some t => t
  end.

(** [Array.isArray(parsed.decisions) ? parsed.decisions : []]. *)
Definition decisions_of (parsed : value) : result (list value) :=
  result_bind (get parsed "decisions") (fun ds =>
  Ok (match ds with VArr l => l | _ => [] end)).

(** [decisions.map(d => [d.id, d])]. *)
Definition entries_of (decisions : list value)
    : result (list (value * value)) :=
  result_map (fun d => result_bind (get d "id") (fun k => Ok (k, d)))
             decisions.

(** [byId.get(e.id) || { id: e.id, ... }]. *)
Definition decision_for (byId : list (value * value)) (e : Email.t) : value :=
  match Map_get byId (Email.id e) with
  | Some d => if truthy d then d else no_decision (Email.id e)
  | None => no_decision (Email.id e)
  end.

(** Lines 200-205: from the content of the completion to the labeled
    emails. *)
Definition merge_decisions (c : option json_text) (emails : list Email.t)
    : result (list Email.t) :=
  result_bind (JSON_parse (content_or_default c)) (fun parsed =>
  result_bind (decisions_of parsed) (fun decisions =>
  result_bind (entries_of decisions) (fun byId =>
  Ok (map (fun e => Email.with_decision (decision_for byId e) e) emails)))).

Definition groqClassifyBatch (w : World) (settings : Settings.t)
    (emails : list Email.t) : M (list Email.t) :=
  if is_empty (Settings.groqKey settings)
  then throw (Error "Missing Groq API key.")
  else
    res <- send (groq_service w)
             (GroqRequest (Settings.groqKey settings)
                          (groq_body settings emails)) ;;
    match res with
    | Rejected => throw NetworkError
    | Response ok st txt json =>
        if ok then
          match json with
          | Some data => lift (merge_decisions (content data) emails)
          | None => throw SyntaxError
          end
        else throw (Error ("Groq API error " ++ string_of_nat st
                           ++ ": " ++ txt))
    end.

(** ** Plain objects used as dictionaries *)

(** The properties every plain object inherits from [Object.prototype].
    Reading one of them from [{}] yields a function (or, for [__proto__],
    the prototype object), never [undefined]. *)
Definition Object_prototype_names : list string :=
  [ "constructor"; "__proto__"; "hasOwnProperty"; "isPrototypeOf";
    "propertyIsEnumerable"; "toLocaleString"; "toString"; "valueOf";
    "__defineGetter__"; "__defineSetter__"; "__lookupGetter__";
    "__lookupSetter__" ].

Definition inherited (k : string) : bool :=
  existsb (String.eqb k) Object_prototype_names.

(** Assignment to an own property that exists: the value changes, the
    position of the key does not. *)
Fixpoint replace {A} (k : string) (a : A) (l : list (string * A))
    : list (string * A) :=
  match l with
  | [] => []
  | (k', a') :: l' =>
      if String.eqb k k' then (k', a) :: l' else (k', a') :: replace k a l'
  end.

Definition digit_of (c : ascii) : option N :=
  let n := N_of_ascii c in
  if ((48 <=? n) && (n <=? 57))%N then Some (n - 48)%N else None.

Fixpoint digits_value (s : string) (acc : N) : option N :=
  match s with
  | EmptyString => Some acc
  | String c r =>
      match digit_of c with
      | Some d => digits_value r (10 * acc + d)%N
      | None => None
      end
  end.

(** A key is an array index when it is the canonical decimal text of an
    integer between 0 and 2^32 - 2. *)
Definition array_index (k : string) : option N :=
  match k with
  | EmptyString => None
  | String c r =>
      if Ascii.eqb c "0" && negb (is_empty r) then None
      else match digits_value k 0 with
           | Some n => if (n <=? 4294967294)%N then Some n else None
           | None => None
           end
  end.

(** Stable insertion sort: [le x y] says that [x] may stand before [y]. *)
Fixpoint insert_by {A} (le : A -> A -> bool) (x : A) (l : list A) : list A :=
  match l with
  | [] => [x]
  | y :: l' => if le x y then x :: l else y :: insert_by le x l'
  end.

Definition sort_by {A} (le : A -> A -> bool) (l : list A) : list A :=
  fold_right (insert_by le) [] l.

(** [Object.keys(o)]: array-index keys in ascending numeric order, then
    the other keys in creation order. *)
Definition Object_keys {A} (o : list (string * A)) : list string :=
  let keys := map fst o in
  let indexed :=
    flat_map (fun k => match array_index k with
                       | Some n => [(n, k)]
                       | None => []
                       end) keys in
  let named :=
    filter (fun k => match array_index k with
                     | Some _ => false
                     | None => true
                     end) keys in
  (map snd (sort_by (fun a b => (fst a <=? fst b)%N) indexed) ++ named)%list.

(** ** Grouping by sender (app.js 226-231) *)

(** Line 228: [e.sender || "(unknown)"]. *)
Definition sender_key (e : Email.t) : string :=
  or_else (Email.sender e) "(unknown)".

(** One turn of the loop.  [grouped[key]] reads an own property, or else
    an inherited one; an inherited one is truthy, so no group is created,
    and [grouped[key].emails] is then [undefined], on which [push] throws. *)
Definition group_push (grouped : list (string * Group.t)) (e : Email.t)
    : result (list (string * Group.t)) :=
  let key := sender_key e in
  match assoc key grouped with
  | Some g =>
      Ok (replace key (Group.with_emails (Group.emails g ++ [e])%list g)
                  grouped)
  | None =>
      if inherited key then Throw TypeError
      else Ok (grouped ++ [(key, Group.mk key (Email.from e) [e])])%list
  end.

Fixpoint group_from (grouped : list (string * Group.t))
    (labeled : list Email.t) : result (list (string * Group.t)) :=
  match labeled with
  | [] => Ok grouped
  | e :: rest => result_bind (group_push grouped e)
                             (fun g => group_from g rest)
  end.

Definition group_by_sender (labeled : list Email.t)
    : result (list (string * Group.t)) :=
  group_from [] labeled.

(** ** Rendering (app.js 42-44, 249-363) *)

Definition esc_char (c : ascii) : string :=
  if Ascii.eqb c "&" then "&amp;"
  else if Ascii.eqb c "<" then "&lt;"
  else if Ascii.eqb c ">" then "&gt;"
  else if (nat_of_ascii c =? 34)%nat then "&quot;"
  else String c EmptyString.

Fixpoint esc (s : string) : string :=
  match s with
  | EmptyString => EmptyString
  | String c r => esc_char c ++ esc r
  end.

Definition pillClass (action : string) : string :=
  let a := toLowerCase (or_else action "review") in
  if String.eqb a "keep" then "keep"
  else if String.eqb a "trash" then "trash"
  else "review".

(** [(e.decision?.action || "").toLowerCase() === name]. *)
Definition action_is (name : string) (e : Email.t) : result bool :=
  result_bind (string_or (get_opt (Email.decision e) "action") "")
    (fun a => Ok (String.eqb (toLowerCase a) name)).

(** [emails.filter(pred)]. *)
Fixpoint filter_by (pred : Email.t -> result bool) (l : list Email.t)
    : result (list Email.t) :=
  match l with
  | [] => Ok []
  | e :: l' =>
      result_bind (pred e) (fun b =>
      result_bind (filter_by pred l') (fun r =>
      Ok (if b then e :: r else r)))
  end.

Definition length_Z {A} (l : list A) : Z := Z.of_nat (length l).

(** Lines 315-336: one row. *)
Definition render_row (e : Email.t) : result RowView :=
  let d := Email.decision e in
  result_bind (string_or (get_opt d "action") "review") (fun a =>
  let action := toLowerCase a in
  result_bind (string_or (get_opt d "category") "other") (fun cat =>
  result_bind (string_or (get_opt d "summary") (Email.snippet e))
    (fun snip =>
  result_bind (string_or (get_opt d "reason") "") (fun reason =>
  Ok {| row_subject := esc (or_else (Email.subject e) "(no subject)");
        row_snip := esc snip;
        row_pillClass := pillClass action;
        row_action := action;
        row_category := esc cat;
        row_date := if is_empty (Email.date e) then None
                    else Some (esc (Email.date e));
        row_reason := if is_empty reason then None else Some (esc reason);
        row_trashed := Email._trashed e |})))).

(** Lines 262-357: one sender section. *)
Definition render_section (sender : string) (group : Group.t)
    : result SectionView :=
  let emails := Group.emails group in
  result_bind (filter_by (action_is "keep") emails) (fun keeps =>
  result_bind (filter_by (action_is "trash") emails) (fun trashes =>
  let keepCount := length_Z keeps in
  let trashCount := length_Z trashes in
  let reviewCount := (length_Z emails - keepCount - trashCount)%Z in
  result_bind (result_map render_row emails) (fun rows =>
  Ok {| sec_sender := esc sender;
        sec_sample := esc (Group.fromHeaderSample group);
        sec_total := length_Z emails;
        sec_keep := keepCount;
        sec_trash := trashCount;
        sec_review := reviewCount;
        sec_collapsed := (12 <? length_Z emails)%Z;
        sec_rows := rows |}))).

(** [grouped[k].emails?.length || 0]. *)
Definition group_size (grouped : list (string * Group.t)) (k : string) : Z :=
  match assoc k grouped with
  | Some g => length_Z (Group.emails g)
  | None => 0%Z
  end.

(** Line 256: the comparator [(a, b) => size(b) - size(a)] puts [a] first
    when it is negative and keeps the order of [a] and [b] when it is 0. *)
Definition sorted_senders (grouped : list (string * Group.t)) : list string :=
  sort_by (fun a b => (group_size grouped b <=? group_size grouped a)%Z)
          (Object_keys grouped).

Definition sum_of (f : SectionView -> Z) (l : list SectionView) : Z :=
  fold_left (fun acc s => (acc + f s)%Z) l 0%Z.

Definition render (state : ScanState.t) : result View :=
  let grouped := ScanState.grouped state in
  result_bind
    (result_map (fun sender =>
                   match assoc sender grouped with
                   | Some group => render_section sender group
                   | None => Throw TypeError
                   end)
                (sorted_senders grouped))
    (fun sections =>
  Ok {| view_sections := sections;
        view_summary :=
          {| sum_scanned := ScanState.total state;
             sum_keep := sum_of sec_keep sections;
             sum_trash := sum_of sec_trash sections;
             sum_review := sum_of sec_review sections |} |}).

(** [render(state)] on the page.  The sections are built detached and
    put into the document at the very end, so a throw leaves the page as
    it was.  [rendered] is the state object that the handlers of the rows
    now on the page close over. *)
Definition render_page (state : ScanState.t) : M unit :=
  v <- lift (render state) ;;
  update (fun p => with_rendered (Some state)
                     (with_results (view_sections v)
                        (with_summary (Some (view_summary v)) p))).

(** ** The scan pipeline (app.js 208-243) *)

(** [Math.max(1, settings.batchSize || 10)]. *)
Definition effective_batchSize (settings : Settings.t) : number :=
  let b := Settings.batchSize settings in
  Math_max (Fin 1 0) (if Number_toBoolean b then b else Fin 10 0).

(** The elements of [l] from index [i] up to, not including, index
    [j]. *)
Definition slice {A} (i j : nat) (l : list A) : list A :=
  firstn (j - i) (skipn i l).

(** [a.slice(start, end)]. *)
Definition Array_slice {A} (start end_ : number) (l : list A) : list A :=
  slice (relative_index start (length l)) (relative_index end_ (length l)) l.

(** The loop of lines 220-224, entered at index [i] with [labeled]
    collected so far.  While [i] is below the length of an array, a turn
    advances it by at least one, so [length metas] turns of [fuel] are
    never used up. *)
Fixpoint classify_from (w : World) (settings : Settings.t)
    (metas : list Email.t) (batchSize : number) (fuel : nat) (i : number)
    (labeled : list Email.t) : M (list Email.t) :=
  match fuel with
  | O => ret labeled
  | S fuel' =>
      if Number_lessThan i (of_nat (length metas)) then
        out <- groqClassifyBatch w settings
                 (Array_slice i (Number_add i batchSize) metas) ;;
        setStatus ("Scanning…" ++ nl ++ "Processed "
                   ++ Number_toString
                        (Math_min (Number_add i batchSize)
                                  (of_nat (length metas)))
                   ++ " / " ++ string_of_nat (length metas)) ;;;
        classify_from w settings metas batchSize fuel'
                      (Number_add i batchSize) (labeled ++ out)%list
      else ret labeled
  end.

(** Lines 209-212: the settings are saved and the page is cleared. *)
Definition scan_begin : M Settings.t :=
  settings <- saveSettings ;;
  setStatus ("Scanning…" ++ nl ++ "(1) listing messages" ++ nl
             ++ "(2) reading headers/snippets" ++ nl
             ++ "(3) calling Groq…") ;;;
  update (fun p => with_rendered None
                     (with_results [] (with_summary None p))) ;;;
  ret settings.

(** Lines 218-224: all batches in turn. *)
Definition classify_all (w : World) (settings : Settings.t)
    (metas : list Email.t) : M (list Email.t) :=
  classify_from w settings metas (effective_batchSize settings)
                (length metas) (Fin 0 0) [].

(** Lines 209-224: settings, listing, metadata, classification. *)
Definition scan_collect (w : World) : M (Settings.t * list Email.t) :=
  settings <- scan_begin ;;
  ids <- listMessageIds w (Settings.query settings)
           (Settings.maxMessages settings) ;;
  metas <- for_each (getMessageMeta w) ids ;;
  labeled <- classify_all w settings metas ;;
  ret (settings, labeled).

(** Lines 226-242: grouping, the snapshot, its persistence, rendering. *)
Definition scan_finish (w : World) (settings : Settings.t)
    (labeled : list Email.t) : M unit :=
  grouped <- lift (group_by_sender labeled) ;;
  now <- read (fun p => clock w (requests p)) ;;
  let state := ScanState.mk now (Settings.query settings)
                 (length_Z labeled) grouped in
  localStorage_setItem_LAST state ;;;
  render_page state ;;;
  setStatus ("Done ✅" ++ nl ++ "Scanned: "
             ++ string_of_Z (ScanState.total state) ++ nl ++ "Query: "
             ++ ScanState.query state ++ nl ++ "Time: "
             ++ ScanState.generatedAt state).

Definition scan (w : World) : M unit :=
  r <- scan_collect w ;;
  scan_finish w (fst r) (snd r).

(** [loadLast] (app.js 365-374). *)
Definition loadLast : M unit :=
  raw <- read LS_LAST ;;
  match raw with
  | None => setStatus "No last scan saved yet."
  | Some state =>
      render_page state ;;;
      setStatus ("Loaded last scan ✅" ++ nl ++ "Scanned: "
                 ++ string_of_Z (ScanState.total state) ++ nl ++ "Query: "
                 ++ ScanState.query state ++ nl ++ "Time: "
                 ++ ScanState.generatedAt state)
  end.

(** ** Handlers of the rendered rows (app.js 298-312, 344-352) *)

Definition alert (text : string) : M unit :=
  update (fun p => with_alerts (alerts p ++ [text])%list p).

Definition console_error (e : exn) : M unit :=
  update (fun p => with_console (console p ++ [e])%list p).

(** Line 299: the ids of the emails suggested for the trash and not yet
    flagged. *)
Definition suggested_ids (emails : list Email.t) : result (list string) :=
  result_bind
    (filter_by (fun e => result_bind (action_is "trash" e) (fun b =>
                         Ok (b && negb (Email._trashed e))))
               emails)
    (fun sel => Ok (map Email.id sel)).

(** Lines 304-307: [ok] counts the calls that did not throw. *)
Fixpoint trash_each (w : World) (ids : list string) (ok : nat) : M nat :=
  match ids with
  | [] => ret ok
  | id :: rest =>
      ok' <- try_catch (trashMessage w id ;;; ret (S ok))
                       (fun e => console_error e ;;; ret ok) ;;
      trash_each w rest ok'
  end.

(** [ids.includes(e.id)]. *)
Definition includes (ids : list string) (id : string) : bool :=
  existsb (String.eqb id) ids.

(** Line 308. *)
Definition flag_attempted (ids : list string) (emails : list Email.t)
    : list Email.t :=
  map (fun e => if includes ids (Email.id e) then Email.mark_trashed e else e)
      emails.

(** The state object after the emails of one group were changed in
    place. *)
Definition set_emails (sender : string) (group : Group.t)
    (emails : list Email.t) (state : ScanState.t) : ScanState.t :=
  ScanState.with_grouped
    (replace sender (Group.with_emails emails group)
             (ScanState.grouped state))
    state.

(** The click handler of [Trash suggested] in the section of [sender].
    It exists only for a section on the page; elsewhere the click does
    nothing. *)
Definition trashSuggested (w : World) (sender : string) : M unit :=
  r <- read rendered ;;
  match r with
  | None => ret tt
  | Some state =>
      match assoc sender (ScanState.grouped state) with
      | None => ret tt
      | Some group =>
          let emails := Group.emails group in
          ids <- lift (suggested_ids emails) ;;
          match ids with
          | [] => alert "No TRASH suggestions here."
          | _ :: _ =>
              if negb (confirm w ("Trash " ++ string_of_nat (length ids)
                                  ++ " emails from " ++ sender
                                  ++ "? (Moves to Trash)"))
              then ret tt
              else
                setStatus ("Trashing " ++ string_of_nat (length ids)
                           ++ " emails…") ;;;
                ok <- trash_each w ids 0 ;;
                let state' :=
                  set_emails sender group (flag_attempted ids emails) state in
                update (with_rendered (Some state')) ;;;
                localStorage_setItem_LAST state' ;;;
                render_page state' ;;;
                setStatus ("Trashed " ++ string_of_nat ok ++ "/"
                           ++ string_of_nat (length ids) ++ " emails.")
          end
      end
  end.

(** [e._trashed = true] for the email at [index] of the group. *)
Fixpoint flag_at (index : nat) (emails : list Email.t) : list Email.t :=
  match emails, index with
  | [], _ => []
  | e :: rest, O => Email.mark_trashed e :: rest
  | e :: rest, S n => e :: flag_at n rest
  end.

(** The click handler of [Trash] in row [index] of the section of
    [sender]. *)
Definition manualTrash (w : World) (sender : string) (index : nat) : M unit :=
  r <- read rendered ;;
  match r with
  | None => ret tt
  | Some state =>
      match assoc sender (ScanState.grouped state) with
      | None => ret tt
      | Some group =>
          match nth_error (Group.emails group) index with
          | None => ret tt
          | Some e =>
              if negb (confirm w "Move this email to Trash?") then ret tt
              else
                setStatus "Trashing 1 email…" ;;;
                trashMessage w (Email.id e) ;;;
                let state' :=
                  set_emails sender group
                    (flag_at index (Group.emails group)) state in
                update (with_rendered (Some state')) ;;;
                localStorage_setItem_LAST state' ;;;
                render_page state' ;;;
                setStatus "Trashed ✅"
          end
      end
  end.

(** ** Auxiliary predicates of the statements and proofs *)

(** A string that does not begin with white space. *)
Definition head_kept (s : string) : Prop :=
  match s with
  | EmptyString => True
  | String c _ => is_ws c = false
  end.

(** Does [>] occur in the string? *)
Fixpoint has_gt (s : string) : bool :=
  match s with
  | EmptyString => false
  | String c r => Ascii.eqb c ">" || has_gt r
  end.

(** [n <= x], for an integer [n]. *)
Definition at_least (x : number) (n : Z) : Prop :=
  match x with
  | PosInf => True
  | NegZero => (n <= 0)%Z
  | Fin m e => (n * 2 ^ Z.max (- e) 0 <= m * 2 ^ Z.max e 0)%Z
  | _ => False
  end.

(** [x] is the integer [z]. *)
Definition is_integer (x : number) (z : Z) : Prop :=
  match x with
  | NegZero => z = 0%Z
  | Fin m e => (m * 2 ^ Z.max e 0 = z * 2 ^ Z.max (- e) 0)%Z
  | _ => False
  end.

(** The integer part of a finite number. *)
Definition integer_part (x : number) : Z :=
  match ToIntegerOrInfinity x with
  | Int z => z
  | _ => 0%Z
  end.

(** The response a classification call receives on page [p]. *)
Definition classify_response (w : World) (settings : Settings.t)
    (emails : list Email.t) (p : Page) : fetched CompletionData :=
  groq_service w (requests p)
    (GroqRequest (Settings.groqKey settings) (groq_body settings emails)).

(** The page once that call has been sent. *)
Definition classify_sent (settings : Settings.t) (emails : list Email.t)
    (p : Page) : Page :=
  with_requests
    (requests p ++
     [GroqRequest (Settings.groqKey settings) (groq_body settings emails)])
    p.

(** The [decisions] array the script reads from a completion content. *)
Definition decisions_in (c : option json_text) : result (list value) :=
  result_bind (JSON_parse (content_or_default c)) decisions_of.

Definition is_array (v : value) : bool :=
  match v with VArr _ => true | _ => false end.

Definition is_nullish (v : value) : bool :=
  match v with VUndefined | VNull => true | _ => false end.

(** The content is absent or empty, or it is the text of a JSON value
    other than [null] that has no array under [decisions]. *)
Definition lacks_decisions (c : option json_text) : bool :=
  match content_or_default c with
  | Json v => negb (is_nullish v) && negb (is_array (get_opt v "decisions"))
  | NotJson _ => false
  end.

(** The content is a non-empty text that is not JSON. *)
Definition malformed (c : option json_text) : bool :=
  match content_or_default c with
  | NotJson _ => true
  | Json _ => false
  end.

(** Every input email with the fallback decision attached. *)
Definition all_defaulted (emails : list Email.t) : list Email.t :=
  map (fun e => Email.with_decision (no_decision (Email.id e)) e) emails.

(** The default decision in the words of the specification. *)
Definition spec_no_decision : value :=
  VObj [ ("action", VStr "review"); ("category", VStr "other");
         ("summary", VStr ""); ("reason", VStr "no decision") ].

(** Two emails that agree on the six fields of the payload. *)
Definition same_metadata (a b : Email.t) : Prop :=
  Email.id a = Email.id b /\ Email.from a = Email.from b /\
  Email.to a = Email.to b /\ Email.subject a = Email.subject b /\
  Email.date a = Email.date b /\ Email.snippet a = Email.snippet b.

(** ** Concrete pages and services for the examples *)

Module Sample.

Definition path_of (r : request) : string :=
  match r with
  | GmailRequest _ path _ _ => path
  | GroqRequest _ _ => ""
  end.

(** A mailbox holding [inbox] (message path and data) found by every
    query, a trash endpoint that answers 500 on the paths in [failing],
    and a classifier that always answers with [c]. *)
Definition world (inbox : list (string * MessageData))
    (failing : list string) (c : option json_text) : World :=
  {| list_service := fun _ _ =>
       Response true 200 "" (Some {| messages := Some (map fst inbox) |});
     get_service := fun _ r =>
       match assoc (path_of r) (map (fun m => ("messages/" ++ fst m, snd m))
                                    inbox) with
       | Some m => Response true 200 "" (Some m)
       | None => Response false 404 "Not Found" None
       end;
     trash_service := fun _ r =>
       if existsb (String.eqb (path_of r)) failing
       then Response false 500 "Backend Error" None
       else Response true 200 "" (Some tt);
     groq_service := fun _ _ =>
       Response true 200 "" (Some {| content := c |});
     clock := fun _ => "2024-05-01T10:00:00.000Z";
     confirm := fun _ => true |}.

Definition form0 : Form.t :=
  Form.mk "client-id" "gsk_key" "llama-3.1-8b-instant" (Some (Fin 10 0))
          (Some (Fin 50 0)) "category:promotions".

Definition settings0 : Settings.t :=
  Settings.mk "client-id" "gsk_key" "llama-3.1-8b-instant" (Fin 10 0)
              (Fin 50 0) "category:promotions".

(** A connected page on which nothing was scanned yet. *)
Definition page0 : Page :=
  {| accessToken := Some "ya29.token"; form := form0; LS_KEY := None;
     LS_LAST := None; status := ""; rendered := None; results := [];
     summary := None; requests := []; console := []; alerts := [] |}.

Definition meta (id from subject : string) : Email.t :=
  Email.mk id from "me@example.com" subject "Mon, 1 Apr 2024" "..."
           (normalizeSender (Some from)) VUndefined false.

Definition decided (action : value) (e : Email.t) : Email.t :=
  Email.with_decision
    (VObj [("id", VStr (Email.id e)); ("action", action)]) e.

Definition m1 : Email.t := meta "m1" "Shop <deals@shop.example>" "Sale".
Definition m2 : Email.t := meta "m2" "Shop <deals@shop.example>" "Sale 2".
Definition m3 : Email.t := meta "m3" "Bank <alerts@bank.example>" "Alert".

(** Decisions in another order than the batch, with an id nobody asked
    about and none for [m2]. *)
Definition shuffled : option json_text :=
  Some (Json (VObj [("decisions",
    VArr [ VObj [("id", VStr "m3"); ("action", VStr "keep")];
           VObj [("id", VStr "zz"); ("action", VStr "trash")];
           VObj [("id", VStr "m1"); ("action", VStr "trash")] ])])).

End Sample.

(** ** Frame conditions *)

(** Every run of [m] takes a page to one related to it by [R], whether
    [m] returns or throws. *)
Definition respects (R : Page -> Page -> Prop) {A} (m : M A) : Prop :=
  forall p r p', m p = (r, p') -> R p p'.

(** The last-scan document is what it was. *)
Definition same_last_scan (p p' : Page) : Prop := LS_LAST p' = LS_LAST p.

(** Neither the state object behind the page nor the last-scan document
    has changed. *)
Definition same_snapshot (p p' : Page) : Prop :=
  rendered p' = rendered p /\ LS_LAST p' = LS_LAST p.

(** A request that carries or asks for metadata only: the listing with
    no parameter but [maxResults] and [q]; the read of one message with
    [format=metadata] and the headers From, To, Subject and Date; or a
    classification whose user message is an object with the one property
    [emails], an array that holds for each email of some list the
    object of its six fields [id], [from], [to], [subject], [date] and
    [snippet]. *)
Definition metadata_only (r : request) : Prop :=
  match r with
  | GmailRequest method path params _ =>
      method = "GET" /\
      ((path = "messages" /\
        Forall (fun kv => fst kv = "maxResults" \/ fst kv = "q") params) \/
       ((exists id, path = "messages/" ++ id) /\
        params = [ ("format", "metadata"); ("metadataHeaders", "From");
                   ("metadataHeaders", "To");
                   ("metadataHeaders", "Subject");
                   ("metadataHeaders", "Date") ]))
  | GroqRequest _ body =>
      exists emails,
        user_content body =
        VObj [("emails",
               VArr (map (fun e =>
                            VObj [ ("id", VStr (Email.id e));
                                   ("from", VStr (Email.from e));
                                   ("to", VStr (Email.to e));
                                   ("subject", VStr (Email.subject e));
                                   ("date", VStr (Email.date e));
                                   ("snippet", VStr (Email.snippet e)) ])
                         emails))]
  end.

(** The requests issued from [p] to [p'] are all of that kind. *)
Definition sent_metadata_only (p p' : Page) : Prop :=
  exists sent, requests p' = (requests p ++ sent)%list
               /\ Forall metadata_only sent.

(** From [p] to [p'] nothing happened but requests, each satisfying [P],
    being sent. *)
Definition sends (P : request -> Prop) (p p' : Page) : Prop :=
  exists sent, p' = with_requests (requests p ++ sent) p /\ Forall P sent.

Definition any_request (r : request) : Prop := True.

Module Relabeled.
(** [Sample.m1] after a scan and a bulk trash: other sender, a decision,
    the trashed flag.  The six metadata fields are those of [Sample.m1]. *)
Definition m1_labeled : Email.t :=
  Email.mk "m1" "Shop <deals@shop.example>" "me@example.com" "Sale"
           "Mon, 1 Apr 2024" "..." "someone-else"
           (VObj [("action", VStr "trash")]) true.

Definition chatty : option json_text :=
  Some (NotJson "Sure! Here are the decisions you asked for:").
End Relabeled.

(** ** Counting *)

Definition sumZ (l : list Z) : Z := fold_right Z.add 0%Z l.

(** The emails of all groups together, group after group. *)
Definition all_emails (grouped : list (string * Group.t)) : list Email.t :=
  flat_map (fun kg => Group.emails (snd kg)) grouped.

(** The sum of the email counts of all groups. *)
Definition total_emails (grouped : list (string * Group.t)) : Z :=
  sumZ (map (fun kg => length_Z (Group.emails (snd kg))) grouped).

Definition emails_of (grouped : list (string * Group.t)) (k : string)
    : list Email.t :=
  match assoc k grouped with
  | Some g => Group.emails g
  | None => []
  end.

(** The lower-cased action of the decision is neither [keep] nor
    [trash]: it is missing, empty or some other word. *)
Definition counted_as_review (e : Email.t) : bool :=
  match action_is "keep" e, action_is "trash" e with
  | Ok false, Ok false => true
  | _, _ => false
  end.

(** The counts of a section add up: keep + trash + review = total. *)
Definition section_adds_up (s : SectionView) : Prop :=
  (sec_keep s + sec_trash s + sec_review s = sec_total s)%Z.

(** The four decision properties a row shows are each absent, falsy or a
    string. *)
Definition printable (d : value) : Prop :=
  Forall (fun k => exists s, string_or (get_opt d k) "" = Ok s)
         ["action"; "category"; "summary"; "reason"].

Module Newsletter.
(** One sender, five emails: a keep, a trash, and three that count as
    review (no decision at all, an empty action, an action the page does
    not know). *)
Definition emails : list Email.t :=
  [ Sample.decided (VStr "KEEP") (Sample.meta "a1" "News <n@x.example>" "1");
    Sample.decided (VStr "trash") (Sample.meta "a2" "News <n@x.example>" "2");
    Sample.meta "a3" "News <n@x.example>" "3";
    Sample.decided (VStr "") (Sample.meta "a4" "News <n@x.example>" "4");
    Sample.decided (VStr "archive")
                   (Sample.meta "a5" "News <n@x.example>" "5") ].

Definition state : ScanState.t :=
  ScanState.mk "2024-05-01T10:00:00.000Z" "q" 5
    [ ("n@x.example", Group.mk "n@x.example" "News <n@x.example>" emails) ].
End Newsletter.

Module NumericAction.
(** One email whose decision carries the number 5 as its action. *)
Definition state : ScanState.t :=
  ScanState.mk "2024-05-01T10:00:00.000Z" "q" 1
    [ ("n@x.example",
       Group.mk "n@x.example" "News <n@x.example>"
         [ Sample.decided (VNum 5 0)
             (Sample.meta "a1" "News <n@x.example>" "1") ]) ].
End NumericAction.

(** The ids of the emails flagged as trashed in a snapshot. *)
Definition trashed_ids (s : ScanState.t) : list string :=
  map Email.id (filter Email._trashed (all_emails (ScanState.grouped s))).

Module BulkTrash.
(** A group of five emails of one sender, three of them suggested for the
    trash; the trash endpoint fails for two of the three. *)
Definition sender : string := "deals@shop.example".

Definition mail (id : string) (action : string) : Email.t :=
  Sample.decided (VStr action) (Sample.meta id "Shop <deals@shop.example>" id).

Definition emails : list Email.t :=
  [ mail "t1" "trash"; mail "k1" "keep"; mail "t2" "trash";
    mail "r1" "review"; mail "t3" "trash" ].

Definition state : ScanState.t :=
  ScanState.mk "2024-05-01T10:00:00.000Z" "category:promotions" 5
    [ (sender, Group.mk sender "Shop <deals@shop.example>" emails) ].

Definition world : World :=
  Sample.world [] ["messages/t2/trash"; "messages/t3/trash"] None.

(** The page after [render(state)]: the snapshot is shown and stored. *)
Definition page : Page :=
  {| accessToken := Some "ya29.token"; form := Sample.form0; LS_KEY := None;
     LS_LAST := Some state; status := ""; rendered := Some state;
     results := []; summary := None; requests := []; console := [];
     alerts := [] |}.
End BulkTrash.

(** ** Failing steps of a scan *)

(** Started on page [p], the scan fails with [e] on page [p'] in the
    listing, in the metadata fetch (at some message) or in the
    classification (at some batch), the earlier steps having succeeded. *)
Inductive step_fails (w : World) (p : Page) (e : exn) (p' : Page) : Prop :=
| listing_fails settings p1 :
    scan_begin p = (Ok settings, p1) ->
    listMessageIds w (Settings.query settings)
      (Settings.maxMessages settings) p1 = (Throw e, p') ->
    step_fails w p e p'
| metadata_fails settings p1 ids p2 :
    scan_begin p = (Ok settings, p1) ->
    listMessageIds w (Settings.query settings)
      (Settings.maxMessages settings) p1 = (Ok ids, p2) ->
    for_each (getMessageMeta w) ids p2 = (Throw e, p') ->
    step_fails w p e p'
| classification_fails settings p1 ids p2 metas p3 :
    scan_begin p = (Ok settings, p1) ->
    listMessageIds w (Settings.query settings)
      (Settings.maxMessages settings) p1 = (Ok ids, p2) ->
    for_each (getMessageMeta w) ids p2 = (Ok metas, p3) ->
    classify_all w settings metas p3 = (Throw e, p') ->
    step_fails w p e p'.

Module Outage.
(** Two messages are listed; the metadata of the second cannot be read.
    The page still holds the snapshot of an earlier scan. *)
Definition world : World :=
  {| list_service := fun _ _ =>
       Response true 200 "" (Some {| messages := Some ["m1"; "m2"] |});
     get_service := fun _ r =>
       if String.eqb (Sample.path_of r) "messages/m1"
       then Response true 200 ""
              (Some {| headers := [("From", "Shop <deals@shop.example>");
                                   ("Subject", "Sale")];
                       msg_snippet := Some "Big sale" |})
       else Response false 503 "Service Unavailable" None;
     trash_service := fun _ _ => Response true 200 "" (Some tt);
     groq_service := fun _ _ =>
       Response true 200 "" (Some {| content := None |});
     clock := fun _ => "2024-05-02T09:00:00.000Z";
     confirm := fun _ => true |}.

Definition page : Page :=
  {| accessToken := Some "ya29.token"; form := Sample.form0; LS_KEY := None;
     LS_LAST := Some BulkTrash.state; status := "";
     rendered := Some BulkTrash.state; results := []; summary := None;
     requests := []; console := []; alerts := [] |}.

(** The same mailbox with both messages readable, and a classifier whose
    answer is not JSON. *)
Definition world_chatty : World :=
  {| list_service := list_service world;
     get_service := fun _ _ =>
       Response true 200 ""
         (Some {| headers := [("From", "Shop <deals@shop.example>")];
                  msg_snippet := None |});
     trash_service := trash_service world;
     groq_service := fun _ _ =>
       Response true 200 "" (Some {| content := Relabeled.chatty |});
     clock := clock world;
     confirm := confirm world |}.
End Outage.

(** ** Grouping *)

Definition has_key (k : string) (e : Email.t) : bool :=
  String.eqb (sender_key e) k.

(** What holds of [grouped] after the emails [seen] went through the
    loop: each key once; no key inherited from [Object.prototype]; every
    group named by its key and holding, in their order, the emails of
    [seen] with that key, at least one; all groups together a
    rearrangement of [seen]. *)
Definition grouping_of (seen : list Email.t)
    (grouped : list (string * Group.t)) : Prop :=
  NoDup (map fst grouped) /\
  Forall (fun kg =>
            inherited (fst kg) = false /\
            Group.sender (snd kg) = fst kg /\
            Group.emails (snd kg) = filter (has_key (fst kg)) seen /\
            Group.emails (snd kg) <> [])
         grouped /\
  Permutation (all_emails grouped) seen.

Module Inherited.
(** A message whose From header is the bare word [Constructor]. *)
Definition world : World :=
  Sample.world
    [ ("c1", {| headers := [("From", "Constructor"); ("Subject", "Hello")];
                msg_snippet := Some "hi" |}) ]
    [] None.

Definition labeled : Email.t :=
  Email.with_decision (no_decision "c1")
    (Email.mk "c1" "Constructor" "" "Hello" "" "hi"
              (normalizeSender (Some "Constructor")) VUndefined false).
End Inherited.

(** ** The manual Keep handler (app.js 338-342) *)

(** [{ ...o, k: v }]: a property that exists keeps its place and takes the
    new value, a new one is added at the end. *)
Definition obj_set (k : string) (v : value) (props : list (string * value))
    : list (string * value) :=
  match assoc k props with
  | Some _ => replace k v props
  | None => (props ++ [(k, v)])%list
  end.

(** The elements of an array or the code units of a string as properties
    ["0"], ["1"], ... *)
Definition indexed (items : list value) : list (string * value) :=
  combine (map string_of_nat (seq 0 (length items))) items.

Fixpoint chars (s : string) : list value :=
  match s with
  | EmptyString => []
  | String c r => VStr (String c EmptyString) :: chars r
  end.

(** [{ ...v }]: the own enumerable properties of [v]; numbers, booleans,
    [null] and [undefined] have none. *)
Definition spread (v : value) : list (string * value) :=
  match v with
  | VObj props => props
  | VArr items => indexed items
  | VStr s => indexed (chars s)
  | _ => []
  end.

(** [{ ...(d || {}), action: "keep", reason: "Manually kept." }]. *)
Definition keep_decision (d : value) : value :=
  VObj (obj_set "reason" (VStr "Manually kept.")
          (obj_set "action" (VStr "keep")
             (if truthy d then spread d else []))).

(** [e.decision = ...] for the email at [index] of the group. *)
Fixpoint keep_at (index : nat) (emails : list Email.t) : list Email.t :=
  match emails, index with
  | [], _ => []
  | e :: rest, O =>
      Email.with_decision (keep_decision (Email.decision e)) e :: rest
  | e :: rest, S n => e :: keep_at n rest
  end.

(** The click handler of [Keep] in row [index] of the section of
    [sender]. *)
Definition manualKeep (sender : string) (index : nat) : M unit :=
  r <- read rendered ;;
  match r with
  | None => ret tt
  | Some state =>
      match assoc sender (ScanState.grouped state) with
      | None => ret tt
      | Some group =>
          match nth_error (Group.emails group) index with
          | None => ret tt
          | Some e =>
              let state' :=
                set_emails sender group
                  (keep_at index (Group.emails group)) state in
              update (with_rendered (Some state')) ;;;
              localStorage_setItem_LAST state' ;;;
              render_page state'
          end
      end
  end.

(** ** The Scan button (app.js 399-405) *)

(** [String(e.message || e)].  The message of an error thrown by the
    engine or by [fetch] is the engine's own; [engine] supplies it. *)
Definition error_text (engine : exn -> string) (e : exn) : string :=
  match e with
  | Error m => if is_empty m then "Error" else m
  | _ => engine e
  end.

Definition btnScan (engine : exn -> string) (w : World) : M unit :=
  try_catch (scan w) (fun e => setStatus (error_text engine e)).

(** ** Further notions used in the statements *)

(** The requests of the three mailbox operations and of a
    classification. *)
Definition list_request (settings : Settings.t) (tok : string) : request :=
  GmailRequest "GET" "messages"
    ([("maxResults", Number_toString (Settings.maxMessages settings))] ++
     (if is_empty (trim (Settings.query settings)) then []
      else [("q", trim (Settings.query settings))]))
    tok.

Definition meta_request (tok : string) (id : string) : request :=
  GmailRequest "GET" ("messages/" ++ id)
    [ ("format", "metadata"); ("metadataHeaders", "From");
      ("metadataHeaders", "To"); ("metadataHeaders", "Subject");
      ("metadataHeaders", "Date") ]
    tok.

Definition trash_request (tok : string) (id : string) : request :=
  GmailRequest "POST" ("messages/" ++ id ++ "/trash") [] tok.

Definition groq_request (settings : Settings.t) (batch : list Email.t)
    : request :=
  GroqRequest (Settings.groqKey settings) (groq_body settings batch).

(** The page holds a usable access token [tok]. *)
Definition connected (tok : string) (p : Page) : Prop :=
  accessToken p = Some tok /\ is_empty tok = false.

(** [!accessToken]. *)
Definition disconnected (p : Page) : Prop :=
  accessToken p = None \/ accessToken p = Some EmptyString.

(** The slices that a loop [for (i = start; i < l.length; i += step)]
    takes with [l.slice(i, i + step)], in [fuel] turns at most. *)
Fixpoint cuts {A} (step : number) (fuel : nat) (i : number) (l : list A)
    : list (list A) :=
  match fuel with
  | O => []
  | S fuel' =>
      if Number_lessThan i (of_nat (length l))
      then Array_slice i (Number_add i step) l
           :: cuts step fuel' (Number_add i step) l
      else []
  end.

(** A list cut into consecutive pieces of [size] elements, the last one
    possibly shorter. *)
Fixpoint batches_fuel {A} (fuel size : nat) (l : list A) : list (list A) :=
  match fuel with
  | O => []
  | S fuel' =>
      match l with
      | [] => []
      | _ :: _ => firstn size l :: batches_fuel fuel' size (skipn size l)
      end
  end.

Definition batches {A} (size : nat) (l : list A) : list (list A) :=
  batches_fuel (length l) size l.

(** What the settings form holds, as [saveSettings] reads it. *)
Definition settings_of_form (f : Form.t) : Settings.t :=
  Settings.mk (trim (Form.googleClientId f)) (trim (Form.groqKey f))
    (Form.groqModel f) (number_or (Form.batchSize f) (Fin 10 0))
    (number_or (Form.maxMessages f) (Fin 50 0)) (trim (Form.query f)).

(** The state object behind the rows on the page is the stored one. *)
Definition in_sync (p : Page) : Prop :=
  forall s, rendered p = Some s -> LS_LAST p = Some s.

(** The list without its element at [index]. *)
Fixpoint remove_at {A} (index : nat) (l : list A) : list A :=
  match l, index with
  | [], _ => []
  | _ :: rest, O => rest
  | a :: rest, S n => a :: remove_at n rest
  end.

(** Is [c] one of [<], [>] and the double quote, the characters that
    open and close tags and attribute values? *)
Definition is_markup (c : ascii) : bool :=
  Ascii.eqb c "<" || Ascii.eqb c ">" || (nat_of_ascii c =? 34)%nat.

Fixpoint contains (f : ascii -> bool) (s : string) : bool :=
  match s with
  | EmptyString => false
  | String c r => f c || contains f r
  end.

(** [x] stands before an occurrence of [y] in [l]. *)
Fixpoint precedes {A} (x y : A) (l : list A) : Prop :=
  match l with
  | [] => False
  | a :: rest => (a = x /\ In y rest) \/ precedes x y rest
  end.

(** The sample header of a group is the From header of its first
    email. *)
Definition sample_is_first (g : Group.t) : Prop :=
  match Group.emails g with
  | e :: _ => Group.fromHeaderSample g = Email.from e
  | [] => False
  end.

(** The number of rows of a section that wear the pill class [c]. *)
Definition pill_count (c : string) (s : SectionView) : Z :=
  length_Z (filter (fun r => String.eqb (row_pillClass r) c) (sec_rows s)).

(** The rows of a section agree with its counts. *)
Definition pills_match_counts (s : SectionView) : Prop :=
  length_Z (sec_rows s) = sec_total s /\
  pill_count "keep" s = sec_keep s /\
  pill_count "trash" s = sec_trash s /\
  pill_count "review" s = sec_review s.

(** The exception of [gmailFetch] when no token is held. *)
Definition not_connected : exn :=
  Error "Not connected to Gmail yet. Tap Connect Gmail first.".

(** A page that holds no access token. *)
Definition signed_out (p : Page) : Page :=
  Build_Page None (form p) (LS_KEY p) (LS_LAST p) (status p) (rendered p)
    (results p) (summary p) (requests p) (console p) (alerts p).

(** The page when [scan_begin] has run: settings stored, status set,
    results and summary cleared. *)
Definition began (p : Page) : Page :=
  with_rendered None
    (with_results []
       (with_summary None
          (with_status ("Scanning…" ++ nl ++ "(1) listing messages" ++ nl
                        ++ "(2) reading headers/snippets" ++ nl
                        ++ "(3) calling Groq…")
             (with_status "Saved ✅"
                (with_LS_KEY
                   (Some (JSON_stringify_settings
                            (settings_of_form (form p)))) p))))).

(** Lines 214-224: the three remote steps, the settings being known. *)
Definition collect_rest (w : World) (settings : Settings.t)
    : M (Settings.t * list Email.t) :=
  ids <- listMessageIds w (Settings.query settings)
           (Settings.maxMessages settings) ;;
  metas <- for_each (getMessageMeta w) ids ;;
  labeled <- classify_all w settings metas ;;
  ret (settings, labeled).

(** A request that bears credentials: a mailbox request the token [tok]
    held by the page, a classification request a key that is not empty. *)
Definition credentialed (tok : option string) (r : request) : Prop :=
  match r with
  | GmailRequest _ _ _ bearer => tok = Some bearer /\ is_empty bearer = false
  | GroqRequest key _ => is_empty key = false
  end.

(** From [p] to [p'] the settings document, the form and the token stay,
    and every request sent bears credentials. *)
Definition keeps_credentials (p p' : Page) : Prop :=
  LS_KEY p' = LS_KEY p /\ form p' = form p /\
  accessToken p' = accessToken p /\
  exists sent, requests p' = (requests p ++ sent)%list
               /\ Forall (credentialed (accessToken p)) sent.

(** An email as [getMessageMeta] builds it. *)
Definition fresh_meta (e : Email.t) : Prop :=
  Email.sender e = normalizeSender (Some (Email.from e)) /\
  Email.decision e = VUndefined /\ Email._trashed e = false.

Module TwoBatches.
(** Three messages of one sender, a batch size of two, and a classifier
    that decides nothing. *)
Definition inbox : list (string * MessageData) :=
  map (fun id => (id, {| headers := [("From", "Shop <deals@shop.example>")];
                         msg_snippet := Some "..." |}))
      ["m1"; "m2"; "m3"].

Definition world : World := Sample.world inbox [] None.

Definition page : Page :=
  {| accessToken := Some "ya29.token";
     form := Form.mk "client-id" " gsk_key " "llama-3.1-8b-instant"
               (Some (Fin 2 0)) None " category:promotions ";
     LS_KEY := None; LS_LAST := None; status := ""; rendered := None;
     results := []; summary := None; requests := []; console := [];
     alerts := [] |}.
End TwoBatches.

(** What becomes of a call of [trashMessage] by the answer of the
    endpoint: [None] when the call returns (a success status and a JSON
    body), else the exception it throws. *)
Definition trash_outcome (answer : fetched unit) : option exn :=
  match answer with
  | Rejected => Some NetworkError
  | Response true _ _ (Some _) => None
  | Response true _ _ None => Some SyntaxError
  | Response false st txt _ =>
      Some (Error ("Gmail API error " ++ string_of_nat st ++ ": " ++ txt))
  end.

(** The outcomes of the trash calls for [ids], made one after the other
    with the token [tok], the first when the requests [log] have been
    sent. *)
Fixpoint trash_outcomes (w : World) (tok : string) (log : list request)
    (ids : list string) : list (option exn) :=
  match ids with
  | [] => []
  | id :: rest =>
      trash_outcome (trash_service w log (trash_request tok id))
      :: trash_outcomes w tok (log ++ [trash_request tok id])%list rest
  end.

(** How many calls returned, and the exceptions of the others in the
    order of the calls. *)
Definition returned (outcomes : list (option exn)) : nat :=
  length (filter (fun o => match o with None => true | Some _ => false end)
                 outcomes).

Definition thrown (outcomes : list (option exn)) : list exn :=
  flat_map (fun o => match o with Some e => [e] | None => [] end) outcomes.

(** Line 299, email by email: suggested for the trash and not yet
    flagged. *)
Definition trash_suggested (e : Email.t) : bool :=
  match action_is "trash" e with
  | Ok true => negb (Email._trashed e)
  | _ => false
  end.

(** The question of the bulk trash for [n] emails of [sender]. *)
Definition bulk_question (n : nat) (sender : string) : string :=
  "Trash " ++ string_of_nat n ++ " emails from " ++ sender
  ++ "? (Moves to Trash)".

Module Fractional.
(** Seven messages of one sender and a batch size of 2.5. *)
Definition inbox : list (string * MessageData) :=
  map (fun id => (id, {| headers := [("From", "Shop <deals@shop.example>")];
                         msg_snippet := Some "..." |}))
      ["m1"; "m2"; "m3"; "m4"; "m5"; "m6"; "m7"].

Definition world : World := Sample.world inbox [] None.

Definition page : Page :=
  {| accessToken := Some "ya29.token";
     form := Form.mk "client-id" "gsk_key" "llama-3.1-8b-instant"
               (Some (Fin 5 (-1))) (Some (Fin 9007199254740993 0)) "";
     LS_KEY := None; LS_LAST := None; status := ""; rendered := None;
     results := []; summary := None; requests := []; console := [];
     alerts := [] |}.
End Fractional.

Module TwoAnswers.
(** A completion that decides [m1] twice, differently, and [m3] once. *)
Definition first : value :=
  VObj [("id", VStr "m1"); ("action", VStr "keep")].
Definition second : value :=
  VObj [("id", VStr "m1"); ("action", VStr "trash")].
Definition other : value :=
  VObj [("id", VStr "m3"); ("action", VStr "keep")].

Definition content : option json_text :=
  Some (Json (VObj [("decisions", VArr [first; second; other])])).

Definition world : World := Sample.world [] [] content.
End TwoAnswers.

(** The exception of lines 201-203 for a completion content, if they
    throw: [JSON.parse] on a text that is not JSON, [parsed.decisions] on
    [null], [d.id] on an entry that is [null]. *)
Definition decode_failure (c : option json_text) : option exn :=
  match content_or_default c with
  | NotJson _ => Some SyntaxError
  | Json parsed =>
      if is_nullish parsed then Some TypeError
      else match get_opt parsed "decisions" with
           | VArr ds => if existsb is_nullish ds then Some TypeError else None
           | _ => None
           end
  end.

(** * Properties *)

(** ** Sender normalization *)

Module SenderFacts.

Ltac each_char c :=
  destruct c as [[] [] [] [] [] [] [] []]; vm_compute; try reflexivity.

Lemma is_ws_lower c : is_ws (lower_char c) = is_ws c.
Proof. each_char c. Qed.

Lemma lower_char_idem c : lower_char (lower_char c) = lower_char c.
Proof. each_char c. Qed.

Lemma lower_char_gt c : Ascii.eqb (lower_char c) ">" = Ascii.eqb c ">".
Proof. each_char c. Qed.

Lemma lower_char_lt c : Ascii.eqb (lower_char c) "<" = Ascii.eqb c "<".
Proof. each_char c. Qed.

Lemma ws_not_lt c : is_ws c = true -> Ascii.eqb c "<" = false.
Proof. each_char c; intros H; discriminate H. Qed.

Lemma ws_not_gt c : is_ws c = true -> Ascii.eqb c ">" = false.
Proof. each_char c; intros H; discriminate H. Qed.

Lemma toLowerCase_idem s : toLowerCase (toLowerCase s) = toLowerCase s.
Proof.
  induction s as [|c r IH]; simpl; [reflexivity|].
  now rewrite lower_char_idem, IH.
Qed.

Lemma toLowerCase_empty s : toLowerCase s = "" -> s = "".
Proof. destruct s; simpl; [reflexivity | discriminate]. Qed.

Lemma trimStart_lower s : trimStart (toLowerCase s) = toLowerCase (trimStart s).
Proof.
  induction s as [|c r IH]; simpl; [reflexivity|].
  rewrite is_ws_lower. destruct (is_ws c); [exact IH | reflexivity].
Qed.

Lemma trimEnd_lower s : trimEnd (toLowerCase s) = toLowerCase (trimEnd s).
Proof.
  induction s as [|c r IH]; simpl; [reflexivity|].
  rewrite IH, is_ws_lower.
  destruct (trimEnd r); simpl; [destruct (is_ws c)|]; reflexivity.
Qed.

Lemma trim_lower s : trim (toLowerCase s) = toLowerCase (trim s).
Proof. unfold trim. now rewrite trimStart_lower, trimEnd_lower. Qed.

Lemma trimStart_head_kept s : head_kept (trimStart s).
Proof.
  induction s as [|c r IH]; simpl; [exact I|].
  destruct (is_ws c) eqn:E; [exact IH | exact E].
Qed.

Lemma trimStart_fixed s : head_kept s -> trimStart s = s.
Proof. destruct s as [|c r]; simpl; [reflexivity|]. now intros ->. Qed.

Lemma trimEnd_head_kept s : head_kept s -> head_kept (trimEnd s).
Proof.
  destruct s as [|c r]; simpl; [trivial|]. intros H.
  destruct (trimEnd r); [rewrite H|]; exact H.
Qed.

Lemma trimEnd_idem s : trimEnd (trimEnd s) = trimEnd s.
Proof.
  induction s as [|c r IH]; simpl; [reflexivity|].
  destruct (trimEnd r) as [|c' r'] eqn:E.
  - destruct (is_ws c) eqn:W; simpl; [reflexivity | now rewrite W].
  - change (trimEnd (String c (String c' r')) = String c (String c' r')).
    cbn [trimEnd] in IH |- *. now rewrite IH.
Qed.

Lemma trim_idem s : trim (trim s) = trim s.
Proof.
  unfold trim.
  rewrite (trimStart_fixed _ (trimEnd_head_kept _ (trimStart_head_kept s))).
  apply trimEnd_idem.
Qed.


Lemma span_run_no_gt s : has_gt (fst (span_not_gt s)) = false.
Proof.
  induction s as [|c r IH]; simpl; [reflexivity|].
  destruct (Ascii.eqb c ">") eqn:E; simpl; [reflexivity|].
  destruct (span_not_gt r) as [run tail]; simpl in *. now rewrite E.
Qed.

Lemma span_no_gt s : has_gt s = false -> span_not_gt s = (s, "").
Proof.
  induction s as [|c r IH]; simpl; [reflexivity|].
  intros H. apply orb_false_iff in H as [E H].
  now rewrite E, (IH H).
Qed.

Lemma span_with_gt s :
  has_gt s = true -> exists c t, snd (span_not_gt s) = String c t.
Proof.
  induction s as [|c r IH]; simpl; [discriminate|].
  destruct (Ascii.eqb c ">") eqn:E; simpl.
  - intros _. now exists c, r.
  - intros H. destruct (IH H) as (c' & t & Ht).
    destruct (span_not_gt r) as [run tail]; simpl in *. now exists c', t.
Qed.

Lemma span_app p q :
  has_gt p = true ->
  span_not_gt (p ++ q) = (fst (span_not_gt p), snd (span_not_gt p) ++ q).
Proof.
  induction p as [|c r IH]; simpl; [discriminate|].
  destruct (Ascii.eqb c ">") eqn:E; simpl; [reflexivity|].
  intros H. rewrite (IH H).
  now destruct (span_not_gt r) as [run tail].
Qed.

Lemma match_angle_no_gt s : has_gt s = false -> match_angle s = None.
Proof.
  induction s as [|c r IH]; simpl; [reflexivity|].
  intros H. apply orb_false_iff in H as [_ H].
  rewrite (span_no_gt _ H), (IH H).
  destruct (Ascii.eqb c "<"); [destruct r|]; reflexivity.
Qed.

Lemma match_angle_capture s m : match_angle s = Some m -> has_gt m = false.
Proof.
  induction s as [|c r IH]; simpl; [discriminate|].
  destruct (Ascii.eqb c "<"); [|exact IH].
  pose proof (span_run_no_gt r) as G.
  destruct (span_not_gt r) as [[|a run] [|b tail]]; try exact IH.
  intros [= <-]. exact G.
Qed.

Lemma has_gt_lower s : has_gt (toLowerCase s) = has_gt s.
Proof.
  induction s as [|c r IH]; simpl; [reflexivity|].
  now rewrite lower_char_gt, IH.
Qed.

Lemma has_gt_trimStart s : has_gt s = false -> has_gt (trimStart s) = false.
Proof.
  induction s as [|c r IH]; simpl; [reflexivity|].
  intros H. destruct (is_ws c); [|exact H].
  apply orb_false_iff in H as [_ H]. exact (IH H).
Qed.

Lemma has_gt_trimEnd s : has_gt s = false -> has_gt (trimEnd s) = false.
Proof.
  induction s as [|c r IH]; simpl; [reflexivity|].
  intros H. apply orb_false_iff in H as [E H]. specialize (IH H).
  destruct (trimEnd r); [destruct (is_ws c)|]; simpl in *;
    rewrite ?E, ?IH; reflexivity.
Qed.

Lemma span_lower s :
  span_not_gt (toLowerCase s) =
  (toLowerCase (fst (span_not_gt s)), toLowerCase (snd (span_not_gt s))).
Proof.
  induction s as [|c r IH]; simpl; [reflexivity|].
  rewrite lower_char_gt. destruct (Ascii.eqb c ">"); simpl; [reflexivity|].
  rewrite IH. now destruct (span_not_gt r).
Qed.

Lemma match_angle_lower s :
  match_angle (toLowerCase s) = option_map toLowerCase (match_angle s).
Proof.
  induction s as [|c r IH]; simpl; [reflexivity|].
  rewrite lower_char_lt, span_lower, IH.
  destruct (Ascii.eqb c "<"); [|reflexivity].
  now destruct (span_not_gt r) as [[|a run] [|b tail]].
Qed.

Lemma match_angle_trimStart s : match_angle (trimStart s) = match_angle s.
Proof.
  induction s as [|c r IH]; simpl; [reflexivity|].
  destruct (is_ws c) eqn:W; [|reflexivity].
  now rewrite (ws_not_lt _ W).
Qed.

(** No match in a string, no match in a prefix of it. *)
Lemma match_angle_prefix p q :
  match_angle (p ++ q) = None -> match_angle p = None.
Proof.
  induction p as [|c r IH]; simpl; [reflexivity|].
  destruct (Ascii.eqb c "<"); [|exact IH].
  destruct (has_gt r) eqn:G.
  - rewrite (span_app _ q G).
    destruct (span_with_gt _ G) as (c' & t & Ht).
    destruct (span_not_gt r) as [run tail]; simpl in *. subst tail.
    destruct run; simpl; [exact IH | discriminate].
  - rewrite (span_no_gt _ G). intros H.
    assert (match_angle r = None) as ->; [|now destruct r].
    apply IH.
    destruct (span_not_gt (r ++ q)) as [[|a run] [|b tail]];
      try exact H; discriminate.
Qed.

Lemma trimEnd_prefix s : exists w, s = trimEnd s ++ w.
Proof.
  induction s as [|c r [w IH]]; simpl; [now exists ""|].
  destruct (trimEnd r) eqn:E.
  - destruct (is_ws c).
    + now exists (String c r).
    + exists w. simpl in *. now rewrite <- IH.
  - exists w. simpl in *. now rewrite <- IH.
Qed.

Lemma match_angle_trim s :
  match_angle s = None -> match_angle (trim s) = None.
Proof.
  intros H. unfold trim.
  destruct (trimEnd_prefix (trimStart s)) as [w Hw].
  apply (match_angle_prefix _ w). rewrite <- Hw.
  now rewrite match_angle_trimStart.
Qed.

Lemma normalizeSender_fixed r :
  match_angle r = None -> toLowerCase (trim r) = r -> r <> "" ->
  normalizeSender (Some r) = r.
Proof.
  intros Hm Hr Hne. unfold normalizeSender. simpl. rewrite Hm, Hr.
  destruct r; [contradiction | reflexivity].
Qed.

Lemma lower_trim_idem s :
  toLowerCase (trim (toLowerCase (trim s))) = toLowerCase (trim s).
Proof. now rewrite trim_lower, trim_idem, toLowerCase_idem. Qed.

End SenderFacts.
Import SenderFacts.

(** The sentinel for a header that is empty or absent. *)
Lemma normalizeSender_empty_header :
  normalizeSender (Some "") = "(unknown)" /\ normalizeSender None = "(unknown)".
Proof. split; reflexivity. Qed.

(** The only way to an empty sender: an angle-bracket part that holds
    nothing but white space. *)
Lemma normalizeSender_empty_inv h :
  normalizeSender h = "" ->
  exists m, match_angle (or_empty h) = Some m /\ trim m = "".
Proof.
  unfold normalizeSender.
  destruct (match_angle (or_empty h)) as [m|].
  - intros H. exists m. split; [reflexivity|]. now apply toLowerCase_empty.
  - unfold or_else.
    destruct (toLowerCase (trim (or_empty h))); simpl; discriminate.
Qed.

(** Wherever the result is not empty, normalizing it again changes
    nothing. *)
Lemma normalizeSender_idempotent_nonempty h :
  normalizeSender h <> "" ->
  normalizeSender (Some (normalizeSender h)) = normalizeSender h.
Proof.
  intros Hne. remember (normalizeSender h) as r eqn:Hr.
  unfold normalizeSender in Hr.
  destruct (match_angle (or_empty h)) as [m|] eqn:Hm.
  - subst r. apply normalizeSender_fixed; [|apply lower_trim_idem|exact Hne].
    apply match_angle_no_gt. rewrite has_gt_lower.
    apply has_gt_trimEnd, has_gt_trimStart.
    exact (match_angle_capture _ _ Hm).
  - unfold or_else in Hr.
    destruct (toLowerCase (trim (or_empty h))) as [|c t] eqn:E;
      cbn [is_empty] in Hr; subst r; [reflexivity|].
    rewrite <- E.
    apply normalizeSender_fixed; [|apply lower_trim_idem|].
    + rewrite match_angle_lower, (match_angle_trim _ Hm). reflexivity.
    + rewrite E. discriminate.
Qed.

(** C5 (code defect).  [normalizeSender] is a total function and maps an
    empty or absent header to the sentinel, but it is not idempotent: an
    address part of white space only, as in the header [< >], is trimmed
    to the empty string by the branch of line 48, which lacks the
    fallback of line 49; normalizing that empty string again yields
    ["(unknown)"]. *)
Theorem normalizeSender_blank_address_not_idempotent :
  normalizeSender (Some "< >") = "" /\
  normalizeSender (Some (normalizeSender (Some "< >"))) = "(unknown)" /\
  normalizeSender (Some (normalizeSender (Some "< >")))
    <> normalizeSender (Some "< >").
Proof. repeat split. vm_compute. discriminate. Qed.

(** ** Arithmetic of doubles *)

Section Doubles.
Local Open Scope Z_scope.

Lemma pow2_pos k : 0 < 2 ^ Z.max k 0.
Proof. apply Z.pow_pos_nonneg; lia. Qed.

Lemma pow2_split a b : 0 <= a -> 0 <= b -> 2 ^ (a + b) = 2 ^ a * 2 ^ b.
Proof. intros. now apply Z.pow_add_r. Qed.

(** The exponent that [round_ratio] settles on is that of the binary
    logarithm of the ratio. *)
Lemma binary_log_below num den :
  0 < num -> 0 < den ->
  den * 2 ^ Z.max (binary_log num den) 0
  <= num * 2 ^ Z.max (- binary_log num den) 0.
Proof.
  intros Hn Hd. unfold binary_log. set (l0 := Z.log2 num - Z.log2 den).
  destruct (den * 2 ^ Z.max l0 0 <=? num * 2 ^ Z.max (- l0) 0) eqn:T.
  - now apply Z.leb_le in T.
  - clear T.
    destruct (Z.log2_spec num Hn) as [Ha _].
    destruct (Z.log2_spec den Hd) as [_ Hb].
    pose proof (Z.log2_nonneg num) as Pa.
    pose proof (Z.log2_nonneg den) as Pb.
    set (a := Z.log2 num) in *. set (b := Z.log2 den) in *.
    replace (Z.succ b) with (b + 1) in Hb by lia.
    subst l0. destruct (Z_le_gt_dec 0 (a - b - 1)) as [C|C].
    + rewrite (Z.max_l (a - b - 1)), (Z.max_r (- (a - b - 1))) by lia.
      rewrite Z.pow_0_r, Z.mul_1_r.
      assert (2 ^ (b + 1) * 2 ^ (a - b - 1) = 2 ^ a) as E
          by (rewrite <- pow2_split by lia; f_equal; lia).
      assert (0 < 2 ^ (a - b - 1)) by (apply Z.pow_pos_nonneg; lia).
      nia.
    + rewrite (Z.max_r (a - b - 1)), (Z.max_l (- (a - b - 1))) by lia.
      rewrite Z.pow_0_r, Z.mul_1_r.
      assert (2 ^ a * 2 ^ (- (a - b - 1)) = 2 ^ (b + 1)) as E
          by (rewrite <- pow2_split by lia; f_equal; lia).
      assert (0 < 2 ^ (- (a - b - 1))) by (apply Z.pow_pos_nonneg; lia).
      nia.
Qed.

(** Rounding never falls below an integer of at most 53 bits that the
    ratio reaches. *)
Lemma round_ratio_lower num den n :
  0 < den -> 0 < n <= 2 ^ 53 -> n * den <= num ->
  match round_ratio num den with
  | None => True
  | Some (q, E) => 0 < q /\ n * 2 ^ Z.max (- E) 0 <= q * 2 ^ Z.max E 0
  end.
Proof.
  intros Hd Hn Hle. assert (0 < num) as Hnum by nia.
  pose proof (binary_log_below num den Hnum Hd) as HL.
  unfold round_ratio. set (l := binary_log num den) in *.
  set (E := Z.max (l - 52) (-1074)).
  set (N := num * 2 ^ Z.max (- E) 0). set (D := den * 2 ^ Z.max E 0).
  set (q := N / D).
  set (q' := if (D <? 2 * (N mod D)) || ((2 * (N mod D) =? D) && Z.odd q)
             then q + 1 else q).
  assert (q <= q') as Hq by (subst q'; destruct (_ || _); lia).
  destruct (1024 <? Z.log2 q' + 1 + E); [exact I|].
  pose proof (pow2_pos E) as P1. pose proof (pow2_pos (- E)) as P2.
  assert (0 < D) as HD by (subst D; nia).
  destruct (Z_le_gt_dec E 0) as [C|C].
  - assert (n * 2 ^ Z.max (- E) 0 <= q) as Hlow.
    { subst q. apply Z.div_le_lower_bound; [exact HD|].
      subst D N. rewrite (Z.max_r E 0) by lia.
      rewrite Z.pow_0_r. nia. }
    rewrite (Z.max_r E 0), Z.pow_0_r by lia. nia.
  - assert (E = l - 52) as HE by (subst E; lia).
    assert (2 ^ 52 <= q) as Hlow.
    { subst q. apply Z.div_le_lower_bound; [exact HD|].
      subst D N. rewrite (Z.max_r (- E) 0), Z.pow_0_r by lia.
      rewrite (Z.max_l E 0) by lia.
      rewrite (Z.max_l l 0), (Z.max_r (- l) 0), Z.pow_0_r in HL by lia.
      replace l with (52 + E) in HL by lia.
      rewrite pow2_split in HL by lia. nia. }
    rewrite (Z.max_r (- E) 0), Z.pow_0_r, (Z.max_l E 0) by lia.
    assert (2 <= 2 ^ E).
    { replace E with (1 + (E - 1)) by lia. rewrite pow2_split by lia.
      assert (0 < 2 ^ (E - 1)) by (apply Z.pow_pos_nonneg; lia).
      change (2 ^ 1) with 2. nia. }
    change (2 ^ 53) with (2 ^ 52 * 2) in Hn.
    assert (0 < 2 ^ 52) by reflexivity. nia.
Qed.

(** An integer below [2^53] is a double: rounding it changes
    nothing. *)
Lemma round_ratio_exact z den :
  0 < den -> 0 < z < 2 ^ 53 ->
  exists E, E <= 0 /\ round_ratio (z * den) den = Some (z * 2 ^ (- E), E).
Proof.
  intros Hd Hz. assert (0 < z * den) as Hnum by nia.
  pose proof (binary_log_below (z * den) den Hnum Hd) as HL.
  unfold round_ratio. set (l := binary_log (z * den) den) in *.
  set (E := Z.max (l - 52) (-1074)).
  assert (l < 53) as Hl.
  { destruct (Z_lt_ge_dec l 53) as [C|C]; [exact C|exfalso].
    rewrite (Z.max_l l 0), (Z.max_r (- l) 0), Z.pow_0_r in HL by lia.
    assert (2 ^ 53 <= 2 ^ l) by (apply Z.pow_le_mono_r; lia). nia. }
  assert (E <= 0) as HE by (subst E; lia).
  exists E. split; [exact HE|].
  rewrite (Z.max_l (- E) 0), (Z.max_r E 0), Z.pow_0_r, Z.mul_1_r by lia.
  assert (0 < 2 ^ (- E)) as P by (apply Z.pow_pos_nonneg; lia).
  replace (z * den * 2 ^ (- E)) with (z * 2 ^ (- E) * den) by ring.
  rewrite Z.div_mul, Z.mod_mul by lia.
  replace (den <? 2 * 0) with false by (symmetry; apply Z.ltb_ge; lia).
  replace (2 * 0 =? den) with false by (symmetry; apply Z.eqb_neq; lia).
  cbn [orb andb].
  assert (Z.log2 (z * 2 ^ (- E)) = Z.log2 z - E) as ->.
  { rewrite Z.log2_mul_pow2 by lia. lia. }
  assert (Z.log2 z < 53) by (apply Z.log2_lt_pow2; lia).
  replace (1024 <? Z.log2 z - E + 1 + E) with false
    by (symmetry; apply Z.ltb_ge; lia).
  reflexivity.
Qed.

End Doubles.

Section DoubleSums.
Local Open Scope Z_scope.

Lemma at_least_rescale m e' e n :
  e <= e' -> at_least (Fin m e') n ->
  at_least (Fin (m * 2 ^ (e' - e)) e) n.
Proof.
  intros He. unfold at_least.
  assert (0 < 2 ^ (e' - e)) as P by (apply Z.pow_pos_nonneg; lia).
  destruct (Z_le_gt_dec 0 e) as [C|C].
  - rewrite (Z.max_r (- e) 0), (Z.max_l e 0), (Z.max_r (- e') 0),
      (Z.max_l e' 0) by lia.
    intros H. rewrite <- Z.mul_assoc, <- pow2_split by lia.
    now replace (e' - e + e) with e' by lia.
  - rewrite (Z.max_l (- e) 0), (Z.max_r e 0), Z.pow_0_r, Z.mul_1_r by lia.
    destruct (Z_le_gt_dec 0 e') as [C'|C'].
    + rewrite (Z.max_r (- e') 0), (Z.max_l e' 0), Z.pow_0_r, Z.mul_1_r by lia.
      intros H. replace (e' - e) with (e' + - e) by lia.
      rewrite pow2_split by lia.
      assert (0 < 2 ^ (- e)) by (apply Z.pow_pos_nonneg; lia). nia.
    + rewrite (Z.max_l (- e') 0), (Z.max_r e' 0), Z.pow_0_r, Z.mul_1_r by lia.
      intros H. replace (- e) with (- e' + (e' - e)) by lia.
      rewrite pow2_split by lia. nia.
Qed.

Lemma is_integer_rescale m e' e z :
  e <= e' -> is_integer (Fin m e') z ->
  is_integer (Fin (m * 2 ^ (e' - e)) e) z.
Proof.
  intros He. unfold is_integer.
  assert (0 < 2 ^ (e' - e)) as P by (apply Z.pow_pos_nonneg; lia).
  destruct (Z_le_gt_dec 0 e) as [C|C].
  - rewrite (Z.max_r (- e) 0), (Z.max_l e 0), (Z.max_r (- e') 0),
      (Z.max_l e' 0) by lia.
    intros H. rewrite <- Z.mul_assoc, <- pow2_split by lia.
    now replace (e' - e + e) with e' by lia.
  - rewrite (Z.max_l (- e) 0), (Z.max_r e 0), Z.pow_0_r, Z.mul_1_r by lia.
    destruct (Z_le_gt_dec 0 e') as [C'|C'].
    + rewrite (Z.max_r (- e') 0), (Z.max_l e' 0), Z.pow_0_r, Z.mul_1_r by lia.
      intros H. replace (e' - e) with (e' + - e) by lia.
      rewrite pow2_split by lia. nia.
    + rewrite (Z.max_l (- e') 0), (Z.max_r e' 0), Z.pow_0_r, Z.mul_1_r by lia.
      intros H. replace (- e) with (- e' + (e' - e)) by lia.
      rewrite pow2_split by lia. nia.
Qed.

Lemma to_double_at_least m e n :
  0 < n <= 2 ^ 53 -> at_least (Fin m e) n -> at_least (to_double (Fin m e)) n.
Proof.
  intros Hn H. unfold at_least in H.
  pose proof (pow2_pos e) as P1. pose proof (pow2_pos (- e)) as P2.
  assert (0 < m) as Hm by nia.
  unfold to_double, of_ratio.
  replace (m <? 0) with false by (symmetry; apply Z.ltb_ge; lia).
  rewrite Z.abs_eq by lia.
  replace (m * 2 ^ Z.max e 0 =? 0) with false
    by (symmetry; apply Z.eqb_neq; nia).
  pose proof (round_ratio_lower (m * 2 ^ Z.max e 0) (2 ^ Z.max (- e) 0) n
                P2 Hn H) as R.
  destruct (round_ratio _ _) as [[q E]|]; [|exact I].
  destruct R as [Hq R].
  replace (q =? 0) with false by (symmetry; apply Z.eqb_neq; lia).
  exact R.
Qed.

Lemma to_double_integer m e z :
  0 < z < 2 ^ 53 -> is_integer (Fin m e) z ->
  is_integer (to_double (Fin m e)) z.
Proof.
  intros Hz H. unfold is_integer in H.
  pose proof (pow2_pos e) as P1. pose proof (pow2_pos (- e)) as P2.
  assert (0 < m) as Hm by nia.
  unfold to_double, of_ratio.
  replace (m <? 0) with false by (symmetry; apply Z.ltb_ge; lia).
  rewrite Z.abs_eq by lia.
  replace (m * 2 ^ Z.max e 0 =? 0) with false
    by (symmetry; apply Z.eqb_neq; nia).
  rewrite H.
  destruct (round_ratio_exact z (2 ^ Z.max (- e) 0) P2 Hz) as (E & HE & ->).
  assert (0 < 2 ^ (- E)) by (apply Z.pow_pos_nonneg; lia).
  replace (z * 2 ^ (- E) =? 0) with false
    by (symmetry; apply Z.eqb_neq; nia).
  unfold is_integer.
  now rewrite (Z.max_r E 0), (Z.max_l (- E) 0), Z.pow_0_r, Z.mul_1_r by lia.
Qed.

Lemma at_least_sum m1 e1 m2 e2 a b :
  at_least (Fin m1 e1) a -> at_least (Fin m2 e2) b ->
  at_least (Fin (m1 * 2 ^ (e1 - Z.min e1 e2) + m2 * 2 ^ (e2 - Z.min e1 e2))
                (Z.min e1 e2)) (a + b).
Proof.
  intros H1 H2.
  apply (at_least_rescale _ _ (Z.min e1 e2)) in H1; [|lia].
  apply (at_least_rescale _ _ (Z.min e1 e2)) in H2; [|lia].
  unfold at_least in *. lia.
Qed.

Lemma is_integer_sum m1 e1 m2 e2 a b :
  is_integer (Fin m1 e1) a -> is_integer (Fin m2 e2) b ->
  is_integer (Fin (m1 * 2 ^ (e1 - Z.min e1 e2) + m2 * 2 ^ (e2 - Z.min e1 e2))
                  (Z.min e1 e2)) (a + b).
Proof.
  intros H1 H2.
  apply (is_integer_rescale _ _ (Z.min e1 e2)) in H1; [|lia].
  apply (is_integer_rescale _ _ (Z.min e1 e2)) in H2; [|lia].
  unfold is_integer in *. lia.
Qed.

(** A sum is at least the sum of two integers that its terms reach. *)
Lemma Number_add_at_least x y a b :
  at_least x a -> at_least y b -> 0 <= a -> 0 <= b -> 0 < a + b <= 2 ^ 53 ->
  at_least (Number_add x y) (a + b).
Proof.
  intros Hx Hy Ha Hb Hs.
  destruct x as [| | | |m1 e1]; try contradiction;
    destruct y as [| | | |m2 e2]; try contradiction; try exact I;
    cbn [Number_add].
  - cbn in Hx, Hy. lia.
  - cbn in Hx. replace (a + b) with b by lia.
    apply to_double_at_least; [lia|exact Hy].
  - cbn in Hy. replace (a + b) with a by lia.
    apply to_double_at_least; [lia|exact Hx].
  - apply to_double_at_least; [lia|]. now apply at_least_sum.
Qed.

(** The sum of two integers is exact below [2^53]. *)
Lemma Number_add_integer x y a b :
  is_integer x a -> is_integer y b -> 0 <= a -> 0 <= b -> 0 < a + b < 2 ^ 53 ->
  is_integer (Number_add x y) (a + b).
Proof.
  intros Hx Hy Ha Hb Hs.
  destruct x as [| | | |m1 e1]; try contradiction;
    destruct y as [| | | |m2 e2]; try contradiction;
    cbn [Number_add].
  - cbn in Hx, Hy. lia.
  - cbn in Hx. replace (a + b) with b by lia.
    apply to_double_integer; [lia|exact Hy].
  - cbn in Hy. replace (a + b) with a by lia.
    apply to_double_integer; [lia|exact Hx].
  - apply to_double_integer; [lia|]. now apply is_integer_sum.
Qed.

Lemma is_integer_at_least x z : is_integer x z -> at_least x z.
Proof.
  destruct x; cbn; try contradiction; lia.
Qed.

(** *** Comparison with a length, and indices *)

Lemma lessThan_length m e len :
  Number_lessThan (Fin m e) (of_nat len) = true <->
  m * 2 ^ Z.max e 0 < Z.of_nat len * 2 ^ Z.max (- e) 0.
Proof.
  unfold Number_lessThan, of_nat, Number_compare, mantissa_exponent.
  destruct (Z_le_gt_dec 0 e) as [C|C].
  - rewrite (Z.min_r e 0), (Z.max_l e 0), (Z.max_r (- e) 0) by lia.
    replace (e - 0) with e by lia. replace (0 - 0) with 0 by lia.
    destruct (_ ?= _) eqn:K; rewrite ?Z.compare_lt_iff in K;
      rewrite ?Z.compare_eq_iff in K; rewrite ?Z.compare_gt_iff in K;
      split; intros H; try discriminate; try reflexivity; lia.
  - rewrite (Z.min_l e 0), (Z.max_r e 0), (Z.max_l (- e) 0) by lia.
    replace (e - e) with 0 by lia. replace (0 - e) with (- e) by lia.
    destruct (_ ?= _) eqn:K; rewrite ?Z.compare_lt_iff in K;
      rewrite ?Z.compare_eq_iff in K; rewrite ?Z.compare_gt_iff in K;
      split; intros H; try discriminate; try reflexivity; lia.
Qed.

Lemma integer_part_fin m e :
  0 <= m ->
  integer_part (Fin m e)
  = m * 2 ^ Z.max e 0 / 2 ^ Z.max (- e) 0.
Proof.
  intros Hm. unfold integer_part, ToIntegerOrInfinity.
  destruct (0 <=? e) eqn:C.
  - apply Z.leb_le in C.
    rewrite (Z.max_l e 0), (Z.max_r (- e) 0), Z.pow_0_r, Z.div_1_r by lia.
    reflexivity.
  - apply Z.leb_gt in C.
    rewrite (Z.max_r e 0), (Z.max_l (- e) 0), Z.pow_0_r, Z.mul_1_r by lia.
    apply Z.quot_div_nonneg; [exact Hm|].
    apply Z.pow_pos_nonneg; lia.
Qed.

(** What a number that reaches [k >= 0] is as an index. *)
Lemma at_least_index x k len :
  at_least x k -> 0 <= k -> x <> PosInf ->
  k <= integer_part x /\ at_least x (integer_part x) /\
  relative_index x len
  = Z.to_nat (Z.min (integer_part x) (Z.of_nat len)).
Proof.
  intros H Hk Hx. destruct x as [| | | |m e]; try contradiction.
  - cbn in *. repeat split; try lia.
  - clear Hx. unfold at_least in H.
    pose proof (pow2_pos e) as P1. pose proof (pow2_pos (- e)) as P2.
    assert (0 <= m) as Hm by nia.
    pose proof (integer_part_fin m e Hm) as T.
    assert (k <= integer_part (Fin m e)) as Hlow.
    { rewrite T. apply Z.div_le_lower_bound; [exact P2|]. lia. }
    split; [exact Hlow|]. split.
    + unfold at_least. rewrite T.
      pose proof (Z.mul_div_le (m * 2 ^ Z.max e 0) (2 ^ Z.max (- e) 0) P2).
      lia.
    + clear T. unfold relative_index.
      unfold integer_part in Hlow |- *. cbn [ToIntegerOrInfinity] in *.
      set (t := if 0 <=? e then m * 2 ^ e else Z.quot m (2 ^ (- e))) in *.
      destruct (t <? 0) eqn:C; [|reflexivity].
      apply Z.ltb_lt in C. lia.
Qed.

(** A number that reaches 0 and is below a length has its integer part
    below it. *)
Lemma below_length x len :
  at_least x 0 -> Number_lessThan x (of_nat len) = true ->
  x <> PosInf /\ integer_part x < Z.of_nat len.
Proof.
  intros H L. destruct x as [| | | |m e]; try contradiction;
    try discriminate.
  - split; [discriminate|].
    unfold Number_lessThan, Number_compare, of_nat, mantissa_exponent in L.
    cbn in L. destruct (Z.of_nat len) eqn:E; try discriminate.
    cbn. lia.
  - split; [discriminate|]. unfold at_least in H.
    pose proof (pow2_pos e) as P1. pose proof (pow2_pos (- e)) as P2.
    assert (0 <= m) as Hm by nia.
    rewrite (integer_part_fin m e Hm).
    apply lessThan_length in L.
    apply Z.div_lt_upper_bound; [exact P2|]. lia.
Qed.

(** A number that reaches 0 and is not below a length is the end of the
    array as an index. *)
Lemma beyond_length x len :
  at_least x 0 -> Number_lessThan x (of_nat len) = false ->
  relative_index x len = len.
Proof.
  intros H L. destruct x as [| | | |m e]; try contradiction.
  - reflexivity.
  - unfold Number_lessThan, Number_compare, of_nat, mantissa_exponent in L.
    cbn in L. unfold relative_index. cbn.
    destruct (Z.of_nat len) eqn:E; cbn in L; try discriminate; lia.
  - destruct (at_least_index (Fin m e) 0 len H) as (_ & _ & ->);
      [lia|discriminate|].
    unfold at_least in H.
    pose proof (pow2_pos e) as P1. pose proof (pow2_pos (- e)) as P2.
    assert (0 <= m) as Hm by nia.
    rewrite (integer_part_fin m e Hm).
    assert (~ m * 2 ^ Z.max e 0 < Z.of_nat len * 2 ^ Z.max (- e) 0) as N.
    { intros C. apply lessThan_length in C. congruence. }
    assert (Z.of_nat len <= m * 2 ^ Z.max e 0 / 2 ^ Z.max (- e) 0)
      by (apply Z.div_le_lower_bound; [exact P2|lia]).
    lia.
Qed.

(** One turn of the batching loop moves the index forward. *)
Lemma index_advances x b len k :
  at_least x k -> 0 <= k -> at_least b 1 -> Z.of_nat len <= 2 ^ 53 ->
  Number_lessThan x (of_nat len) = true ->
  k < Z.of_nat len /\
  at_least (Number_add x b) (k + 1) /\
  (relative_index x len < relative_index (Number_add x b) len <= len)%nat.
Proof.
  intros Hx Hk Hb Hlen L.
  assert (at_least x 0) as H0.
  { destruct x; try contradiction; cbn in *; lia. }
  destruct (below_length x len H0 L) as [Hfin Hlt].
  destruct (at_least_index x k len Hx Hk Hfin) as (Hlow & Hself & Hidx).
  split; [lia|].
  split; [apply Number_add_at_least; (assumption || lia)|].
  assert (at_least (Number_add x b) (integer_part x + 1)) as Hnext
      by (apply Number_add_at_least; (assumption || lia)).
  rewrite Hidx.
  destruct (Number_add x b) as [| | | |m e] eqn:S; try contradiction.
  - unfold relative_index. cbn. lia.
  - cbn in Hnext. lia.
  - destruct (at_least_index (Fin m e) (integer_part x + 1) len Hnext)
      as (Hl & _ & ->); [lia|discriminate|]. lia.
Qed.

(** An integer as an index, and against a length. *)
Lemma integer_index x z len :
  is_integer x z -> 0 <= z ->
  relative_index x len = Z.to_nat (Z.min z (Z.of_nat len)) /\
  Number_lessThan x (of_nat len) = (z <? Z.of_nat len).
Proof.
  intros H Hz. destruct x as [| | | |m e]; try contradiction.
  - cbn in H. subst z. split; [reflexivity|].
    unfold Number_lessThan, Number_compare, of_nat, mantissa_exponent. cbn.
    destruct (Z.of_nat len) eqn:E; cbn; try reflexivity; lia.
  - unfold is_integer in H.
    pose proof (pow2_pos e) as P1. pose proof (pow2_pos (- e)) as P2.
    assert (0 <= m) as Hm by nia.
    assert (integer_part (Fin m e) = z) as T.
    { rewrite (integer_part_fin m e Hm), H. apply Z.div_mul. lia. }
    split.
    + destruct (at_least_index (Fin m e) z len) as (_ & _ & ->);
        [unfold at_least; lia | exact Hz | discriminate |].
      now rewrite T.
    + destruct (z <? Z.of_nat len) eqn:C.
      * apply Z.ltb_lt in C. apply lessThan_length. nia.
      * apply Z.ltb_ge in C.
        destruct (Number_lessThan (Fin m e) (of_nat len)) eqn:L;
          [|reflexivity].
        apply lessThan_length in L. nia.
Qed.

End DoubleSums.

(** ** Classification client *)

Lemma groqClassifyBatch_unfold w settings emails p :
  is_empty (Settings.groqKey settings) = false ->
  groqClassifyBatch w settings emails p =
  (match classify_response w settings emails p with
   | Rejected => Throw NetworkError
   | Response ok st txt json =>
       if ok then
         match json with
         | Some data => merge_decisions (content data) emails
         | None => Throw SyntaxError
         end
       else Throw (Error ("Groq API error " ++ string_of_nat st ++ ": " ++ txt))
   end,
   classify_sent settings emails p).
Proof.
  intros K. unfold groqClassifyBatch, classify_response, classify_sent.
  rewrite K. unfold bind, send, throw, lift.
  destruct (groq_service w _ _) as [|[] st txt [data|]]; reflexivity.
Qed.

Lemma groqClassifyBatch_no_key w settings emails p :
  is_empty (Settings.groqKey settings) = true ->
  groqClassifyBatch w settings emails p =
  (Throw (Error "Missing Groq API key."), p).
Proof. intros K. unfold groqClassifyBatch. now rewrite K. Qed.

(** A call that returns has received a success response whose content
    was merged. *)
Lemma groqClassifyBatch_ok_inv w settings emails p out p' :
  groqClassifyBatch w settings emails p = (Ok out, p') ->
  exists st txt data,
    classify_response w settings emails p = Response true st txt (Some data)
    /\ merge_decisions (content data) emails = Ok out
    /\ p' = classify_sent settings emails p.
Proof.
  destruct (is_empty (Settings.groqKey settings)) eqn:K.
  - rewrite (groqClassifyBatch_no_key _ _ _ _ K). discriminate.
  - rewrite (groqClassifyBatch_unfold _ _ _ _ K).
    destruct (classify_response w settings emails p)
      as [|[] st txt [data|]] eqn:R; try discriminate.
    intros [= H <-]. exists st, txt, data. auto.
Qed.

Lemma merge_decisions_ok_inv c emails out :
  merge_decisions c emails = Ok out ->
  exists decisions byId,
    decisions_in c = Ok decisions /\ entries_of decisions = Ok byId /\
    out = map (fun e => Email.with_decision (decision_for byId e) e) emails.
Proof.
  unfold merge_decisions, decisions_in.
  destruct (JSON_parse (content_or_default c)) as [parsed|]; simpl;
    [|discriminate].
  destruct (decisions_of parsed) as [decisions|]; simpl; [|discriminate].
  destruct (entries_of decisions) as [byId|] eqn:E; simpl; [|discriminate].
  intros [= <-]. exists decisions, byId. auto.
Qed.

Lemma with_decision_id d e : Email.id (Email.with_decision d e) = Email.id e.
Proof. reflexivity. Qed.

Lemma merge_decisions_ids c emails out :
  merge_decisions c emails = Ok out ->
  map Email.id out = map Email.id emails.
Proof.
  intros H. apply merge_decisions_ok_inv in H as (ds & byId & _ & _ & ->).
  rewrite map_map. reflexivity.
Qed.

Lemma groqClassifyBatch_ids w settings emails p out p' :
  groqClassifyBatch w settings emails p = (Ok out, p') ->
  map Email.id out = map Email.id emails.
Proof.
  intros H.
  apply groqClassifyBatch_ok_inv in H as (st & txt & data & _ & Hm & _).
  now apply merge_decisions_ids in Hm.
Qed.

(** C4.  Whatever the remote service answers, a classification call that
    returns hands back as many emails as it was given, with the same ids
    in the same order. *)
Theorem classifyBatch_keeps_ids_in_order w settings emails p out p' :
  groqClassifyBatch w settings emails p = (Ok out, p') ->
  length out = length emails /\ map Email.id out = map Email.id emails.
Proof.
  intros H. apply groqClassifyBatch_ids in H as Hid.
  split; [|exact Hid].
  rewrite <- (length_map Email.id out), Hid. apply length_map.
Qed.

Lemma classifyBatch_keeps_ids_in_order_witness :
  exists out p',
    groqClassifyBatch (Sample.world [] [] Sample.shuffled) Sample.settings0
      [Sample.m1; Sample.m2; Sample.m3] Sample.page0 = (Ok out, p') /\
    length out = 3%nat /\ map Email.id out = ["m1"; "m2"; "m3"] /\
    map (fun e => get_opt (Email.decision e) "action") out =
      [VStr "trash"; VStr "review"; VStr "keep"].
Proof.
  eexists. eexists. split; [vm_compute; reflexivity|].
  pose proof (classifyBatch_keeps_ids_in_order
                (Sample.world [] [] Sample.shuffled) Sample.settings0
                [Sample.m1; Sample.m2; Sample.m3] Sample.page0) as H.
  specialize (H _ _ eq_refl). destruct H as [Hl Hi].
  split; [exact Hl|]. split; [exact Hi|]. vm_compute. reflexivity.
Defined.

(** ** Frame reasoning for the monad *)

Section Frame.

Variable R : Page -> Page -> Prop.
Hypothesis R_refl : forall p, R p p.
Hypothesis R_trans : forall p q r, R p q -> R q r -> R p r.

Lemma respects_ret A (a : A) : respects R (ret a).
Proof. intros p r p' [= _ <-]. apply R_refl. Qed.

Lemma respects_throw A (e : exn) : respects R (@throw A e).
Proof. intros p r p' [= _ <-]. apply R_refl. Qed.

Lemma respects_lift A (x : result A) : respects R (lift x).
Proof. intros p r p' [= _ <-]. apply R_refl. Qed.

Lemma respects_read A (f : Page -> A) : respects R (read f).
Proof. intros p r p' [= _ <-]. apply R_refl. Qed.

Lemma respects_update (f : Page -> Page) :
  (forall p, R p (f p)) -> respects R (update f).
Proof. intros H p r p' [= _ <-]. apply H. Qed.

Lemma respects_bind A B (m : M A) (f : A -> M B) :
  respects R m -> (forall a, respects R (f a)) -> respects R (bind m f).
Proof.
  intros Hm Hf p r p'. unfold bind.
  destruct (m p) as [[a|e] q] eqn:E; intros H.
  - eapply R_trans; [eapply Hm, E | eapply Hf, H].
  - injection H as _ <-. eapply Hm, E.
Qed.

Lemma respects_try_catch A (m : M A) (h : exn -> M A) :
  respects R m -> (forall e, respects R (h e)) -> respects R (try_catch m h).
Proof.
  intros Hm Hh p r p'. unfold try_catch.
  destruct (m p) as [[a|e] q] eqn:E; intros H.
  - injection H as _ <-. eapply Hm, E.
  - eapply R_trans; [eapply Hm, E | eapply Hh, H].
Qed.

Lemma respects_for_each A B (f : A -> M B) (l : list A) :
  (forall a, respects R (f a)) -> respects R (for_each f l).
Proof.
  intros Hf. induction l as [|a l IH]; simpl.
  - apply respects_ret.
  - apply respects_bind; [apply Hf|]. intros b.
    apply respects_bind; [exact IH|]. intros bs. apply respects_ret.
Qed.

End Frame.

(** Breaks a computation into its monadic steps. *)
Ltac frame_steps refl trans :=
  repeat first
    [ apply (respects_ret _ refl)
    | apply (respects_throw _ refl)
    | apply (respects_lift _ refl)
    | apply (respects_read _ refl)
    | apply (respects_bind _ trans); [|intros ?]
    | apply (respects_try_catch _ trans); [|intros ?]
    | apply (respects_for_each _ refl trans); intros ? ].

(** ** What the network operations do to the page *)

Lemma respects_weaken (R1 R2 : Page -> Page -> Prop) A (m : M A) :
  (forall p p', R1 p p' -> R2 p p') -> respects R1 m -> respects R2 m.
Proof. intros H Hm p r p' E. eapply H, Hm, E. Qed.

Lemma sends_refl P p : sends P p p.
Proof.
  exists []. split; [|constructor].
  rewrite app_nil_r. now destruct p.
Qed.

Lemma sends_trans P p q r : sends P p q -> sends P q r -> sends P p r.
Proof.
  intros (s1 & -> & H1) (s2 & -> & H2). exists (s1 ++ s2)%list. split.
  - destruct p; cbn. now rewrite app_assoc.
  - apply Forall_app. now split.
Qed.

Lemma sends_one (P : request -> Prop) p req :
  P req -> sends P p (with_requests (requests p ++ [req]) p).
Proof. intros H. exists [req]. split; [reflexivity | now constructor]. Qed.

Lemma sends_same_snapshot P p p' : sends P p p' -> same_snapshot p p'.
Proof. intros (s & -> & _). now split. Qed.

Lemma sends_same_last_scan P p p' : sends P p p' -> same_last_scan p p'.
Proof. intros (s & -> & _). reflexivity. Qed.

Lemma sends_metadata_only p p' :
  sends metadata_only p p' -> sent_metadata_only p p'.
Proof. intros (s & -> & H). now exists s. Qed.

Lemma send_sends (P : request -> Prop) A
    (service : list request -> request -> fetched A) req :
  P req -> respects (sends P) (send service req).
Proof. intros H p r p' [= _ <-]. now apply sends_one. Qed.

Lemma gmailFetch_sends (P : request -> Prop) A
    (service : list request -> request -> fetched A) method path params :
  (forall tok, P (GmailRequest method path params tok)) ->
  respects (sends P) (gmailFetch service method path params).
Proof.
  intros H. unfold gmailFetch.
  apply (respects_bind _ (@sends_trans P)); [apply (respects_read _ (sends_refl P))|].
  intros [t|]; [|apply (respects_throw _ (sends_refl P))].
  destruct (is_empty t); [apply (respects_throw _ (sends_refl P))|].
  apply (respects_bind _ (@sends_trans P)); [apply send_sends, H|].
  intros [|[] st txt [data|]];
    first [apply (respects_throw _ (sends_refl P)) | apply (respects_ret _ (sends_refl P))].
Qed.

Lemma listMessageIds_sends w query maxResults :
  respects (sends metadata_only) (listMessageIds w query maxResults).
Proof.
  unfold listMessageIds.
  apply (respects_bind _ (@sends_trans _)).
  - apply gmailFetch_sends. intros tok. split; [reflexivity|]. left.
    split; [reflexivity|]. cbn [app]. constructor; [now left|].
    destruct (is_empty (trim query)); constructor; [now right|constructor].
  - intros data. apply (respects_ret _ (sends_refl _)).
Qed.

Lemma getMessageMeta_sends w id :
  respects (sends metadata_only) (getMessageMeta w id).
Proof.
  unfold getMessageMeta.
  apply (respects_bind _ (@sends_trans _)).
  - apply gmailFetch_sends. intros tok. split; [reflexivity|]. right.
    split; [now exists id | reflexivity].
  - intros data. apply (respects_ret _ (sends_refl _)).
Qed.

Lemma trashMessage_sends w id :
  respects (sends any_request) (trashMessage w id).
Proof.
  unfold trashMessage.
  apply (respects_bind _ (@sends_trans _)).
  - apply gmailFetch_sends. intros tok. exact I.
  - intros data. apply (respects_ret _ (sends_refl _)).
Qed.

Lemma groqClassifyBatch_sends w settings emails :
  respects (sends metadata_only) (groqClassifyBatch w settings emails).
Proof.
  intros p r p' H.
  destruct (is_empty (Settings.groqKey settings)) eqn:K.
  - rewrite (groqClassifyBatch_no_key _ _ _ _ K) in H.
    injection H as _ <-. apply sends_refl.
  - rewrite (groqClassifyBatch_unfold _ _ _ _ K) in H.
    injection H as _ <-. apply sends_one. simpl. now exists emails.
Qed.

(** ** Frame conditions of the scan pipeline *)

Section ScanFrame.

Variable R : Page -> Page -> Prop.
Hypothesis R_refl : forall p, R p p.
Hypothesis R_trans : forall p q r, R p q -> R q r -> R p r.
(** [R] admits metadata requests and any page update that leaves the
    last-scan document and the request log alone. *)
Hypothesis R_sends : forall p p', sends metadata_only p p' -> R p p'.
Hypothesis R_update :
  forall (f : Page -> Page),
    (forall p, LS_LAST (f p) = LS_LAST p /\ requests (f p) = requests p) ->
    forall p, R p (f p).

Lemma setStatus_respects text : respects R (setStatus text).
Proof. apply respects_update. apply R_update. now intros []. Qed.

Lemma saveSettings_respects : respects R saveSettings.
Proof.
  unfold saveSettings. frame_steps R_refl R_trans;
    apply respects_update; apply R_update; now intros [].
Qed.

Lemma scan_begin_respects : respects R scan_begin.
Proof.
  unfold scan_begin. frame_steps R_refl R_trans;
    apply respects_update; apply R_update; now intros [].
Qed.

Lemma classify_from_respects w settings metas batchSize fuel :
  forall i labeled,
    respects R (classify_from w settings metas batchSize fuel i labeled).
Proof.
  induction fuel as [|fuel IH]; intros i labeled; simpl.
  - apply (respects_ret _ R_refl).
  - destruct (Number_lessThan i _); [|apply (respects_ret _ R_refl)].
    apply (respects_bind _ R_trans).
    + eapply respects_weaken; [exact R_sends|apply groqClassifyBatch_sends].
    + intros out. apply (respects_bind _ R_trans);
        [apply setStatus_respects | intros _; apply IH].
Qed.

Lemma scan_collect_respects w : respects R (scan_collect w).
Proof.
  unfold scan_collect, classify_all.
  apply (respects_bind _ R_trans); [apply scan_begin_respects|].
  intros settings. apply (respects_bind _ R_trans).
  { eapply respects_weaken; [exact R_sends|apply listMessageIds_sends]. }
  intros ids. apply (respects_bind _ R_trans).
  { apply (respects_for_each _ R_refl R_trans). intros id.
    eapply respects_weaken; [exact R_sends|apply getMessageMeta_sends]. }
  intros metas. apply (respects_bind _ R_trans).
  { apply classify_from_respects. }
  intros labeled. apply (respects_ret _ R_refl).
Qed.

End ScanFrame.

Lemma same_last_scan_refl p : same_last_scan p p.
Proof. reflexivity. Qed.

Lemma same_last_scan_trans p q r :
  same_last_scan p q -> same_last_scan q r -> same_last_scan p r.
Proof. unfold same_last_scan. congruence. Qed.

Lemma sent_metadata_only_refl p : sent_metadata_only p p.
Proof. exists []. split; [now rewrite app_nil_r | constructor]. Qed.

Lemma sent_metadata_only_trans p q r :
  sent_metadata_only p q -> sent_metadata_only q r -> sent_metadata_only p r.
Proof.
  intros (s1 & E1 & H1) (s2 & E2 & H2). exists (s1 ++ s2)%list. split.
  - now rewrite E2, E1, app_assoc.
  - apply Forall_app. now split.
Qed.

Lemma sent_metadata_only_update (f : Page -> Page) :
  (forall p, requests (f p) = requests p) ->
  forall p, sent_metadata_only p (f p).
Proof.
  intros H p. exists []. split; [now rewrite app_nil_r, H | constructor].
Qed.

(** The first four steps of a scan never touch the last-scan document. *)
Lemma scan_collect_same_last_scan w : respects same_last_scan (scan_collect w).
Proof.
  apply scan_collect_respects.
  - exact same_last_scan_refl.
  - exact same_last_scan_trans.
  - exact (sends_same_last_scan metadata_only).
  - intros f H p. apply H.
Qed.

Lemma scan_collect_metadata_only w :
  respects sent_metadata_only (scan_collect w).
Proof.
  apply scan_collect_respects.
  - exact sent_metadata_only_refl.
  - exact sent_metadata_only_trans.
  - exact sends_metadata_only.
  - intros f H p. apply sent_metadata_only_update. intros q. apply H.
Qed.

Lemma scan_finish_metadata_only w settings labeled :
  respects sent_metadata_only (scan_finish w settings labeled).
Proof.
  unfold scan_finish, render_page, localStorage_setItem_LAST, setStatus.
  frame_steps sent_metadata_only_refl sent_metadata_only_trans;
    apply respects_update; apply sent_metadata_only_update; now intros [].
Qed.

(** Everything a scan sends is a listing, a metadata read or a
    classification built by [payload]. *)
Lemma scan_metadata_only w : respects sent_metadata_only (scan w).
Proof.
  unfold scan. apply (respects_bind _ sent_metadata_only_trans).
  - apply scan_collect_metadata_only.
  - intros r. apply scan_finish_metadata_only.
Qed.

(** ** Decoding the completion *)

Lemma entries_of_lookup decisions :
  forall byId k d,
    entries_of decisions = Ok byId -> Map_get byId k = Some d ->
    In d decisions /\ get_opt d "id" = VStr k.
Proof.
  induction decisions as [|d0 ds IH]; intros byId k d.
  - intros [= <-]. discriminate.
  - unfold entries_of. cbn [result_map].
    destruct (get d0 "id") as [k0|] eqn:G; cbn [result_bind]; [|discriminate].
    fold (entries_of ds).
    destruct (entries_of ds) as [rest|] eqn:E; cbn [result_bind];
      [|discriminate].
    intros [= <-]. cbn [Map_get].
    destruct (Map_get rest k) as [d'|] eqn:L.
    + intros [= <-]. destruct (IH _ _ _ eq_refl L). split; [now right|assumption].
    + destruct k0 as [| | | |s| |]; try discriminate.
      destruct (String.eqb s k) eqn:S; [|discriminate].
      intros [= <-]. apply String.eqb_eq in S. subst s. split; [now left|].
      destruct d0; try discriminate; now injection G.
Qed.

Lemma decision_for_absent decisions byId e :
  entries_of decisions = Ok byId ->
  (forall d, In d decisions -> get_opt d "id" <> VStr (Email.id e)) ->
  decision_for byId e = no_decision (Email.id e).
Proof.
  intros E H. unfold decision_for.
  destruct (Map_get byId (Email.id e)) as [d|] eqn:L; [|reflexivity].
  destruct (entries_of_lookup _ _ _ _ E L) as [Hin Hid].
  now destruct (H d Hin).
Qed.

Lemma merge_without_decisions c emails :
  lacks_decisions c = true -> merge_decisions c emails = Ok (all_defaulted emails).
Proof.
  unfold lacks_decisions, merge_decisions.
  destruct (content_or_default c) as [raw|v]; [discriminate|].
  intros H. apply andb_true_iff in H as [Hn Ha].
  cbn [JSON_parse result_bind]. unfold decisions_of.
  assert (get v "decisions" = Ok (get_opt v "decisions")) as ->
      by (destruct v; try reflexivity; discriminate).
  cbn [result_bind].
  destruct (get_opt v "decisions"); try discriminate; reflexivity.
Qed.

Lemma merge_malformed c emails :
  malformed c = true -> merge_decisions c emails = Throw SyntaxError.
Proof.
  unfold malformed, merge_decisions.
  destruct (content_or_default c); [reflexivity | discriminate].
Qed.

(** C2 (amended).  On a success response whose content is absent or
    empty, or is JSON for a value other than [null] without an array under
    [decisions], the call returns every input email with the fallback
    decision; on a content that is not JSON the call throws the parser's
    [SyntaxError]. *)
Theorem classifyBatch_without_decisions w settings emails p st txt data :
  is_empty (Settings.groqKey settings) = false ->
  classify_response w settings emails p = Response true st txt (Some data) ->
  (lacks_decisions (content data) = true ->
   groqClassifyBatch w settings emails p =
   (Ok (all_defaulted emails), classify_sent settings emails p)) /\
  (malformed (content data) = true ->
   groqClassifyBatch w settings emails p =
   (Throw SyntaxError, classify_sent settings emails p)).
Proof.
  intros K Hr. rewrite (groqClassifyBatch_unfold _ _ _ _ K), Hr.
  split; intros H.
  - now rewrite merge_without_decisions.
  - now rewrite merge_malformed.
Qed.

Lemma classifyBatch_without_decisions_witness :
  groqClassifyBatch (Sample.world [] [] None) Sample.settings0
    [Sample.m1; Sample.m2] Sample.page0 =
  (Ok (all_defaulted [Sample.m1; Sample.m2]),
   classify_sent Sample.settings0 [Sample.m1; Sample.m2] Sample.page0) /\
  groqClassifyBatch (Sample.world [] [] Relabeled.chatty) Sample.settings0
    [Sample.m1; Sample.m2] Sample.page0 =
  (Throw SyntaxError,
   classify_sent Sample.settings0 [Sample.m1; Sample.m2] Sample.page0).
Proof.
  split.
  - apply (classifyBatch_without_decisions (Sample.world [] [] None)
             Sample.settings0 [Sample.m1; Sample.m2] Sample.page0
             200 "" {| content := None |});
      reflexivity.
  - apply (classifyBatch_without_decisions (Sample.world [] [] Relabeled.chatty)
             Sample.settings0 [Sample.m1; Sample.m2] Sample.page0
             200 "" {| content := Relabeled.chatty |});
      reflexivity.
Defined.

(** C2 (counterexample).  The completion content is a sentence, not JSON:
    the call throws instead of returning defaulted emails. *)
Lemma classifyBatch_throws_on_malformed_content :
  fst (groqClassifyBatch (Sample.world [] [] Relabeled.chatty) Sample.settings0
         [Sample.m1; Sample.m2] Sample.page0) = Throw SyntaxError /\
  fst (groqClassifyBatch (Sample.world [] [] Relabeled.chatty) Sample.settings0
         [Sample.m1; Sample.m2] Sample.page0)
    <> Ok (all_defaulted [Sample.m1; Sample.m2]).
Proof. split; [reflexivity | discriminate]. Qed.

(** C3 (amended).  An input email whose id no entry of the response's
    [decisions] array carries gets exactly the fallback of line 205:
    [{id: <its id>, action: "review", category: "other", summary: "",
    reason: "No decision."}]. *)
Theorem absent_id_gets_fallback w settings emails p out p' ok st txt data
    decisions i e :
  groqClassifyBatch w settings emails p = (Ok out, p') ->
  classify_response w settings emails p = Response ok st txt (Some data) ->
  decisions_in (content data) = Ok decisions ->
  nth_error emails i = Some e ->
  (forall d, In d decisions -> get_opt d "id" <> VStr (Email.id e)) ->
  nth_error out i = Some (Email.with_decision (no_decision (Email.id e)) e)
  /\ no_decision (Email.id e) =
     VObj [ ("id", VStr (Email.id e)); ("action", VStr "review");
            ("category", VStr "other"); ("summary", VStr "");
            ("reason", VStr "No decision.") ].
Proof.
  intros H Hr Hd He Habs. split; [|reflexivity].
  apply groqClassifyBatch_ok_inv in H as (st' & txt' & data' & Hr' & Hm & _).
  rewrite Hr in Hr'. injection Hr' as _ _ _ <-.
  apply merge_decisions_ok_inv in Hm as (ds & byId & Hd' & E & ->).
  rewrite Hd in Hd'. injection Hd' as <-.
  rewrite nth_error_map, He. cbn [option_map].
  now rewrite (decision_for_absent _ _ _ E Habs).
Qed.

Lemma absent_id_gets_fallback_witness :
  nth_error
    (match fst (groqClassifyBatch (Sample.world [] [] Sample.shuffled)
                  Sample.settings0 [Sample.m1; Sample.m2; Sample.m3]
                  Sample.page0) with
     | Ok out => out
     | Throw _ => []
     end) 1
  = Some (Email.with_decision (no_decision "m2") Sample.m2).
Proof.
  refine (proj1 (absent_id_gets_fallback
            (Sample.world [] [] Sample.shuffled) Sample.settings0
            [Sample.m1; Sample.m2; Sample.m3] Sample.page0
            _ _ true 200 "" {| content := Sample.shuffled |}
            [ VObj [("id", VStr "m3"); ("action", VStr "keep")];
              VObj [("id", VStr "zz"); ("action", VStr "trash")];
              VObj [("id", VStr "m1"); ("action", VStr "trash")] ]
            1 Sample.m2 eq_refl eq_refl eq_refl eq_refl _)).
  intros d [<-|[<-|[<-|[]]]]; discriminate.
Defined.

(** C3 (counterexample).  The response decides [m1] and [m3] only; the
    decision attached to [m2] is not the object of the specification: it
    also has an [id], and its reason is spelled ["No decision."]. *)
Lemma fallback_is_not_the_specified_object :
  map Email.decision
    (match fst (groqClassifyBatch (Sample.world [] [] Sample.shuffled)
                  Sample.settings0 [Sample.m1; Sample.m2; Sample.m3]
                  Sample.page0) with
     | Ok out => out
     | Throw _ => []
     end)
  = [ VObj [("id", VStr "m1"); ("action", VStr "trash")];
      no_decision "m2";
      VObj [("id", VStr "m3"); ("action", VStr "keep")] ] /\
  no_decision "m2" <> spec_no_decision /\
  get_opt (no_decision "m2") "reason" = VStr "No decision." /\
  get_opt spec_no_decision "reason" = VStr "no decision".
Proof. repeat split. discriminate. Qed.

(** ** What leaves the page *)

Lemma same_metadata_payload a b : same_metadata a b -> payload a = payload b.
Proof.
  intros (H1 & H2 & H3 & H4 & H5 & H6). unfold payload. congruence.
Qed.

Lemma same_metadata_payloads l1 l2 :
  Forall2 same_metadata l1 l2 -> map payload l1 = map payload l2.
Proof.
  induction 1 as [|a b l1 l2 Hab _ IH]; [reflexivity|].
  simpl. now rewrite (same_metadata_payload _ _ Hab), IH.
Qed.

Lemma groqClassifyBatch_requests w settings emails p :
  requests (snd (groqClassifyBatch w settings emails p)) =
  if is_empty (Settings.groqKey settings) then requests p
  else (requests p ++
        [GroqRequest (Settings.groqKey settings) (groq_body settings emails)])%list.
Proof.
  destruct (is_empty (Settings.groqKey settings)) eqn:K.
  - now rewrite (groqClassifyBatch_no_key _ _ _ _ K).
  - now rewrite (groqClassifyBatch_unfold _ _ _ _ K).
Qed.

(** C8.  The object sent for an email holds its [id], [from], [to],
    [subject], [date] and [snippet], each with the value the email has,
    and no other property; the user message of a batch is the object
    with the one property [emails] that lists these objects; batches
    that agree on the six fields email by email produce the same
    payloads, the same request body and the same request, whatever their
    senders, decisions or trashed flags; and every request of a scan is
    the listing, the read of a message with [format=metadata] and the
    headers From, To, Subject and Date, or such a classification
    request, so no message body is fetched or sent. *)
Theorem payload_is_metadata_only w settings l1 l2 p :
  Forall2 same_metadata l1 l2 ->
  Forall (fun e =>
            payload e =
            VObj [ ("id", VStr (Email.id e)); ("from", VStr (Email.from e));
                   ("to", VStr (Email.to e));
                   ("subject", VStr (Email.subject e));
                   ("date", VStr (Email.date e));
                   ("snippet", VStr (Email.snippet e)) ]) l1 /\
  user_content (groq_body settings l1)
    = VObj [("emails", VArr (map payload l1))] /\
  map payload l1 = map payload l2 /\
  groq_body settings l1 = groq_body settings l2 /\
  requests (snd (groqClassifyBatch w settings l1 p)) =
    (if is_empty (Settings.groqKey settings) then requests p
     else (requests p ++
           [GroqRequest (Settings.groqKey settings)
                        (groq_body settings l1)])%list) /\
  requests (snd (groqClassifyBatch w settings l1 p)) =
  requests (snd (groqClassifyBatch w settings l2 p)) /\
  sent_metadata_only p (snd (scan w p)).
Proof.
  intros H. pose proof (same_metadata_payloads _ _ H) as Hp.
  assert (groq_body settings l1 = groq_body settings l2) as Hb
      by (unfold groq_body; now rewrite Hp).
  split; [|split; [|split; [|split; [|split; [|split]]]]].
  - apply Forall_forall. intros e _. reflexivity.
  - reflexivity.
  - exact Hp.
  - exact Hb.
  - apply groqClassifyBatch_requests.
  - rewrite !groqClassifyBatch_requests, Hb. reflexivity.
  - destruct (scan w p) as [r p'] eqn:E. exact (scan_metadata_only w _ _ _ E).
Qed.

Lemma payload_is_metadata_only_witness :
  same_metadata Relabeled.m1_labeled Sample.m1 /\
  payload Relabeled.m1_labeled
  = VObj [ ("id", VStr "m1"); ("from", VStr "Shop <deals@shop.example>");
           ("to", VStr "me@example.com"); ("subject", VStr "Sale");
           ("date", VStr "Mon, 1 Apr 2024"); ("snippet", VStr "...") ] /\
  payload Relabeled.m1_labeled = payload Sample.m1 /\
  requests (snd (groqClassifyBatch (Sample.world [] [] None) Sample.settings0
                   [Relabeled.m1_labeled] Sample.page0)) =
  requests (snd (groqClassifyBatch (Sample.world [] [] None) Sample.settings0
                   [Sample.m1] Sample.page0)) /\
  Forall metadata_only
         (requests (snd (scan BulkTrash.world Sample.page0))).
Proof.
  assert (same_metadata Relabeled.m1_labeled Sample.m1) as H
      by (repeat split; reflexivity).
  split; [exact H|].
  destruct (payload_is_metadata_only BulkTrash.world
              Sample.settings0 [Relabeled.m1_labeled] [Sample.m1] Sample.page0
              (Forall2_cons _ _ H (Forall2_nil _)))
    as (Hf & _ & Hp & _ & _ & _ & sent & Hs & Hm).
  destruct (payload_is_metadata_only (Sample.world [] [] None)
              Sample.settings0 [Relabeled.m1_labeled] [Sample.m1] Sample.page0
              (Forall2_cons _ _ H (Forall2_nil _)))
    as (_ & _ & _ & _ & _ & Hr & _).
  split; [exact (Forall_inv Hf)|].
  split; [exact (f_equal (hd VNull) Hp)|].
  split; [exact Hr|].
  rewrite Hs. exact Hm.
Defined.

(** ** Sorting and the keys of an object *)

Section Sorting.

Variable A : Type.
Variable le : A -> A -> bool.
Hypothesis le_total : forall a b, le a b = true \/ le b a = true.
Hypothesis le_trans :
  forall a b c, le a b = true -> le b c = true -> le a c = true.

Lemma insert_by_perm x l : Permutation (insert_by le x l) (x :: l).
Proof.
  induction l as [|y l IH]; simpl; [reflexivity|].
  destruct (le x y); [reflexivity|].
  rewrite IH. apply perm_swap.
Qed.

Lemma sort_by_perm l : Permutation (sort_by le l) l.
Proof.
  induction l as [|x l IH]; simpl; [reflexivity|].
  rewrite insert_by_perm. now constructor.
Qed.

Lemma insert_by_sorted x l :
  StronglySorted (fun a b => le a b = true) l ->
  StronglySorted (fun a b => le a b = true) (insert_by le x l).
Proof.
  induction 1 as [|y l Hs IH Hy]; simpl.
  - repeat constructor.
  - destruct (le x y) eqn:E.
    + constructor; [now constructor|].
      constructor; [exact E|].
      eapply Forall_impl; [|exact Hy]. intros z Hz. exact (le_trans _ _ _ E Hz).
    + constructor; [exact IH|].
      eapply Permutation_Forall; [symmetry; apply insert_by_perm|].
      constructor; [|exact Hy].
      destruct (le_total x y) as [H|H]; [congruence | exact H].
Qed.

Lemma sort_by_sorted l :
  StronglySorted (fun a b => le a b = true) (sort_by le l).
Proof.
  induction l as [|x l IH]; simpl; [constructor|].
  now apply insert_by_sorted.
Qed.

End Sorting.

Lemma StronglySorted_weaken A (R1 R2 : A -> A -> Prop) l :
  (forall a b, R1 a b -> R2 a b) -> StronglySorted R1 l -> StronglySorted R2 l.
Proof.
  intros H. induction 1 as [|x l Hs IH Hx]; constructor; [exact IH|].
  eapply Forall_impl; [|exact Hx]. intros b. apply H.
Qed.

Lemma Object_keys_perm A (o : list (string * A)) :
  Permutation (Object_keys o) (map fst o).
Proof.
  unfold Object_keys. generalize (map fst o) as keys. intros keys.
  rewrite sort_by_perm.
  induction keys as [|k keys IH]; simpl; [reflexivity|].
  destruct (array_index k) as [n|]; simpl.
  - now constructor.
  - rewrite <- Permutation_middle. now constructor.
Qed.

Lemma sorted_senders_perm grouped :
  Permutation (sorted_senders grouped) (map fst grouped).
Proof.
  unfold sorted_senders. rewrite sort_by_perm. apply Object_keys_perm.
Qed.

(** Line 256: a larger group is never rendered after a smaller one. *)
Lemma sorted_senders_descending grouped :
  StronglySorted
    (fun a b => (group_size grouped b <= group_size grouped a)%Z)
    (sorted_senders grouped).
Proof.
  unfold sorted_senders.
  eapply StronglySorted_weaken;
    [|apply sort_by_sorted with
        (le := fun a b => (group_size grouped b <=? group_size grouped a)%Z)].
  - intros a b H. now apply Z.leb_le.
  - intros a b. rewrite !Z.leb_le. lia.
  - intros a b c. rewrite !Z.leb_le. lia.
Qed.

(** ** Rendering *)

Lemma result_map_Forall2 A B (f : A -> result B) l l' :
  result_map f l = Ok l' -> Forall2 (fun a b => f a = Ok b) l l'.
Proof.
  revert l'. induction l as [|a l IH]; intros l'; simpl.
  - intros [= <-]. constructor.
  - destruct (f a) as [b|] eqn:E; simpl; [|discriminate].
    destruct (result_map f l) as [bs|]; simpl; [|discriminate].
    intros [= <-]. constructor; [exact E | now apply IH].
Qed.

Lemma result_map_total A B (f : A -> result B) l :
  Forall (fun a => exists b, f a = Ok b) l -> exists l', result_map f l = Ok l'.
Proof.
  induction 1 as [|a l [b Hb] _ [bs IH]]; simpl.
  - now exists [].
  - rewrite Hb, IH. simpl. now exists (b :: bs).
Qed.

Lemma sum_of_sumZ f l : sum_of f l = sumZ (map f l).
Proof.
  unfold sum_of.
  assert (forall acc, fold_left (fun a s => (a + f s)%Z) l acc
                      = (acc + sumZ (map f l))%Z) as H.
  { induction l as [|s l IH]; intros acc; simpl; [lia|]. rewrite IH. lia. }
  rewrite H. lia.
Qed.

Lemma sumZ_perm l l' : Permutation l l' -> sumZ l = sumZ l'.
Proof. induction 1; simpl; lia. Qed.

(** [filter_by] is [filter] as long as the predicate does not throw. *)
Lemma filter_by_filter pred l r :
  filter_by pred l = Ok r ->
  r = filter (fun e => match pred e with Ok true => true | _ => false end) l
  /\ Forall (fun e => exists b, pred e = Ok b) l.
Proof.
  revert r. induction l as [|e l IH]; intros r; simpl.
  - intros [= <-]. split; constructor.
  - destruct (pred e) as [b|] eqn:E; simpl; [|discriminate].
    destruct (filter_by pred l) as [r'|]; simpl; [|discriminate].
    intros [= <-]. destruct (IH _ eq_refl) as [-> H].
    split; [now destruct b | constructor; [now exists b | exact H]].
Qed.

Lemma filter_by_total pred l :
  Forall (fun e => exists b, pred e = Ok b) l -> exists r, filter_by pred l = Ok r.
Proof.
  induction 1 as [|e l [b Hb] _ [r IH]]; simpl.
  - now exists [].
  - rewrite Hb, IH. simpl. eauto.
Qed.

(** An action cannot be [keep] and [trash] at once. *)
Lemma action_is_exclusive e :
  action_is "keep" e = Ok true -> action_is "trash" e = Ok false.
Proof.
  unfold action_is.
  destruct (string_or (get_opt (Email.decision e) "action") "") as [a|];
    simpl; [|discriminate].
  intros [= H]. apply String.eqb_eq in H. now rewrite H.
Qed.

Lemma action_is_together e b :
  action_is "keep" e = Ok b -> exists b', action_is "trash" e = Ok b'.
Proof.
  unfold action_is.
  destruct (string_or (get_opt (Email.decision e) "action") "") as [a|];
    simpl; [eauto | discriminate].
Qed.

(** Keep, trash and review split the emails of a group. *)
Lemma three_way_split l :
  Forall (fun e => exists b, action_is "keep" e = Ok b) l ->
  (length
     (filter (fun e => match action_is "keep" e with
                       | Ok true => true | _ => false end) l)
   + length
       (filter (fun e => match action_is "trash" e with
                         | Ok true => true | _ => false end) l)
   + length (filter counted_as_review l) = length l)%nat.
Proof.
  induction 1 as [|e l [b Hb] _ IH]; simpl; [reflexivity|].
  unfold counted_as_review at 1. rewrite Hb. destruct b.
  - rewrite (action_is_exclusive _ Hb). simpl. lia.
  - destruct (action_is_together _ _ Hb) as [[] ->]; simpl; lia.
Qed.

Lemma render_section_counts sender group s :
  render_section sender group = Ok s ->
  section_adds_up s /\
  sec_total s = length_Z (Group.emails group) /\
  sec_review s = length_Z (filter counted_as_review (Group.emails group)).
Proof.
  unfold render_section.
  destruct (filter_by (action_is "keep") _) as [keeps|] eqn:K; simpl;
    [|discriminate].
  destruct (filter_by (action_is "trash") _) as [trashes|] eqn:T; simpl;
    [|discriminate].
  destruct (result_map render_row _) as [rows|]; simpl; [|discriminate].
  intros [= <-]. unfold section_adds_up. simpl.
  split; [lia|]. split; [reflexivity|].
  apply filter_by_filter in K as [-> HK].
  apply filter_by_filter in T as [-> _].
  pose proof (three_way_split _ HK) as H. unfold length_Z. lia.
Qed.

Lemma assoc_in_nodup A (l : list (string * A)) k a :
  NoDup (map fst l) -> In (k, a) l -> assoc k l = Some a.
Proof.
  induction l as [|[k' a'] l IH]; simpl; [contradiction|].
  intros Hnd [H|H]; inversion Hnd as [|? ? Hk Hl]; subst.
  - injection H as -> ->. now rewrite String.eqb_refl.
  - destruct (String.eqb k k') eqn:E.
    + apply String.eqb_eq in E. subst k'. exfalso. apply Hk.
      change k with (fst (k, a)). now apply in_map.
    + now apply IH.
Qed.

Lemma assoc_some_in A (l : list (string * A)) k a :
  assoc k l = Some a -> In (k, a) l.
Proof.
  induction l as [|[k' a'] l IH]; simpl; [discriminate|].
  destruct (String.eqb k k') eqn:E.
  - apply String.eqb_eq in E. intros [= ->]. left. now subst.
  - intros H. right. now apply IH.
Qed.

Lemma assoc_key_some A (l : list (string * A)) k :
  In k (map fst l) -> exists a, assoc k l = Some a.
Proof.
  induction l as [|[k' a'] l IH]; simpl; [contradiction|].
  destruct (String.eqb k k') eqn:E; [eauto|].
  intros [H|H]; [|now apply IH].
  subst k'. now rewrite String.eqb_refl in E.
Qed.

Lemma group_sizes_total grouped :
  NoDup (map fst grouped) ->
  sumZ (map (group_size grouped) (map fst grouped)) = total_emails grouped.
Proof.
  intros Hnd. unfold total_emails. rewrite map_map. f_equal.
  apply map_ext_in. intros [k g] Hin. unfold group_size. simpl.
  now rewrite (assoc_in_nodup _ _ _ _ Hnd Hin).
Qed.

Lemma render_inv state v :
  render state = Ok v ->
  Forall2 (fun sender s =>
             exists group,
               assoc sender (ScanState.grouped state) = Some group /\
               render_section sender group = Ok s)
          (sorted_senders (ScanState.grouped state)) (view_sections v) /\
  view_summary v =
    {| sum_scanned := ScanState.total state;
       sum_keep := sum_of sec_keep (view_sections v);
       sum_trash := sum_of sec_trash (view_sections v);
       sum_review := sum_of sec_review (view_sections v) |}.
Proof.
  unfold render.
  destruct (result_map _ (sorted_senders (ScanState.grouped state)))
    as [sections|] eqn:E; simpl; [|discriminate].
  intros [= <-]. simpl. split; [|reflexivity].
  apply result_map_Forall2 in E.
  eapply Forall2_impl; [|exact E]. intros sender s. simpl.
  destruct (assoc sender (ScanState.grouped state)) as [group|];
    [eauto | discriminate].
Qed.

Lemma sums_add_up sections :
  Forall section_adds_up sections ->
  (sumZ (map sec_keep sections) + sumZ (map sec_trash sections)
   + sumZ (map sec_review sections) = sumZ (map sec_total sections))%Z.
Proof.
  induction 1 as [|s l Hs _ IH]; simpl; [reflexivity|].
  unfold section_adds_up in Hs. lia.
Qed.

(** In whatever [render] shows for a state, the counts of each section
    add up to the number of emails of its group, and the totals of the
    summary to the number of emails of all groups. *)
Lemma render_counts state v :
  NoDup (map fst (ScanState.grouped state)) ->
  render state = Ok v ->
  Forall section_adds_up (view_sections v) /\
  Forall2 (fun sender s =>
             sec_total s
               = length_Z (emails_of (ScanState.grouped state) sender) /\
             sec_review s
               = length_Z (filter counted_as_review
                             (emails_of (ScanState.grouped state) sender)))
          (sorted_senders (ScanState.grouped state)) (view_sections v) /\
  (sum_keep (view_summary v) + sum_trash (view_summary v)
   + sum_review (view_summary v)
   = total_emails (ScanState.grouped state))%Z.
Proof.
  intros Hnd Hr. apply render_inv in Hr as [Hs Hsum].
  set (grouped := ScanState.grouped state) in *.
  assert (Forall2 (fun sender s =>
            section_adds_up s /\
            sec_total s = length_Z (emails_of grouped sender) /\
            sec_review s = length_Z (filter counted_as_review
                                       (emails_of grouped sender)))
            (sorted_senders grouped) (view_sections v)) as H.
  { eapply Forall2_impl; [|exact Hs]. intros sender s (group & Ha & Hsec).
    unfold emails_of. rewrite Ha. now apply render_section_counts in Hsec. }
  assert (Forall section_adds_up (view_sections v)) as Hall.
  { clear -H. induction H as [|? ? ? ? [? _]]; constructor; assumption. }
  split; [exact Hall|]. split.
  { eapply Forall2_impl; [|exact H]. now intros ? ? (_ & ? & ?). }
  rewrite Hsum. simpl. rewrite !sum_of_sumZ, (sums_add_up _ Hall).
  rewrite <- (group_sizes_total _ Hnd).
  rewrite <- (sumZ_perm _ _ (Permutation_map _ (sorted_senders_perm grouped))).
  f_equal. clear -H.
  induction H as [|sender s l l' (_ & Ht & _) _ IH]; simpl; [reflexivity|].
  rewrite IH, Ht. unfold group_size, emails_of.
  now destruct (assoc sender grouped).
Qed.

(** ** Handlers of the rendered rows *)

(** Whatever the trash endpoint answers, a confirmed bulk trash that
    re-renders flags every id it attempted and stores those flags; the
    answers only reach the count in the status line. *)
Lemma trashSuggested_flags_every_attempt w p sender state group id ids v :
  rendered p = Some state ->
  assoc sender (ScanState.grouped state) = Some group ->
  suggested_ids (Group.emails group) = Ok (id :: ids) ->
  confirm w ("Trash " ++ string_of_nat (length (id :: ids))
             ++ " emails from " ++ sender ++ "? (Moves to Trash)") = true ->
  render (set_emails sender group
            (flag_attempted (id :: ids) (Group.emails group)) state) = Ok v ->
  exists ok p',
    trashSuggested w sender p = (Ok tt, p') /\
    LS_LAST p' =
      Some (set_emails sender group
              (flag_attempted (id :: ids) (Group.emails group)) state) /\
    rendered p' = LS_LAST p' /\
    status p' = "Trashed " ++ string_of_nat ok ++ "/"
                ++ string_of_nat (length (id :: ids)) ++ " emails.".
Proof.
  intros Hr Ha Hs Hc Hv.
  unfold trashSuggested, bind at 1, read. rewrite Hr, Ha.
  unfold bind at 1, lift. rewrite Hs, Hc. cbn [negb].
  unfold bind at 1, setStatus at 1, update at 1.
  unfold bind at 1.
  destruct (trash_each w (id :: ids) 0 _) as [[ok|e] q] eqn:T.
  - exists ok. unfold bind, update, localStorage_setItem_LAST, render_page,
      lift, setStatus, update. rewrite Hv. cbn.
    eexists. repeat split.
  - exfalso. clear -T.
    assert (forall l n q0 e0 q1, trash_each w l n q0 <> (Throw e0, q1)) as H.
    { induction l as [|i l IH]; intros n q0 e0 q1; simpl; [discriminate|].
      unfold bind, try_catch.
      destruct (trashMessage w i q0) as [[[]|e1] q2]; simpl.
      - apply IH.
      - unfold console_error, update. simpl. apply IH. }
    exact (H _ _ _ _ _ T).
Qed.

(** C1 (code defect).  Five emails of one sender, three suggested for
    the trash; the calls for [t2] and [t3] fail.  The handler reports
    [1/3], yet line 308 flags all three attempted emails, and the stored
    snapshot carries three trashed flags instead of one. *)
Theorem trashSuggested_flags_failed_calls :
  fst (trashSuggested BulkTrash.world BulkTrash.sender BulkTrash.page) = Ok tt /\
  status (snd (trashSuggested BulkTrash.world BulkTrash.sender BulkTrash.page))
    = "Trashed 1/3 emails." /\
  length (console (snd (trashSuggested BulkTrash.world BulkTrash.sender
                          BulkTrash.page))) = 2%nat /\
  option_map trashed_ids
    (rendered (snd (trashSuggested BulkTrash.world BulkTrash.sender BulkTrash.page)))
    = Some ["t1"; "t2"; "t3"] /\
  option_map trashed_ids
    (LS_LAST (snd (trashSuggested BulkTrash.world BulkTrash.sender BulkTrash.page)))
    = Some ["t1"; "t2"; "t3"].
Proof. vm_compute. repeat split. Qed.

Lemma trashMessage_same_snapshot w id :
  respects same_snapshot (trashMessage w id).
Proof.
  eapply respects_weaken; [|apply trashMessage_sends].
  apply sends_same_snapshot.
Qed.

(** C9.  When the single [trashMessage] call of a confirmed manual trash
    throws, the handler throws the same exception, the state object behind
    the page is what it was (so the flag of the email is not set), and
    nothing is written to the last-scan document. *)
Theorem manualTrash_failure_propagates w p sender index state group e err p1 :
  rendered p = Some state ->
  assoc sender (ScanState.grouped state) = Some group ->
  nth_error (Group.emails group) index = Some e ->
  confirm w "Move this email to Trash?" = true ->
  trashMessage w (Email.id e) (with_status "Trashing 1 email…" p)
    = (Throw err, p1) ->
  manualTrash w sender index p = (Throw err, p1) /\
  rendered p1 = Some state /\
  option_map Email._trashed
    (nth_error (emails_of (ScanState.grouped state) sender) index)
    = Some (Email._trashed e) /\
  LS_LAST p1 = LS_LAST p.
Proof.
  intros Hr Ha He Hc Ht.
  destruct (trashMessage_same_snapshot w (Email.id e) _ _ _ Ht) as [Hs Hl].
  repeat split.
  - unfold manualTrash, bind at 1, read. rewrite Hr, Ha, He, Hc. cbn [negb].
    unfold bind at 1, setStatus at 1, update at 1.
    unfold bind at 1. now rewrite Ht.
  - now rewrite Hs.
  - unfold emails_of. now rewrite Ha, He.
  - exact Hl.
Qed.

Lemma manualTrash_failure_propagates_witness :
  fst (manualTrash BulkTrash.world BulkTrash.sender 2 BulkTrash.page)
    = Throw (Error "Gmail API error 500: Backend Error") /\
  option_map trashed_ids
    (rendered (snd (manualTrash BulkTrash.world BulkTrash.sender 2 BulkTrash.page)))
    = Some [] /\
  LS_LAST (snd (manualTrash BulkTrash.world BulkTrash.sender 2 BulkTrash.page))
    = Some BulkTrash.state.
Proof.
  destruct (manualTrash_failure_propagates
              BulkTrash.world BulkTrash.page BulkTrash.sender 2
              BulkTrash.state
              (Group.mk BulkTrash.sender "Shop <deals@shop.example>"
                        BulkTrash.emails)
              (BulkTrash.mail "t2" "trash")
              (Error "Gmail API error 500: Backend Error")
              (snd (trashMessage BulkTrash.world "t2"
                      (with_status "Trashing 1 email…" BulkTrash.page)))
              eq_refl eq_refl eq_refl eq_refl eq_refl)
    as (Hm & Hr & _ & Hl).
  rewrite Hm. cbn [fst snd]. rewrite Hr, Hl. repeat split.
Defined.

(** For comparison: when the call succeeds, the flag is set and stored. *)
Example manualTrash_success :
  fst (manualTrash BulkTrash.world BulkTrash.sender 0 BulkTrash.page) = Ok tt /\
  option_map trashed_ids
    (LS_LAST (snd (manualTrash BulkTrash.world BulkTrash.sender 0 BulkTrash.page)))
    = Some ["t1"].
Proof. vm_compute. repeat split. Qed.

(** ** The scan pipeline *)

(** A throwing step ends the loop at once: the steps after it do not
    run. *)
Lemma for_each_stops A B (f : A -> M B) done a rest p bs q e q' :
  for_each f done p = (Ok bs, q) ->
  f a q = (Throw e, q') ->
  for_each f (done ++ a :: rest) p = (Throw e, q').
Proof.
  revert p bs. induction done as [|d done IH]; intros p bs H Hf; simpl in *.
  - injection H as _ <-. unfold bind. now rewrite Hf.
  - unfold bind in H |- *. destruct (f d p) as [[b|e0] p0]; [|discriminate].
    destruct (for_each f done p0) as [[bs0|e0] p1] eqn:E; [|discriminate].
    injection H as _ <-. fold (@bind (list B) (list B)).
    now rewrite (IH _ _ E Hf).
Qed.

Lemma classify_from_stops w settings metas batchSize fuel i labeled p e p' :
  Number_lessThan i (of_nat (length metas)) = true ->
  groqClassifyBatch w settings
    (Array_slice i (Number_add i batchSize) metas) p
    = (Throw e, p') ->
  classify_from w settings metas batchSize (S fuel) i labeled p
    = (Throw e, p').
Proof.
  intros Hi Hc. simpl. rewrite Hi.
  unfold bind. now rewrite Hc.
Qed.

Lemma scan_begin_returns p :
  exists settings p1, scan_begin p = (Ok settings, p1).
Proof. unfold scan_begin. eexists. eexists. reflexivity. Qed.

(** A scan fails in one of the three remote steps, or else later, in
    grouping or rendering. *)
Lemma scan_collect_failure w p e p' :
  scan_collect w p = (Throw e, p') -> step_fails w p e p'.
Proof.
  destruct (scan_begin_returns p) as (settings & p1 & Hb).
  unfold scan_collect, bind at 1. rewrite Hb.
  unfold bind at 1.
  destruct (listMessageIds w _ _ p1) as [[ids|e1] p2] eqn:Hl.
  2:{ intros [= <- <-]. eapply listing_fails; eassumption. }
  unfold bind at 1.
  destruct (for_each (getMessageMeta w) ids p2) as [[metas|e2] p3] eqn:Hm.
  2:{ intros [= <- <-]. eapply metadata_fails; eassumption. }
  unfold bind at 1.
  destruct (classify_all w settings metas p3) as [[labeled|e3] p4] eqn:Hc.
  - discriminate.
  - intros [= <- <-]. eapply classification_fails; eassumption.
Qed.

Lemma step_fails_collect w p e p' :
  step_fails w p e p' -> scan_collect w p = (Throw e, p').
Proof.
  intros [settings p1 Hb Hl | settings p1 ids p2 Hb Hl Hm
         | settings p1 ids p2 metas p3 Hb Hl Hm Hc];
    unfold scan_collect, bind at 1; rewrite Hb;
    unfold bind at 1; rewrite Hl; try reflexivity;
    unfold bind at 1; rewrite Hm; try reflexivity;
    unfold bind at 1; now rewrite Hc.
Qed.

(** C6.  When the listing, a metadata fetch or a classification batch
    fails, the scan ends right there with that exception: its final page
    is the page on which the step failed, so no later step has run, and
    the last-scan document is the one from before the scan. *)
Theorem scan_stops_at_failed_step w p e p' :
  step_fails w p e p' ->
  scan w p = (Throw e, p') /\ LS_LAST p' = LS_LAST p.
Proof.
  intros H. apply step_fails_collect in H. split.
  - unfold scan, bind. now rewrite H.
  - exact (scan_collect_same_last_scan w _ _ _ H).
Qed.

Lemma scan_stops_at_failed_step_witness :
  scan Outage.world Outage.page
    = (Throw (Error "Gmail API error 503: Service Unavailable"),
       snd (scan_collect Outage.world Outage.page)) /\
  LS_LAST (snd (scan_collect Outage.world Outage.page))
    = LS_LAST Outage.page.
Proof.
  apply scan_stops_at_failed_step.
  eapply metadata_fails with (ids := ["m1"; "m2"]).
  - vm_compute. reflexivity.
  - vm_compute. reflexivity.
  - vm_compute. reflexivity.
Defined.

(** The second metadata read fails: the scan stops after three requests,
    no classification is asked for, and the stored snapshot is the one of
    the earlier scan. *)
Example scan_metadata_failure :
  fst (scan Outage.world Outage.page)
    = Throw (Error "Gmail API error 503: Service Unavailable") /\
  LS_LAST (snd (scan Outage.world Outage.page)) = Some BulkTrash.state /\
  map Sample.path_of (requests (snd (scan Outage.world Outage.page)))
    = ["messages"; "messages/m1"; "messages/m2"].
Proof. vm_compute. repeat split. Qed.

(** A classifier answer that is not JSON: the batch fails, the scan with
    it, and again nothing new is stored. *)
Example scan_classification_failure :
  fst (scan Outage.world_chatty Outage.page) = Throw SyntaxError /\
  LS_LAST (snd (scan Outage.world_chatty Outage.page))
    = Some BulkTrash.state /\
  length (requests (snd (scan Outage.world_chatty Outage.page))) = 4%nat.
Proof. vm_compute. repeat split. Qed.

(** ** Grouping by sender *)

Lemma assoc_none_iff A (l : list (string * A)) k :
  assoc k l = None <-> ~ In k (map fst l).
Proof.
  induction l as [|[k' a] l IH]; simpl; [tauto|].
  destruct (String.eqb k k') eqn:E.
  - apply String.eqb_eq in E. subst. split; [discriminate | tauto].
  - apply String.eqb_neq in E. rewrite IH. split; [|tauto].
    intros H [H'|H']; [congruence | tauto].
Qed.

Lemma assoc_split A (l : list (string * A)) k a a' :
  assoc k l = Some a ->
  exists pre post,
    l = (pre ++ (k, a) :: post)%list /\
    replace k a' l = (pre ++ (k, a') :: post)%list.
Proof.
  induction l as [|[k' b] l IH]; simpl; [discriminate|].
  destruct (String.eqb k k') eqn:E.
  - apply String.eqb_eq in E. subst k'. intros [= ->].
    now exists [], l.
  - intros H. destruct (IH H) as (pre & post & -> & ->).
    now exists ((k', b) :: pre), post.
Qed.

Lemma all_emails_app g1 g2 :
  all_emails (g1 ++ g2) = (all_emails g1 ++ all_emails g2)%list.
Proof. apply flat_map_app. Qed.

Lemma filter_snoc k seen e :
  filter (has_key k) (seen ++ [e]) =
  (filter (has_key k) seen ++ if has_key k e then [e] else [])%list.
Proof. rewrite filter_app. simpl. now destruct (has_key k e). Qed.

Lemma has_key_other k e : k <> sender_key e -> has_key k e = false.
Proof. intros H. apply String.eqb_neq. congruence. Qed.

Lemma has_key_own e : has_key (sender_key e) e = true.
Proof. apply String.eqb_refl. Qed.

(** An email already seen sits in the group of its key. *)
Lemma grouping_of_covers seen grouped e :
  grouping_of seen grouped -> In e seen -> In (sender_key e) (map fst grouped).
Proof.
  intros (_ & Hg & Hp) He.
  apply (Permutation_in _ (Permutation_sym Hp)) in He.
  apply in_flat_map in He as ([k g] & Hin & Hmem).
  rewrite Forall_forall in Hg. destruct (Hg _ Hin) as (_ & _ & Hf & _).
  simpl in *. rewrite Hf in Hmem. apply filter_In in Hmem as [_ Hk].
  apply String.eqb_eq in Hk. rewrite Hk.
  change k with (fst (k, g)). now apply in_map.
Qed.

Lemma grouping_of_nil : grouping_of [] [].
Proof. repeat split; constructor. Qed.

Lemma group_push_ok seen grouped e :
  grouping_of seen grouped ->
  inherited (sender_key e) = false ->
  exists grouped',
    group_push grouped e = Ok grouped' /\ grouping_of (seen ++ [e]) grouped'.
Proof.
  intros Hinv Hnot. pose proof Hinv as (Hnd & Hg & Hp).
  unfold group_push. cbv zeta.
  destruct (assoc (sender_key e) grouped) as [g|] eqn:Ha.
  - eexists. split; [reflexivity|].
    destruct (assoc_split _ _ _ _ (Group.with_emails (Group.emails g ++ [e]) g) Ha)
      as (pre & post & -> & ->).
    rewrite map_app in Hnd. simpl in Hnd.
    apply Forall_app in Hg as [Hpre Hrest].
    inversion Hrest as [|? ? (Hi & Hs & Hf & Hne) Hpost]; subst.
    simpl in Hi, Hs, Hf, Hne.
    assert (forall kg, In kg pre \/ In kg post -> fst kg <> sender_key e)
      as Hother.
    { intros [k g0] Hin Hk. simpl in Hk. subst k.
      apply NoDup_remove_2 in Hnd. apply Hnd, in_or_app.
      destruct Hin as [Hin|Hin]; [left|right];
        change (sender_key e) with (fst (sender_key e, g0)); now apply in_map. }
    assert (forall l, (forall kg, In kg l -> fst kg <> sender_key e) ->
              Forall (fun kg => inherited (fst kg) = false /\
                                Group.sender (snd kg) = fst kg /\
                                Group.emails (snd kg)
                                  = filter (has_key (fst kg)) seen /\
                                Group.emails (snd kg) <> []) l ->
              Forall (fun kg => inherited (fst kg) = false /\
                                Group.sender (snd kg) = fst kg /\
                                Group.emails (snd kg)
                                  = filter (has_key (fst kg)) (seen ++ [e]) /\
                                Group.emails (snd kg) <> []) l) as Hkeep.
    { intros l Hl Hall. rewrite Forall_forall in *. intros kg Hin.
      destruct (Hall kg Hin) as (? & ? & Hf' & ?).
      rewrite filter_snoc, (has_key_other _ _ (Hl kg Hin)), app_nil_r. auto. }
    repeat split.
    + rewrite map_app. exact Hnd.
    + apply Forall_app. split; [apply Hkeep; auto|].
      constructor; [|apply Hkeep; auto]. simpl.
      rewrite filter_snoc, has_key_own, <- Hf.
      repeat split; auto. now destruct (Group.emails g).
    + rewrite all_emails_app in *. simpl in *.
      rewrite <- Hp, <- !app_assoc.
      do 2 apply Permutation_app_head. apply Permutation_app_comm.
  - rewrite Hnot. eexists. split; [reflexivity|].
    apply assoc_none_iff in Ha.
    repeat split.
    + rewrite map_app. simpl.
      apply NoDup_app_remove_l with (l := []). simpl.
      apply Permutation_NoDup with (l := sender_key e :: map fst grouped);
        [apply Permutation_cons_append | now constructor].
    + apply Forall_app. split.
      * rewrite Forall_forall in *. intros kg Hin.
        destruct (Hg kg Hin) as (? & ? & Hf & ?).
        rewrite filter_snoc, has_key_other, app_nil_r; auto.
        intros Hk. apply Ha. rewrite <- Hk. now apply in_map.
      * constructor; [|constructor]. simpl.
        rewrite filter_snoc, has_key_own.
        assert (filter (has_key (sender_key e)) seen = []) as ->.
        { destruct (filter (has_key (sender_key e)) seen) as [|x l] eqn:F;
            [reflexivity|].
          assert (In x (filter (has_key (sender_key e)) seen)) as Hx
              by (rewrite F; now left).
          apply filter_In in Hx as [Hx Hk]. apply String.eqb_eq in Hk.
          exfalso. apply Ha. rewrite <- Hk.
          exact (grouping_of_covers _ _ _ Hinv Hx). }
        repeat split; auto. discriminate.
    + rewrite all_emails_app. unfold all_emails at 2. simpl.
      now apply Permutation_app_tail.
Qed.

Lemma group_push_throws seen grouped e :
  grouping_of seen grouped ->
  inherited (sender_key e) = true ->
  group_push grouped e = Throw TypeError.
Proof.
  intros (_ & Hg & _) Hi. unfold group_push. cbv zeta.
  destruct (assoc (sender_key e) grouped) as [g|] eqn:Ha; [|now rewrite Hi].
  apply assoc_some_in in Ha. rewrite Forall_forall in Hg.
  destruct (Hg _ Ha) as (Hn & _). simpl in Hn. congruence.
Qed.

Lemma group_from_ok labeled :
  forall seen grouped,
    grouping_of seen grouped ->
    Forall (fun e => inherited (sender_key e) = false) labeled ->
    exists grouped',
      group_from grouped labeled = Ok grouped' /\
      grouping_of (seen ++ labeled) grouped'.
Proof.
  induction labeled as [|e rest IH]; intros seen grouped Hinv Hall; simpl.
  - exists grouped. rewrite app_nil_r. auto.
  - inversion Hall as [|? ? He Hrest]; subst.
    destruct (group_push_ok _ _ e Hinv He) as (g1 & -> & Hinv1). simpl.
    destruct (IH _ _ Hinv1 Hrest) as (g2 & -> & Hinv2).
    exists g2. rewrite <- app_assoc in Hinv2. auto.
Qed.

Lemma group_from_throws labeled :
  forall seen grouped,
    grouping_of seen grouped ->
    Exists (fun e => inherited (sender_key e) = true) labeled ->
    group_from grouped labeled = Throw TypeError.
Proof.
  induction labeled as [|e rest IH]; intros seen grouped Hinv Hex; simpl.
  - inversion Hex.
  - destruct (inherited (sender_key e)) eqn:He.
    + now rewrite (group_push_throws _ _ e Hinv He).
    + destruct (group_push_ok _ _ e Hinv He) as (g1 & -> & Hinv1). simpl.
      apply (IH _ _ Hinv1). inversion Hex; subst; [congruence | assumption].
Qed.

(** As long as no sender key is the name of a property that plain
    objects inherit, grouping is a partition: the groups have distinct
    keys, each holds exactly the labeled emails of its key in their
    order, together they rearrange the labeled emails, and the senders
    are rendered by descending group size. *)
Lemma group_by_sender_partition labeled :
  Forall (fun e => inherited (sender_key e) = false) labeled ->
  exists grouped,
    group_by_sender labeled = Ok grouped /\
    grouping_of labeled grouped /\
    (forall e, In e labeled ->
       exists g, assoc (sender_key e) grouped = Some g
                 /\ In e (Group.emails g)) /\
    (forall e k g, In (k, g) grouped -> In e (Group.emails g) ->
       k = sender_key e) /\
    StronglySorted
      (fun a b => (group_size grouped b <= group_size grouped a)%Z)
      (sorted_senders grouped).
Proof.
  intros Hall.
  destruct (group_from_ok _ _ _ grouping_of_nil Hall) as (grouped & Hg & Hinv).
  simpl in Hinv. exists grouped. split; [exact Hg|]. split; [exact Hinv|].
  pose proof Hinv as (Hnd & Hgr & Hp). rewrite Forall_forall in Hgr.
  repeat split.
  - intros e He.
    destruct (assoc_key_some _ _ _ (grouping_of_covers _ _ _ Hinv He)) as [g Ha].
    exists g. split; [exact Ha|].
    destruct (Hgr _ (assoc_some_in _ _ _ _ Ha)) as (_ & _ & Hf & _).
    simpl in Hf. rewrite Hf. apply filter_In. split; [exact He|].
    apply has_key_own.
  - intros e k g Hin He.
    destruct (Hgr _ Hin) as (_ & _ & Hf & _). simpl in Hf.
    rewrite Hf in He. apply filter_In in He as [_ Hk].
    now apply String.eqb_eq in Hk.
  - apply sorted_senders_descending.
Qed.

Lemma group_by_sender_throws labeled :
  Exists (fun e => inherited (sender_key e) = true) labeled ->
  group_by_sender labeled = Throw TypeError.
Proof. apply (group_from_throws _ _ _ grouping_of_nil). Qed.

(** C7 (code defect).  A message whose From header is the word
    [Constructor] is normalized to the sender [constructor].  The groups
    are kept in a plain object, where [grouped["constructor"]] is the
    inherited [Object] function: no group is created, [push] is called on
    [undefined], and the scan ends in a [TypeError] with nothing grouped
    and nothing stored. *)
Theorem grouping_throws_on_inherited_key :
  sender_key Inherited.labeled = "constructor" /\
  group_by_sender [Inherited.labeled] = Throw TypeError /\
  fst (scan Inherited.world Sample.page0) = Throw TypeError /\
  LS_LAST (snd (scan Inherited.world Sample.page0)) = None /\
  results (snd (scan Inherited.world Sample.page0)) = [].
Proof. vm_compute. repeat split. Qed.

(** ** Batching never drops an email *)

Lemma at_least_weaken x k k' : at_least x k -> (k' <= k)%Z -> at_least x k'.
Proof.
  destruct x as [| | | |m e]; cbn; try tauto; try lia.
  intros H Hk. pose proof (pow2_pos (- e)). nia.
Qed.

Lemma effective_batchSize_positive settings :
  at_least (effective_batchSize settings) 1.
Proof.
  unfold effective_batchSize.
  set (x := if Number_toBoolean _ then _ else _).
  assert (x <> NaN) as Hx.
  { subst x. destruct (Settings.batchSize settings) as [| | | |m e]; cbn;
      try discriminate. destruct (negb _); discriminate. }
  unfold Math_max.
  destruct (Number_compare (Fin 1 0) x) as [[]|] eqn:C;
    try (cbn; lia).
  - destruct x as [| | | |m e]; try discriminate; try exact I.
    change (Number_compare (Fin 1 0) (Fin m e))
      with (Some (1 * 2 ^ (0 - Z.min 0 e) ?= m * 2 ^ (e - Z.min 0 e))%Z) in C.
    injection C as C.
    unfold at_least. destruct (Z_le_gt_dec 0 e) as [E|E].
    + rewrite (Z.min_l 0 e) in C by lia.
      rewrite (Z.max_l e 0), (Z.max_r (- e) 0) by lia.
      rewrite Z.sub_0_r in C. change (0 - 0)%Z with 0%Z in C.
      rewrite Z.pow_0_r in C |- *. rewrite Z.compare_lt_iff in C. lia.
    + rewrite (Z.min_r 0 e) in C by lia.
      rewrite (Z.max_r e 0), (Z.max_l (- e) 0) by lia.
      rewrite Z.sub_diag, Z.pow_0_r in C. rewrite Z.pow_0_r.
      replace (0 - e)%Z with (- e)%Z in C by lia.
      rewrite Z.compare_lt_iff in C. destruct (2 ^ (- e))%Z; lia.
  - destruct x; try discriminate; contradiction.
Qed.

Lemma firstn_add A (l : list A) i b :
  firstn (i + b) l = (firstn i l ++ firstn b (skipn i l))%list.
Proof.
  revert l. induction i as [|i IH]; intros l; simpl; [reflexivity|].
  destruct l as [|a l]; simpl; [now rewrite firstn_nil | now rewrite IH].
Qed.

Lemma slice_from A (l : list A) i b : slice i (i + b) l = firstn b (skipn i l).
Proof. unfold slice. now replace (i + b - i)%nat with b by lia. Qed.

Lemma slice_skipped A (l : list A) i j :
  (i <= j <= length l)%nat ->
  skipn i l = (slice i j l ++ skipn j l)%list.
Proof.
  intros H. unfold slice.
  replace j with ((j - i) + i)%nat at 2 by lia.
  rewrite <- skipn_skipn. symmetry. apply firstn_skipn.
Qed.

Lemma slice_nonempty A (l : list A) i j :
  (i < j <= length l)%nat -> slice i j l <> [].
Proof.
  intros H E. apply (f_equal (@length A)) in E.
  unfold slice in E. rewrite length_firstn, length_skipn in E.
  simpl in E. lia.
Qed.

(** A number that has reached the length of the array ends the loop. *)
Lemma reached_end x k len :
  at_least x k -> (0 <= k)%Z -> (Z.of_nat len <= k)%Z ->
  Number_lessThan x (of_nat len) = false /\ relative_index x len = len.
Proof.
  intros H Hk Hl.
  assert (at_least x 0) as H0 by (apply (at_least_weaken _ k); [exact H|lia]).
  assert (Number_lessThan x (of_nat len) = false) as L.
  { destruct (Number_lessThan x (of_nat len)) eqn:L; [|reflexivity].
    destruct (below_length x len H0 L) as [Hf Hlt].
    destruct (at_least_index x k len H Hk Hf) as (Hlow & _). lia. }
  split; [exact L|]. now apply beyond_length.
Qed.

(** The fuel [length metas] is never used up: more fuel changes
    nothing. *)
Lemma classify_from_fuel w settings metas batchSize :
  at_least batchSize 1 -> (Z.of_nat (length metas) <= 2 ^ 53)%Z ->
  forall fuel fuel' i k labeled p,
    at_least i k -> (0 <= k)%Z ->
    (Z.of_nat (length metas) <= k + Z.of_nat fuel)%Z ->
    (Z.of_nat (length metas) <= k + Z.of_nat fuel')%Z ->
    classify_from w settings metas batchSize fuel i labeled p =
    classify_from w settings metas batchSize fuel' i labeled p.
Proof.
  intros Hb Hlen.
  induction fuel as [|fuel IH]; intros fuel' i k labeled p Hi Hk H H'.
  - destruct (reached_end i k (length metas) Hi Hk) as [L _]; [lia|].
    destruct fuel' as [|fuel']; simpl; [reflexivity|]. now rewrite L.
  - destruct fuel' as [|fuel'].
    + destruct (reached_end i k (length metas) Hi Hk) as [L _]; [lia|].
      simpl. now rewrite L.
    + cbn [classify_from].
      destruct (Number_lessThan i (of_nat (length metas))) eqn:E;
        [|reflexivity].
      destruct (index_advances i batchSize (length metas) k Hi Hk Hb Hlen E)
        as (Hlt & Hnext & _).
      unfold bind.
      destruct (groqClassifyBatch w settings _ p) as [[out|e] p1];
        [|reflexivity].
      destruct (setStatus _ p1) as [[[]|e] p2]; [|reflexivity].
      apply (IH _ _ (k + 1)%Z); (assumption || lia).
Qed.

(** What the loop has asked and collected when it returns: one
    classification for each slice it took, and the emails of each slice
    with their ids. *)
Lemma classify_from_cuts w settings metas batchSize :
  forall fuel i labeled p out p',
    classify_from w settings metas batchSize fuel i labeled p = (Ok out, p') ->
    requests p' =
      (requests p ++
       map (groq_request settings) (cuts batchSize fuel i metas))%list /\
    exists outs,
      out = (labeled ++ outs)%list /\
      map Email.id outs
      = map Email.id (concat (cuts batchSize fuel i metas)).
Proof.
  induction fuel as [|fuel IH]; intros i labeled p out p'.
  - simpl. intros [= <- <-]. split; [now rewrite app_nil_r|].
    exists []. now rewrite app_nil_r.
  - cbn [classify_from cuts].
    destruct (Number_lessThan i (of_nat (length metas))).
    + unfold bind.
      destruct (groqClassifyBatch w settings _ p) as [[batch|x] p1] eqn:G;
        [|discriminate].
      pose proof (groqClassifyBatch_ids _ _ _ _ _ _ G) as Gid.
      apply groqClassifyBatch_ok_inv in G as (st & txt & data & _ & _ & ->).
      unfold setStatus, update. intros T.
      apply IH in T as (Hr & outs & -> & Hm). split.
      * rewrite Hr. cbn [requests with_status classify_sent with_requests].
        rewrite <- app_assoc. reflexivity.
      * exists (batch ++ outs)%list. split; [now rewrite app_assoc|].
        cbn [concat]. rewrite !map_app. now rewrite Gid, Hm.
    + intros [= <- <-]. split; [now rewrite app_nil_r|].
      exists []. now rewrite app_nil_r.
Qed.

(** With a step of at least one the slices follow one another from the
    index [i] to the end of the array, and none is empty. *)
Lemma cuts_cover A (l : list A) step :
  at_least step 1 -> (Z.of_nat (length l) <= 2 ^ 53)%Z ->
  forall fuel i k,
    at_least i k -> (0 <= k)%Z ->
    (Z.of_nat (length l) <= k + Z.of_nat fuel)%Z ->
    concat (cuts step fuel i l) = skipn (relative_index i (length l)) l /\
    Forall (fun b => b <> []) (cuts step fuel i l).
Proof.
  intros Hb Hlen.
  induction fuel as [|fuel IH]; intros i k Hi Hk H.
  - destruct (reached_end i k (length l) Hi Hk) as [_ R]; [lia|].
    simpl. rewrite R, skipn_all. split; [reflexivity|constructor].
  - cbn [cuts].
    destruct (Number_lessThan i (of_nat (length l))) eqn:E.
    + destruct (index_advances i step (length l) k Hi Hk Hb Hlen E)
        as (Hlt & Hnext & Hidx).
      destruct (IH (Number_add i step) (k + 1)%Z) as [Hc Hn];
        [assumption|lia|lia|].
      split.
      * cbn [concat]. rewrite Hc. unfold Array_slice. symmetry.
        apply slice_skipped. lia.
      * constructor; [|exact Hn]. unfold Array_slice.
        apply slice_nonempty. lia.
    + assert (at_least i 0) as H0
          by (apply (at_least_weaken _ k); [exact Hi|lia]).
      rewrite (beyond_length i (length l) H0 E), skipn_all.
      split; [reflexivity|constructor].
Qed.

Lemma relative_index_zero len : relative_index (Fin 0 0) len = 0%nat.
Proof.
  unfold relative_index. cbn. rewrite Z.min_l by lia. reflexivity.
Qed.

(** When every batch returns, the labeled emails are the fetched ones, id
    by id and in their order. *)
Lemma classify_all_ids w settings metas p labeled p' :
  (Z.of_nat (length metas) <= 2 ^ 53)%Z ->
  classify_all w settings metas p = (Ok labeled, p') ->
  map Email.id labeled = map Email.id metas.
Proof.
  intros Hlen H. unfold classify_all in H.
  apply classify_from_cuts in H as (_ & outs & -> & Hm).
  destruct (cuts_cover _ metas _ (effective_batchSize_positive settings)
              Hlen (length metas) (Fin 0 0) 0%Z) as [Hc _];
    [cbn; lia|lia|lia|].
  cbn [app]. rewrite Hm, Hc, relative_index_zero. reflexivity.
Qed.

(** ** Rendering never throws on decisions made of strings *)

Lemma string_or_default v d1 d2 s1 :
  string_or v d1 = Ok s1 -> exists s2, string_or v d2 = Ok s2.
Proof.
  unfold string_or. destruct (truthy v); [|eauto].
  destruct v; try discriminate; eauto.
Qed.

Lemma render_row_total e :
  printable (Email.decision e) -> exists r, render_row e = Ok r.
Proof.
  unfold printable. intros H.
  inversion H as [|? ? [a Ha] H1]; subst.
  inversion H1 as [|? ? [c Hc] H2]; subst.
  inversion H2 as [|? ? [s Hs] H3]; subst.
  inversion H3 as [|? ? [r Hr] _]; subst.
  unfold render_row.
  destruct (string_or_default _ _ "review" _ Ha) as [a' ->].
  destruct (string_or_default _ _ "other" _ Hc) as [c' ->].
  destruct (string_or_default _ _ (Email.snippet e) _ Hs) as [s' ->].
  rewrite Hr. simpl. eauto.
Qed.

Lemma action_is_total name e :
  printable (Email.decision e) -> exists b, action_is name e = Ok b.
Proof.
  unfold printable, action_is. intros H.
  inversion H as [|? ? [a Ha] _]; subst. rewrite Ha. simpl. eauto.
Qed.

Lemma render_section_total sender group :
  Forall (fun e => printable (Email.decision e)) (Group.emails group) ->
  exists s, render_section sender group = Ok s.
Proof.
  intros H. unfold render_section.
  destruct (filter_by_total (action_is "keep") (Group.emails group))
    as [keeps ->].
  { eapply Forall_impl; [|exact H]. intros e. apply action_is_total. }
  destruct (filter_by_total (action_is "trash") (Group.emails group))
    as [trashes ->].
  { eapply Forall_impl; [|exact H]. intros e. apply action_is_total. }
  destruct (result_map_total _ _ render_row (Group.emails group))
    as [rows ->].
  { eapply Forall_impl; [|exact H]. intros e. apply render_row_total. }
  simpl. eauto.
Qed.

Lemma render_total state :
  Forall (fun e => printable (Email.decision e))
         (all_emails (ScanState.grouped state)) ->
  exists v, render state = Ok v.
Proof.
  intros H. unfold render.
  destruct (result_map_total _ _
              (fun sender =>
                 match assoc sender (ScanState.grouped state) with
                 | Some group => render_section sender group
                 | None => Throw TypeError
                 end)
              (sorted_senders (ScanState.grouped state))) as [sections ->].
  - apply Forall_forall. intros sender Hin.
    apply (Permutation_in _ (sorted_senders_perm _)) in Hin.
    destruct (assoc_key_some _ _ _ Hin) as [g Ha]. rewrite Ha.
    apply render_section_total.
    apply Forall_forall. intros e He.
    rewrite Forall_forall in H. apply H.
    apply in_flat_map. exists (sender, g).
    split; [now apply assoc_some_in | exact He].
  - simpl. eauto.
Qed.

(** ** A scan that succeeds *)

Lemma group_by_sender_inv labeled grouped :
  group_by_sender labeled = Ok grouped ->
  Forall (fun e => inherited (sender_key e) = false) labeled /\
  grouping_of labeled grouped.
Proof.
  intros H.
  assert (Forall (fun e => inherited (sender_key e) = false) labeled) as Hall.
  { apply Forall_forall. intros e He.
    destruct (inherited (sender_key e)) eqn:E; [|reflexivity].
    rewrite group_by_sender_throws in H; [discriminate|].
    apply Exists_exists. now exists e. }
  split; [exact Hall|].
  destruct (group_by_sender_partition _ Hall) as (g & Hg & Hinv & _).
  congruence.
Qed.

(** On success the snapshot stored and shown is the grouping of the
    labeled emails. *)
Lemma scan_success w p p' :
  scan w p = (Ok tt, p') ->
  exists settings labeled q state,
    scan_collect w p = (Ok (settings, labeled), q) /\
    grouping_of labeled (ScanState.grouped state) /\
    ScanState.total state = length_Z labeled /\
    ScanState.query state = Settings.query settings /\
    LS_LAST p' = Some state /\ rendered p' = Some state.
Proof.
  unfold scan, bind at 1.
  destruct (scan_collect w p) as [[[settings labeled]|e] q] eqn:C;
    [|discriminate].
  cbn [fst snd]. unfold scan_finish, bind at 1, lift.
  destruct (group_by_sender labeled) as [grouped|e] eqn:G; [|discriminate].
  unfold bind at 1, read. unfold bind at 1, localStorage_setItem_LAST,
    update at 1. unfold bind at 1, render_page, bind at 1, lift.
  match goal with
  | |- context [render ?s] => set (state := s); destruct (render state) as [v|e]
  end; [|discriminate].
  unfold update, setStatus, update. intros [= <-].
  exists settings, labeled, q, state.
  apply group_by_sender_inv in G as [_ G].
  split; [reflexivity|]. split; [exact G|]. repeat split.
Qed.

(** ** The counts of a render *)

(** C10 (amended).  For a state in which the action, the category, the
    summary and the reason of every decision are absent, falsy or
    strings, [render] returns, the keep, trash and review counts of each
    section add up to the number of emails of its group, the review
    count being the number of emails whose action is missing, empty or a
    word other than keep and trash, and the three totals of the summary
    add up to the number of emails of all groups. *)
Theorem render_counts_add_up state :
  NoDup (map fst (ScanState.grouped state)) ->
  Forall (fun e => printable (Email.decision e))
         (all_emails (ScanState.grouped state)) ->
  exists v,
    render state = Ok v /\
    Forall section_adds_up (view_sections v) /\
    Forall2 (fun sender s =>
               sec_total s
                 = length_Z (emails_of (ScanState.grouped state) sender) /\
               sec_review s
                 = length_Z (filter counted_as_review
                               (emails_of (ScanState.grouped state) sender)))
            (sorted_senders (ScanState.grouped state)) (view_sections v) /\
    (sum_keep (view_summary v) + sum_trash (view_summary v)
     + sum_review (view_summary v)
     = total_emails (ScanState.grouped state))%Z.
Proof.
  intros Hnd Hp. destruct (render_total state Hp) as [v Hv].
  exists v. split; [exact Hv|]. exact (render_counts state v Hnd Hv).
Qed.

Lemma render_counts_add_up_witness :
  exists v,
    render Newsletter.state = Ok v /\
    Forall section_adds_up (view_sections v) /\
    map (fun s => (sec_total s, sec_keep s, sec_trash s, sec_review s))
        (view_sections v) = [(5, 1, 1, 3)%Z] /\
    (sum_keep (view_summary v) + sum_trash (view_summary v)
     + sum_review (view_summary v) = 5)%Z.
Proof.
  assert (NoDup (map fst (ScanState.grouped Newsletter.state))) as Hnd
      by (repeat constructor; simpl; tauto).
  assert (Forall (fun e => printable (Email.decision e))
                 (all_emails (ScanState.grouped Newsletter.state))) as Hp
      by (repeat constructor; eexists; reflexivity).
  destruct (render_counts_add_up Newsletter.state Hnd Hp)
    as (v & Hv & Hall & _ & Hsum).
  exists v. split; [exact Hv|]. split; [exact Hall|].
  split; [|exact Hsum].
  vm_compute in Hv. injection Hv as <-. reflexivity.
Defined.

(** C10 (counterexample).  A decision whose action is the number 5:
    line 265 calls [toLowerCase] on it, [render] throws a [TypeError] and
    shows nothing, so no count is made at all, and the email is not
    counted as review. *)
Lemma render_throws_on_numeric_action :
  NoDup (map fst (ScanState.grouped NumericAction.state)) /\
  get_opt (Email.decision
             (hd Sample.m1 (all_emails (ScanState.grouped
                                          NumericAction.state))))
          "action" = VNum 5 0 /\
  render NumericAction.state = Throw TypeError.
Proof.
  split; [repeat constructor; simpl; tauto|]. split; reflexivity.
Qed.

(** * Further properties of the script *)

(** ** Pure helpers *)

Lemma or_else_unknown_fixed s :
  toLowerCase s = s -> trim s = s ->
  toLowerCase (or_else s "(unknown)") = or_else s "(unknown)" /\
  trim (or_else s "(unknown)") = or_else s "(unknown)".
Proof. destruct s; [split; reflexivity | intros; now split]. Qed.

(** X1.  Whatever the header, the normalized sender is already lower case
    and has no white space at either end. *)
Theorem normalizeSender_is_canonical h :
  toLowerCase (normalizeSender h) = normalizeSender h /\
  trim (normalizeSender h) = normalizeSender h.
Proof.
  unfold normalizeSender.
  destruct (match_angle (or_empty h)) as [m|].
  - split; [apply toLowerCase_idem|].
    now rewrite trim_lower, trim_idem.
  - apply or_else_unknown_fixed; [apply toLowerCase_idem|].
    now rewrite trim_lower, trim_idem.
Qed.

(** X2.  Normalizing a sender that is not empty gives it back: every
    sender the scan stores is a fixed point of [normalizeSender], apart
    from the empty one. *)
Theorem normalizeSender_fixed_point h :
  normalizeSender h <> "" ->
  normalizeSender (Some (normalizeSender h)) = normalizeSender h.
Proof. apply normalizeSender_idempotent_nonempty. Qed.

Lemma normalizeSender_fixed_point_witness :
  normalizeSender (Some (normalizeSender (Some "Alice Doe <Alice@Example.COM>")))
  = normalizeSender (Some "Alice Doe <Alice@Example.COM>").
Proof.
  apply (normalizeSender_fixed_point (Some "Alice Doe <Alice@Example.COM>")).
  vm_compute. discriminate.
Defined.

Lemma contains_app f a b :
  contains f (a ++ b) = contains f a || contains f b.
Proof.
  induction a as [|c a IH]; simpl; [reflexivity|].
  now rewrite IH, orb_assoc.
Qed.

Lemma esc_char_clean c : contains is_markup (esc_char c) = false.
Proof. each_char c. Qed.

Lemma string_app_assoc (a b c : string) : (a ++ b) ++ c = a ++ (b ++ c).
Proof. induction a as [|x a IH]; simpl; [reflexivity | now rewrite IH]. Qed.

(** X3.  Escaped text holds no [<], no [>] and no double quote, and
    escaping goes piece by piece: the markup that [render] assembles from
    escaped pieces cannot be broken by a subject, a sender or a
    reason. *)
Theorem esc_leaves_no_markup s t :
  contains is_markup (esc s) = false /\ esc (s ++ t) = esc s ++ esc t.
Proof.
  split.
  - induction s as [|c s IH]; simpl; [reflexivity|].
    now rewrite contains_app, esc_char_clean, IH.
  - induction s as [|c s IH]; simpl; [reflexivity|].
    now rewrite IH, string_app_assoc.
Qed.

Lemma find_first A (f : A -> bool) pre x post :
  Forall (fun a => f a = false) pre -> f x = true ->
  find f (pre ++ x :: post) = Some x.
Proof.
  induction 1 as [|a pre Ha _ IH]; simpl; intros Hx.
  - now rewrite Hx.
  - rewrite Ha. now apply IH.
Qed.

Lemma find_none_all A (f : A -> bool) l :
  Forall (fun a => f a = false) l -> find f l = None.
Proof. induction 1 as [|a l Ha _ IH]; simpl; [reflexivity | now rewrite Ha]. Qed.

(** X4.  [headerValue] compares header names without regard to case and
    returns the value of the first header that matches; when none
    matches it returns the empty string. *)
Theorem headerValue_first_match msg name :
  (forall pre n v post,
     headers msg = (pre ++ (n, v) :: post)%list ->
     toLowerCase n = toLowerCase name ->
     Forall (fun h => toLowerCase (fst h) <> toLowerCase name) pre ->
     headerValue msg name = v) /\
  (Forall (fun h => toLowerCase (fst h) <> toLowerCase name) (headers msg) ->
   headerValue msg name = "").
Proof.
  assert (forall l,
            Forall (fun h : string * string =>
                      toLowerCase (fst h) <> toLowerCase name) l ->
            Forall (fun h => String.eqb (toLowerCase (fst h))
                               (toLowerCase name) = false) l) as Hneq.
  { intros l H. eapply Forall_impl; [|exact H].
    intros h Hh. now apply String.eqb_neq. }
  unfold headerValue. split.
  - intros pre n v post -> Hn Hpre.
    rewrite (find_first _ _ _ (n, v) _ (Hneq _ Hpre)); [reflexivity|].
    simpl. now apply String.eqb_eq.
  - intros H. now rewrite (find_none_all _ _ _ (Hneq _ H)).
Qed.

Lemma headerValue_first_match_witness :
  headerValue {| headers := [("Subject", "Hi"); ("FROM", "a@x.io");
                             ("From", "b@x.io")];
                 msg_snippet := None |} "From" = "a@x.io".
Proof.
  apply (proj1 (headerValue_first_match
                  {| headers := [("Subject", "Hi"); ("FROM", "a@x.io");
                                 ("From", "b@x.io")];
                     msg_snippet := None |} "From")
               [("Subject", "Hi")] "FROM" "a@x.io" [("From", "b@x.io")]).
  - reflexivity.
  - reflexivity.
  - repeat constructor. vm_compute. discriminate.
Defined.

(** ** Mailbox client *)

Lemma gmailFetch_disconnected A
    (service : list request -> request -> fetched A) method path params p :
  disconnected p ->
  gmailFetch service method path params p = (Throw not_connected, p).
Proof.
  unfold gmailFetch, bind, read. intros [H|H]; now rewrite H.
Qed.

Lemma gmailFetch_connected A
    (service : list request -> request -> fetched A) method path params
    tok p :
  connected tok p ->
  gmailFetch service method path params p =
  (match service (requests p) (GmailRequest method path params tok) with
   | Rejected => Throw NetworkError
   | Response ok st txt json =>
       if ok then
         match json with
         | Some data => Ok data
         | None => Throw SyntaxError
         end
       else Throw (Error ("Gmail API error " ++ string_of_nat st
                          ++ ": " ++ txt))
   end,
   with_requests (requests p ++ [GmailRequest method path params tok]) p).
Proof.
  intros [Ht He]. unfold gmailFetch, bind, read, send, throw, ret.
  rewrite Ht, He.
  destruct (service _ _) as [|[] st txt [data|]]; reflexivity.
Qed.

Lemma mailbox_disconnected w p :
  disconnected p ->
  (forall query maxResults,
     listMessageIds w query maxResults p = (Throw not_connected, p)) /\
  (forall id, getMessageMeta w id p = (Throw not_connected, p)) /\
  (forall id, trashMessage w id p = (Throw not_connected, p)).
Proof.
  intros H. unfold listMessageIds, getMessageMeta, trashMessage, bind.
  repeat split; intros; now rewrite (gmailFetch_disconnected _ _ _ _ _ _ H).
Qed.

(** X5.  Without an access token the three mailbox operations throw the
    not-connected error at once and leave the page as it is: nothing is
    sent. *)
Theorem mailbox_needs_token w p query maxResults id :
  disconnected p ->
  listMessageIds w query maxResults p = (Throw not_connected, p) /\
  getMessageMeta w id p = (Throw not_connected, p) /\
  trashMessage w id p = (Throw not_connected, p).
Proof.
  intros H. destruct (mailbox_disconnected w p H) as (Hl & Hg & Ht).
  now rewrite Hl, Hg, Ht.
Qed.

Lemma mailbox_needs_token_witness :
  trashMessage BulkTrash.world "t1" (signed_out BulkTrash.page)
  = (Throw not_connected, signed_out BulkTrash.page).
Proof.
  apply (mailbox_needs_token BulkTrash.world (signed_out BulkTrash.page)
           "" (Fin 50 0) "t1").
  left. reflexivity.
Defined.

(** X6.  With a token, [trashMessage] sends exactly one request, the POST
    to [messages/<id>/trash] bearing that token, and changes nothing else
    on the page; it returns iff the endpoint answers with a success status
    and a JSON body. *)
Theorem trashMessage_one_request w id tok p :
  connected tok p ->
  snd (trashMessage w id p)
    = with_requests (requests p ++ [trash_request tok id]) p /\
  (fst (trashMessage w id p) = Ok tt <->
   exists st txt,
     trash_service w (requests p) (trash_request tok id)
     = Response true st txt (Some tt)).
Proof.
  intros H. unfold trashMessage, bind.
  rewrite (gmailFetch_connected _ _ _ _ _ _ _ H).
  fold (trash_request tok id).
  destruct (trash_service w (requests p) (trash_request tok id))
    as [|[] st txt [[]|]]; cbn; split; try reflexivity; split;
    try discriminate; try (intros (? & ? & ?); discriminate).
  - intros _. now exists st, txt.
  - reflexivity.
Qed.

Lemma trashMessage_one_request_witness :
  requests (snd (trashMessage BulkTrash.world "t2" BulkTrash.page))
  = [trash_request "ya29.token" "t2"].
Proof.
  rewrite (proj1 (trashMessage_one_request BulkTrash.world "t2"
                    "ya29.token" BulkTrash.page
                    (conj eq_refl eq_refl))).
  reflexivity.
Defined.

(** ** Batches *)

Lemma batches_fuel_enough A size (l : list A) :
  (1 <= size)%nat ->
  forall fuel, (length l <= fuel)%nat ->
    batches_fuel fuel size l = batches size l.
Proof.
  intros Hs. unfold batches.
  assert (forall fuel fuel' (l : list A),
            (length l <= fuel)%nat -> (length l <= fuel')%nat ->
            batches_fuel fuel size l = batches_fuel fuel' size l) as H.
  { induction fuel as [|fuel IH]; intros fuel' l0 H1 H2.
    - destruct l0; [|simpl in H1; lia]. now destruct fuel'.
    - destruct l0 as [|a l0]; [now destruct fuel'|].
      destruct fuel' as [|fuel']; [simpl in H2; lia|].
      cbn [batches_fuel]. f_equal.
      apply IH; rewrite length_skipn; cbn [length] in *; lia. }
  intros fuel Hf. apply H; [exact Hf | lia].
Qed.






(** ** The requests of a scan *)

Lemma connected_or_not p : (exists tok, connected tok p) \/ disconnected p.
Proof.
  unfold connected, disconnected.
  destruct (accessToken p) as [[|c t]|]; eauto.
Qed.

Lemma connected_not_disconnected tok p :
  connected tok p -> disconnected p -> False.
Proof.
  intros [Ht He] [Hd|Hd]; rewrite Hd in Ht; [discriminate|].
  injection Ht as <-. discriminate.
Qed.

Lemma connected_with_requests tok l p :
  connected tok p -> connected tok (with_requests l p).
Proof. exact (fun H => H). Qed.

Lemma scan_collect_unfold w p :
  scan_collect w p = collect_rest w (settings_of_form (form p)) (began p).
Proof. reflexivity. Qed.

Lemma listMessageIds_ok_inv w settings p ids p' :
  listMessageIds w (Settings.query settings) (Settings.maxMessages settings) p
    = (Ok ids, p') ->
  exists tok,
    connected tok p /\
    p' = with_requests (requests p ++ [list_request settings tok]) p.
Proof.
  intros H. destruct (connected_or_not p) as [[tok Hc]|Hd].
  - exists tok. split; [exact Hc|].
    unfold listMessageIds, bind in H.
    rewrite (gmailFetch_connected _ _ _ _ _ _ _ Hc) in H.
    fold (list_request settings tok) in H.
    destruct (list_service w _ _) as [|[] st txt [data|]];
      try discriminate.
    now injection H as _ <-.
  - unfold listMessageIds, bind in H.
    rewrite (gmailFetch_disconnected _ _ _ _ _ _ Hd) in H. discriminate.
Qed.

Lemma getMessageMeta_ok_inv w id tok p e p' :
  connected tok p ->
  getMessageMeta w id p = (Ok e, p') ->
  p' = with_requests (requests p ++ [meta_request tok id]) p /\
  Email.id e = id /\ fresh_meta e.
Proof.
  intros Hc H. unfold getMessageMeta, bind in H.
  rewrite (gmailFetch_connected _ _ _ _ _ _ _ Hc) in H.
  change (GmailRequest "GET" ("messages/" ++ id) metadata_params tok)
    with (meta_request tok id) in H.
  destruct (get_service w _ _) as [|[] st txt [data|]]; try discriminate.
  injection H as <- <-. repeat split.
Qed.

Lemma for_each_meta_log w tok ids :
  forall p metas p',
    connected tok p ->
    for_each (getMessageMeta w) ids p = (Ok metas, p') ->
    p' = with_requests (requests p ++ map (meta_request tok) ids) p /\
    map Email.id metas = ids /\ Forall fresh_meta metas.
Proof.
  induction ids as [|id ids IH]; intros p metas p' Hc; simpl.
  - intros [= <- <-]. rewrite app_nil_r. repeat split; [|constructor].
    now destruct p.
  - unfold bind at 1.
    destruct (getMessageMeta w id p) as [[e|x] p1] eqn:G; [|discriminate].
    apply (getMessageMeta_ok_inv _ _ _ _ _ _ Hc) in G as (-> & Hid & Hf).
    unfold bind at 1.
    destruct (for_each (getMessageMeta w) ids _) as [[es|x] p2] eqn:F;
      [|discriminate].
    apply IH in F as (-> & Hids & Hfs);
      [|now apply connected_with_requests].
    intros [= <- <-]. simpl. rewrite Hid, Hids. repeat split.
    + destruct p; cbn. now rewrite <- app_assoc.
    + now constructor.
Qed.

Lemma firstn_min A (l : list A) n :
  firstn (Nat.min n (length l)) l = firstn n l.
Proof.
  destruct (Nat.le_ge_cases n (length l)) as [H|H].
  - now rewrite Nat.min_l.
  - rewrite Nat.min_r by exact H. now rewrite !firstn_all2 by lia.
Qed.

Lemma integer_at_least_one x z :
  is_integer x z -> at_least x 1 -> (1 <= z)%Z.
Proof.
  destruct x as [| | | |m e]; unfold is_integer, at_least; try tauto;
    lia.
Qed.

(** With a step that is an integer, the slices are the pieces of
    [batches]. *)
Lemma cuts_integer A (l : list A) step size :
  is_integer step (Z.of_nat size) -> (1 <= size)%nat ->
  (Z.of_nat (length l) + Z.of_nat size < 2 ^ 53)%Z ->
  forall fuel i a,
    is_integer i (Z.of_nat a) ->
    cuts step fuel i l = batches_fuel fuel size (skipn a l).
Proof.
  intros Hs H1 Hlen. induction fuel as [|fuel IH]; intros i a Hi;
    [reflexivity|].
  cbn [cuts batches_fuel].
  destruct (integer_index i (Z.of_nat a) (length l) Hi) as [Hidx ->]; [lia|].
  destruct (Z.of_nat a <? Z.of_nat (length l))%Z eqn:E.
  - apply Z.ltb_lt in E.
    assert (is_integer (Number_add i step) (Z.of_nat (a + size))) as Hn.
    { rewrite Nat2Z.inj_add. apply Number_add_integer; (assumption || lia). }
    destruct (integer_index _ _ (length l) Hn) as [Hidx' _]; [lia|].
    destruct (skipn a l) as [|x rest] eqn:S.
    { apply (f_equal (@length A)) in S. rewrite length_skipn in S.
      simpl in S. lia. }
    rewrite <- S. f_equal.
    + unfold Array_slice, slice. rewrite Hidx, Hidx'.
      rewrite <- (firstn_min _ (skipn a l) size), length_skipn.
      replace (Z.to_nat (Z.min (Z.of_nat a) (Z.of_nat (length l))))
        with a by lia.
      f_equal. lia.
    + rewrite (IH _ (a + size)%nat Hn), skipn_skipn.
      f_equal. f_equal. lia.
  - apply Z.ltb_ge in E. rewrite skipn_all2 by lia. reflexivity.
Qed.

(** The slices of a run of the loop that returned, for fewer than 2^32
    emails. *)
Lemma classify_all_slices w settings metas p labeled p' :
  (Z.of_nat (length metas) < 2 ^ 32)%Z ->
  classify_all w settings metas p = (Ok labeled, p') ->
  requests p'
  = (requests p ++
     map (groq_request settings)
         (cuts (effective_batchSize settings) (length metas) (Fin 0 0)
               metas))%list /\
  concat (cuts (effective_batchSize settings) (length metas) (Fin 0 0)
               metas) = metas /\
  Forall (fun b => b <> [])
         (cuts (effective_batchSize settings) (length metas) (Fin 0 0)
               metas) /\
  map Email.id labeled = map Email.id metas.
Proof.
  intros Hlen H.
  assert (Z.of_nat (length metas) <= 2 ^ 53)%Z as Hlen' by lia.
  pose proof (effective_batchSize_positive settings) as Hb.
  pose proof (classify_all_ids _ _ _ _ _ _ Hlen' H) as Hids.
  unfold classify_all in H. apply classify_from_cuts in H as (Hr & _).
  destruct (cuts_cover _ metas _ Hb Hlen' (length metas) (Fin 0 0) 0%Z)
    as [Hc Hn]; [cbn; lia|lia|lia|].
  rewrite relative_index_zero in Hc.
  split; [exact Hr|]. split; [exact Hc|]. split; [exact Hn|exact Hids].
Qed.

(** With an integer size the slices are the consecutive pieces of that
    size. *)
Lemma integer_slices settings (metas : list Email.t) size :
  is_integer (effective_batchSize settings) (Z.of_nat size) ->
  (Z.of_nat size < 2 ^ 52)%Z ->
  (Z.of_nat (length metas) < 2 ^ 32)%Z ->
  (1 <= size)%nat /\
  cuts (effective_batchSize settings) (length metas) (Fin 0 0) metas
  = batches size metas.
Proof.
  intros Hs Hsize Hlen.
  pose proof (effective_batchSize_positive settings) as Hb.
  assert (1 <= size)%nat as H1
      by (pose proof (integer_at_least_one _ _ Hs Hb); lia).
  split; [exact H1|].
  rewrite (cuts_integer _ metas _ size Hs H1) with (a := 0%nat);
    [reflexivity|lia|cbn; lia].
Qed.



(** Three emails and a batch size of two: a batch of two, then one. *)
Example two_batches :
  batches 2 [Sample.m1; Sample.m2; Sample.m3]
  = [[Sample.m1; Sample.m2]; [Sample.m3]].
Proof. reflexivity. Qed.

(** Seven emails and a batch size of 2.5: the loop index runs through 0,
    2.5 and 5, and the slices hold two, three and two emails. *)
Example fractional_batches :
  map (@length nat)
      (cuts (Fin 5 (-1)) 7 (Fin 0 0) [1; 2; 3; 4; 5; 6; 7]%nat)
  = [2; 3; 2]%nat /\
  map (fun r => match r with
                | GroqRequest _ body =>
                    match user_content body with
                    | VObj [(_, VArr l)] => length l
                    | _ => O
                    end
                | GmailRequest _ _ _ _ => O
                end)
      (skipn 8 (requests (snd (scan Fractional.world Fractional.page))))
  = [2; 3; 2]%nat.
Proof. vm_compute. split; reflexivity. Qed.

(** X8.  A scan whose three remote steps return has sent, in this order,
    one listing built from the settings just saved ([maxResults] as
    [String] prints the number, [q] when the trimmed query is not
    empty), one read per listed id with [format=metadata] and the four
    headers, and one classification per slice of the fetched metadata.
    For a listing of fewer than 2^32 ids the labeled emails are the
    listed ids in the order of the listing, the slices together are the
    fetched metadata, and for an integer batch size they are the
    consecutive pieces of that size. *)
Theorem scan_request_log w p settings labeled p' :
  scan_collect w p = (Ok (settings, labeled), p') ->
  exists tok ids metas,
    connected tok p /\
    settings = settings_of_form (form p) /\
    requests p' =
      (requests p ++
         list_request settings tok ::
         map (meta_request tok) ids ++
         map (groq_request settings)
             (cuts (effective_batchSize settings) (length metas)
                   (Fin 0 0) metas))%list /\
    map Email.id metas = ids /\ Forall fresh_meta metas /\
    ((Z.of_nat (length ids) < 2 ^ 32)%Z ->
     map Email.id labeled = ids /\
     concat (cuts (effective_batchSize settings) (length metas)
                  (Fin 0 0) metas) = metas /\
     forall size,
       is_integer (effective_batchSize settings) (Z.of_nat size) ->
       (Z.of_nat size < 2 ^ 52)%Z ->
       cuts (effective_batchSize settings) (length metas) (Fin 0 0) metas
       = batches size metas).
Proof.
  rewrite scan_collect_unfold. unfold collect_rest, bind at 1.
  destruct (listMessageIds w _ _ (began p)) as [[ids|x] p1] eqn:L;
    [|discriminate].
  apply listMessageIds_ok_inv in L as (tok & Hc & ->).
  unfold bind at 1.
  destruct (for_each (getMessageMeta w) ids _) as [[metas|x] p2] eqn:F;
    [|discriminate].
  apply (for_each_meta_log w tok) in F as (-> & Hids & Hfresh);
    [|exact Hc].
  unfold bind at 1.
  destruct (classify_all w _ metas _) as [[out|x] p3] eqn:C; [|discriminate].
  intros [= <- <- <-].
  exists tok, ids, metas. split; [exact Hc|]. split; [reflexivity|].
  split; [|split; [exact Hids|split; [exact Hfresh|]]].
  - unfold classify_all in C. apply classify_from_cuts in C as (Hr & _).
    rewrite Hr. cbn. now rewrite <- !app_assoc.
  - intros Hlen.
    assert (Z.of_nat (length metas) < 2 ^ 32)%Z as Hlen'
        by (rewrite <- Hids, length_map in Hlen; exact Hlen).
    destruct (classify_all_slices _ _ _ _ _ _ Hlen' C)
      as (_ & Hcat & _ & Hid).
    split; [congruence|]. split; [exact Hcat|].
    intros size Hs Hsize.
    exact (proj2 (integer_slices _ metas size Hs Hsize Hlen')).
Qed.

Lemma scan_request_log_witness :
  exists tok ids metas,
    connected tok TwoBatches.page /\
    settings_of_form (form TwoBatches.page)
      = settings_of_form (form TwoBatches.page) /\
    requests (snd (scan_collect TwoBatches.world TwoBatches.page)) =
      (requests TwoBatches.page ++
         list_request (settings_of_form (form TwoBatches.page)) tok ::
         map (meta_request tok) ids ++
         map (groq_request (settings_of_form (form TwoBatches.page)))
             (cuts (effective_batchSize
                      (settings_of_form (form TwoBatches.page)))
                   (length metas) (Fin 0 0) metas))%list /\
    map Email.id metas = ids /\ Forall fresh_meta metas /\
    ((Z.of_nat (length ids) < 2 ^ 32)%Z ->
     map Email.id
         (match fst (scan_collect TwoBatches.world TwoBatches.page) with
          | Ok r => snd r
          | Throw _ => []
          end) = ids /\
     concat (cuts (effective_batchSize
                     (settings_of_form (form TwoBatches.page)))
                  (length metas) (Fin 0 0) metas) = metas /\
     forall size,
       is_integer (effective_batchSize
                     (settings_of_form (form TwoBatches.page)))
                  (Z.of_nat size) ->
       (Z.of_nat size < 2 ^ 52)%Z ->
       cuts (effective_batchSize (settings_of_form (form TwoBatches.page)))
            (length metas) (Fin 0 0) metas
       = batches size metas).
Proof.
  apply (scan_request_log TwoBatches.world TwoBatches.page).
  vm_compute. reflexivity.
Defined.

(** The scan of three messages with a batch size of two, request by
    request. *)
Example scan_three_messages :
  map (fun r => match r with
                | GmailRequest m path params _ => (m, path, length params)
                | GroqRequest _ body =>
                    ("POST", "chat/completions",
                     match user_content body with
                     | VObj [(_, VArr l)] => length l
                     | _ => O
                     end)
                end)
      (requests (snd (scan TwoBatches.world TwoBatches.page)))
  = [ ("GET", "messages", 2%nat); ("GET", "messages/m1", 5%nat);
      ("GET", "messages/m2", 5%nat); ("GET", "messages/m3", 5%nat);
      ("POST", "chat/completions", 2%nat);
      ("POST", "chat/completions", 1%nat) ].
Proof. vm_compute. reflexivity. Qed.

(** ** What a scan keeps, whatever its outcome *)

Section TailFrame.

Variable w : World.
Variable R : Page -> Page -> Prop.
Hypothesis R_refl : forall p, R p p.
Hypothesis R_trans : forall p q r, R p q -> R q r -> R p r.
Hypothesis R_list : forall q m, respects R (listMessageIds w q m).
Hypothesis R_get : forall id, respects R (getMessageMeta w id).
Hypothesis R_groq :
  forall settings emails, respects R (groqClassifyBatch w settings emails).
(** [R] admits every update that leaves the settings document, the form,
    the token and the request log alone. *)
Hypothesis R_update :
  forall (f : Page -> Page),
    (forall p, LS_KEY (f p) = LS_KEY p /\ form (f p) = form p /\
               accessToken (f p) = accessToken p /\
               requests (f p) = requests p) ->
    forall p, R p (f p).

Lemma classify_from_tail settings metas batchSize fuel :
  forall i labeled,
    respects R (classify_from w settings metas batchSize fuel i labeled).
Proof.
  induction fuel as [|fuel IH]; intros i labeled; simpl.
  - apply (respects_ret _ R_refl).
  - destruct (Number_lessThan i _); [|apply (respects_ret _ R_refl)].
    apply (respects_bind _ R_trans); [apply R_groq|].
    intros out. apply (respects_bind _ R_trans); [|intros _; apply IH].
    apply respects_update. apply R_update. now intros [].
Qed.

Lemma collect_rest_tail settings : respects R (collect_rest w settings).
Proof.
  unfold collect_rest, classify_all.
  apply (respects_bind _ R_trans); [apply R_list|].
  intros ids. apply (respects_bind _ R_trans).
  { apply (respects_for_each _ R_refl R_trans). apply R_get. }
  intros metas. apply (respects_bind _ R_trans);
    [apply classify_from_tail|].
  intros labeled. apply (respects_ret _ R_refl).
Qed.

Lemma scan_finish_tail settings labeled :
  respects R (scan_finish w settings labeled).
Proof.
  unfold scan_finish, render_page, localStorage_setItem_LAST, setStatus.
  frame_steps R_refl R_trans;
    apply respects_update; apply R_update; now intros [].
Qed.

Lemma scan_tail p r p' : scan w p = (r, p') -> R (began p) p'.
Proof.
  change (scan w p)
    with (bind (collect_rest w (settings_of_form (form p)))
               (fun x => scan_finish w (fst x) (snd x)) (began p)).
  apply (respects_bind _ R_trans).
  - apply collect_rest_tail.
  - intros x. apply scan_finish_tail.
Qed.

End TailFrame.

Lemma keeps_credentials_refl p : keeps_credentials p p.
Proof.
  repeat split. exists []. split; [now rewrite app_nil_r | constructor].
Qed.

Lemma keeps_credentials_trans p q r :
  keeps_credentials p q -> keeps_credentials q r -> keeps_credentials p r.
Proof.
  intros (K1 & F1 & T1 & s1 & E1 & H1) (K2 & F2 & T2 & s2 & E2 & H2).
  repeat split; try congruence.
  exists (s1 ++ s2)%list. split.
  - now rewrite E2, E1, app_assoc.
  - apply Forall_app. split; [exact H1|]. now rewrite <- T1.
Qed.

Lemma gmailFetch_keeps_credentials A
    (service : list request -> request -> fetched A) method path params :
  respects keeps_credentials (gmailFetch service method path params).
Proof.
  intros p r p' H. destruct (connected_or_not p) as [[tok Hc]|Hd].
  - rewrite (gmailFetch_connected _ _ _ _ _ _ _ Hc) in H.
    injection H as _ <-. repeat split.
    eexists. split; [reflexivity|]. constructor; [|constructor].
    exact Hc.
  - rewrite (gmailFetch_disconnected _ _ _ _ _ _ Hd) in H.
    injection H as _ <-. apply keeps_credentials_refl.
Qed.

Lemma groqClassifyBatch_keeps_credentials w settings emails :
  respects keeps_credentials (groqClassifyBatch w settings emails).
Proof.
  intros p r p' H.
  destruct (is_empty (Settings.groqKey settings)) eqn:K.
  - rewrite (groqClassifyBatch_no_key _ _ _ _ K) in H.
    injection H as _ <-. apply keeps_credentials_refl.
  - rewrite (groqClassifyBatch_unfold _ _ _ _ K) in H.
    injection H as _ <-. repeat split.
    eexists. split; [reflexivity|]. constructor; [exact K|constructor].
Qed.

Lemma scan_keeps_credentials w p r p' :
  scan w p = (r, p') -> keeps_credentials (began p) p'.
Proof.
  apply scan_tail.
  - exact keeps_credentials_refl.
  - exact keeps_credentials_trans.
  - intros q m. unfold listMessageIds.
    apply (respects_bind _ keeps_credentials_trans);
      [apply gmailFetch_keeps_credentials|].
    intros d. apply (respects_ret _ keeps_credentials_refl).
  - intros id. unfold getMessageMeta.
    apply (respects_bind _ keeps_credentials_trans);
      [apply gmailFetch_keeps_credentials|].
    intros d. apply (respects_ret _ keeps_credentials_refl).
  - apply groqClassifyBatch_keeps_credentials.
  - intros f H q. destruct (H q) as (H1 & H2 & H3 & H4).
    repeat split; try assumption.
    exists []. split; [now rewrite app_nil_r | constructor].
Qed.

(** X9.  A scan first stores the settings read from the form: the text
    fields trimmed, the model as it is, and each numeric field as
    [JSON.stringify] writes the number that [Number] makes of its text
    (the nearest double; [null] when that is NaN or infinite), or 10 and
    50 when the field is empty.  The document stays stored, and the form
    is as it was, whether the scan then returns or throws. *)
Theorem scan_saves_settings_first w p :
  LS_KEY (snd (scan w p))
  = Some (SettingsDocument.mk
            (trim (Form.googleClientId (form p)))
            (trim (Form.groqKey (form p)))
            (Form.groqModel (form p))
            (match Form.batchSize (form p) with
             | Some x => JSON_number (to_double x)
             | None => Some "10"
             end)
            (match Form.maxMessages (form p) with
             | Some x => JSON_number (to_double x)
             | None => Some "50"
             end)
            (trim (Form.query (form p)))) /\
  form (snd (scan w p)) = form p.
Proof.
  destruct (scan w p) as [r p'] eqn:E.
  apply scan_keeps_credentials in E as (K & F & _).
  cbn [snd]. split; [|exact F]. rewrite K. unfold began. cbn [LS_KEY with_rendered
    with_results with_summary with_status with_LS_KEY].
  unfold JSON_stringify_settings, settings_of_form, number_or.
  cbn [Settings.googleClientId Settings.groqKey Settings.groqModel
       Settings.batchSize Settings.maxMessages Settings.query].
  destruct (Form.batchSize (form p)), (Form.maxMessages (form p));
    reflexivity.
Qed.

(** The numbers of the form as a scan stores and sends them: 2.5 stays
    2.5, and 9007199254740993, which is no double, becomes
    9007199254740992, in the document and in the listing request. *)
Example scan_stores_doubles :
  LS_KEY (snd (scan Fractional.world Fractional.page))
  = Some (SettingsDocument.mk "client-id" "gsk_key" "llama-3.1-8b-instant"
            (Some "2.5") (Some "9007199254740992") "") /\
  nth_error (requests (snd (scan Fractional.world Fractional.page))) 0
  = Some (GmailRequest "GET" "messages"
            [("maxResults", "9007199254740992")] "ya29.token").
Proof. vm_compute. split; reflexivity. Qed.

(** [Number] and [String] on texts of other kinds: 10^21 is printed with
    an exponent, a text that is no number gives NaN, which is stored as
    [null], and which [|| 10] replaces by the default batch size. *)
Example numbers_as_text :
  Number_toString (number_or (Some (Fin (10 ^ 21) 0)) (Fin 50 0)) = "1e+21" /\
  Number_toString (number_or (Some NaN) (Fin 50 0)) = "NaN" /\
  JSON_number (number_or (Some NaN) (Fin 50 0)) = None /\
  Number_toString (number_or None (Fin 50 0)) = "50" /\
  effective_batchSize
    (settings_of_form
       (Form.mk "" "" "" (Some NaN) None "")) = Fin 10 0 /\
  Number_toString
    (effective_batchSize
       (settings_of_form
          (Form.mk "" "" "" (Some (Fin 0 0)) None ""))) = "10" /\
  Number_toString
    (effective_batchSize
       (settings_of_form
          (Form.mk "" "" "" (Some (Fin 1 (-1))) None ""))) = "1" /\
  Number_toString
    (effective_batchSize
       (settings_of_form
          (Form.mk "" "" "" (Some (Fin (-3) 0)) None ""))) = "1".
Proof. vm_compute. repeat split; reflexivity. Qed.

(** X10.  No request of a scan leaves without credentials: every mailbox
    request bears the non-empty access token the page holds, every
    classification request a non-empty API key; the token itself is not
    changed by the scan. *)
Theorem scan_sends_credentials w p :
  accessToken (snd (scan w p)) = accessToken p /\
  exists sent,
    requests (snd (scan w p)) = (requests p ++ sent)%list /\
    Forall (credentialed (accessToken p)) sent.
Proof.
  destruct (scan w p) as [r p'] eqn:E.
  apply scan_keeps_credentials in E as (_ & _ & T & H). now split.
Qed.

(** X11.  When a scan returns, the snapshot it stored is the one it
    rendered: its groups are the grouping of the labeled emails and
    rearrange them, its total is their number, the sections and the
    summary on the page are those of [render] on it, and nothing was
    sent after the last classification. *)
Theorem scan_stores_what_it_shows w p p' :
  scan w p = (Ok tt, p') ->
  exists settings labeled q state v,
    scan_collect w p = (Ok (settings, labeled), q) /\
    group_by_sender labeled = Ok (ScanState.grouped state) /\
    Permutation (all_emails (ScanState.grouped state)) labeled /\
    ScanState.total state = length_Z labeled /\
    ScanState.query state = Settings.query settings /\
    ScanState.generatedAt state = clock w (requests q) /\
    render state = Ok v /\
    LS_LAST p' = Some state /\ rendered p' = Some state /\
    results p' = view_sections v /\ summary p' = Some (view_summary v) /\
    requests p' = requests q.
Proof.
  unfold scan, bind at 1.
  destruct (scan_collect w p) as [[[settings labeled]|e] q] eqn:C;
    [|discriminate].
  cbn [fst snd]. unfold scan_finish, bind at 1, lift.
  destruct (group_by_sender labeled) as [grouped|e] eqn:G; [|discriminate].
  unfold bind at 1, read. unfold bind at 1, localStorage_setItem_LAST,
    update at 1. unfold bind at 1, render_page, bind at 1, lift.
  match goal with
  | |- context [render ?s] =>
      set (state := s); destruct (render state) as [v|e] eqn:V
  end; [|discriminate].
  unfold update, setStatus, update. intros [= <-].
  exists settings, labeled, q, state, v.
  pose proof (group_by_sender_inv _ _ G) as (_ & _ & _ & Hp).
  repeat split; try reflexivity; assumption.
Qed.

Lemma scan_stores_what_it_shows_witness :
  exists settings labeled q state v,
    scan_collect TwoBatches.world TwoBatches.page
      = (Ok (settings, labeled), q) /\
    group_by_sender labeled = Ok (ScanState.grouped state) /\
    Permutation (all_emails (ScanState.grouped state)) labeled /\
    ScanState.total state = length_Z labeled /\
    ScanState.query state = Settings.query settings /\
    ScanState.generatedAt state = clock TwoBatches.world (requests q) /\
    render state = Ok v /\
    LS_LAST (snd (scan TwoBatches.world TwoBatches.page)) = Some state /\
    rendered (snd (scan TwoBatches.world TwoBatches.page)) = Some state /\
    results (snd (scan TwoBatches.world TwoBatches.page))
      = view_sections v /\
    summary (snd (scan TwoBatches.world TwoBatches.page))
      = Some (view_summary v) /\
    requests (snd (scan TwoBatches.world TwoBatches.page)) = requests q.
Proof.
  apply (scan_stores_what_it_shows TwoBatches.world TwoBatches.page).
  vm_compute. reflexivity.
Defined.

(** ** The Scan button *)

(** X12.  The click handler of the Scan button never throws.  When the
    scan returns, the page is the one the scan left; when the scan
    throws, the page is the one on which it threw with the text of the
    exception as status: the message of an [Error] (or ["Error"] when it
    is empty), and for the other exceptions what the engine prints.
    Pressed while no token is held, it stores the settings, clears the
    results, sends nothing, leaves the last scan alone and shows the
    not-connected message. *)
Theorem btnScan_never_throws engine w p :
  fst (btnScan engine w p) = Ok tt /\
  (forall p', scan w p = (Ok tt, p') -> snd (btnScan engine w p) = p') /\
  (forall e p',
     scan w p = (Throw e, p') ->
     snd (btnScan engine w p)
     = with_status
         (match e with
          | Error m => if is_empty m then "Error" else m
          | _ => engine e
          end) p') /\
  (disconnected p ->
   snd (btnScan engine w p)
   = with_status "Not connected to Gmail yet. Tap Connect Gmail first."
       (began p)).
Proof.
  unfold btnScan, try_catch. split; [|split; [|split]].
  - destruct (scan w p) as [[[]|e] q]; reflexivity.
  - intros p' ->. reflexivity.
  - intros e p' ->. reflexivity.
  - intros H.
    assert (scan w p = (Throw not_connected, began p)) as ->; [|reflexivity].
    change (scan w p)
      with (bind (collect_rest w (settings_of_form (form p)))
                 (fun x => scan_finish w (fst x) (snd x)) (began p)).
    unfold bind at 1, collect_rest, bind at 1.
    assert (disconnected (began p)) as Hb by exact H.
    destruct (mailbox_disconnected w _ Hb) as [-> _]. reflexivity.
Qed.

Lemma btnScan_never_throws_witness :
  btnScan (fun _ => "TypeError") Outage.world Outage.page
  = (Ok tt,
     with_status "Gmail API error 503: Service Unavailable"
       (snd (scan Outage.world Outage.page))).
Proof.
  pose proof (btnScan_never_throws (fun _ => "TypeError") Outage.world
                Outage.page) as (H1 & _ & H2 & _).
  rewrite (surjective_pairing (btnScan _ _ _)), H1.
  rewrite (H2 (Error "Gmail API error 503: Service Unavailable")
              (snd (scan Outage.world Outage.page)));
    [reflexivity | vm_compute; reflexivity].
Defined.

(** ** More on grouping *)

Lemma group_push_sample grouped e grouped' :
  Forall (fun kg => sample_is_first (snd kg)) grouped ->
  group_push grouped e = Ok grouped' ->
  Forall (fun kg => sample_is_first (snd kg)) grouped'.
Proof.
  intros Hall. unfold group_push. cbv zeta.
  destruct (assoc (sender_key e) grouped) as [g|] eqn:Ha.
  - intros [= <-].
    destruct (assoc_split _ _ _ _
                (Group.with_emails (Group.emails g ++ [e]) g) Ha)
      as (pre & post & -> & ->).
    apply Forall_app in Hall as [Hpre Hrest].
    inversion Hrest as [|? ? Hg Hpost]; subst.
    apply Forall_app. split; [exact Hpre|]. constructor; [|exact Hpost].
    unfold sample_is_first in *. simpl in *.
    destruct (Group.emails g); [contradiction | exact Hg].
  - destruct (inherited (sender_key e)); [discriminate|].
    intros [= <-]. apply Forall_app. split; [exact Hall|].
    constructor; [reflexivity | constructor].
Qed.

Lemma group_from_sample labeled :
  forall grouped grouped',
    Forall (fun kg => sample_is_first (snd kg)) grouped ->
    group_from grouped labeled = Ok grouped' ->
    Forall (fun kg => sample_is_first (snd kg)) grouped'.
Proof.
  induction labeled as [|e rest IH]; intros grouped grouped' Hall; simpl.
  - now intros [= <-].
  - destruct (group_push grouped e) as [g1|] eqn:P; simpl; [|discriminate].
    apply IH. exact (group_push_sample _ _ _ Hall P).
Qed.

(** X13.  As long as no sender key is a property name that plain objects
    inherit, grouping returns and is a partition: the keys are distinct,
    each group is named by its key and holds, in their order, exactly the
    labeled emails with that key (at least one), its sample header is the
    From header of the first of them, and all groups together rearrange
    the labeled emails. *)
Theorem grouping_partitions labeled :
  Forall (fun e => inherited (sender_key e) = false) labeled ->
  exists grouped,
    group_by_sender labeled = Ok grouped /\
    NoDup (map fst grouped) /\
    Permutation (all_emails grouped) labeled /\
    Forall (fun kg =>
              Group.sender (snd kg) = fst kg /\
              Group.emails (snd kg) = filter (has_key (fst kg)) labeled /\
              Group.emails (snd kg) <> [] /\
              sample_is_first (snd kg))
           grouped.
Proof.
  intros Hall.
  destruct (group_by_sender_partition _ Hall)
    as (grouped & Hg & (Hnd & Hgr & Hp) & _).
  exists grouped. repeat split; try assumption.
  pose proof (group_from_sample labeled [] grouped (Forall_nil _) Hg) as Hs.
  rewrite Forall_forall in *. intros kg Hin.
  destruct (Hgr kg Hin) as (_ & H1 & H2 & H3). auto.
Qed.

Lemma grouping_partitions_witness :
  exists grouped,
    group_by_sender [Sample.m1; Sample.m3; Sample.m2] = Ok grouped /\
    NoDup (map fst grouped) /\
    Permutation (all_emails grouped) [Sample.m1; Sample.m3; Sample.m2] /\
    Forall (fun kg =>
              Group.sender (snd kg) = fst kg /\
              Group.emails (snd kg)
                = filter (has_key (fst kg))
                         [Sample.m1; Sample.m3; Sample.m2] /\
              Group.emails (snd kg) <> [] /\
              sample_is_first (snd kg))
           grouped.
Proof.
  apply grouping_partitions. repeat constructor.
Defined.

(** The two groups of that example, in creation order. *)
Example grouping_example :
  option_map (map (fun kg => (fst kg, map Email.id (Group.emails (snd kg)))))
    (match group_by_sender [Sample.m1; Sample.m3; Sample.m2] with
     | Ok g => Some g
     | Throw _ => None
     end)
  = Some [ ("deals@shop.example", ["m1"; "m2"]);
           ("alerts@bank.example", ["m3"]) ].
Proof. reflexivity. Qed.

(** X14.  Grouping throws, and then a [TypeError], exactly when some
    sender key is the name of a property inherited from
    [Object.prototype]. *)
Theorem grouping_fails_on_inherited_keys_only labeled :
  group_by_sender labeled = Throw TypeError <->
  Exists (fun e => inherited (sender_key e) = true) labeled.
Proof.
  split.
  - intros H.
    destruct (existsb (fun e => inherited (sender_key e)) labeled) eqn:E.
    + apply existsb_exists in E. now apply Exists_exists.
    + exfalso.
      assert (Forall (fun e => inherited (sender_key e) = false) labeled)
        as Hall.
      { apply Forall_forall. intros e He.
        destruct (inherited (sender_key e)) eqn:I; [|reflexivity].
        assert (existsb (fun e => inherited (sender_key e)) labeled = true)
          by (apply existsb_exists; eauto).
        congruence. }
      destruct (group_by_sender_partition _ Hall) as (g & Hg & _).
      congruence.
  - apply group_by_sender_throws.
Qed.

Lemma grouping_fails_on_inherited_keys_only_witness :
  group_by_sender [Sample.m1; Inherited.labeled; Sample.m3]
  = Throw TypeError.
Proof.
  apply (proj2 (grouping_fails_on_inherited_keys_only
                  [Sample.m1; Inherited.labeled; Sample.m3])).
  apply Exists_cons_tl. apply Exists_cons_hd. reflexivity.
Defined.

(** ** More on rendering *)

Section Stability.

Variable A : Type.
Variable le : A -> A -> bool.

Lemma insert_by_split a l :
  exists pre post,
    l = (pre ++ post)%list /\
    insert_by le a l = (pre ++ a :: post)%list /\
    Forall (fun z => le a z = false) pre.
Proof.
  induction l as [|y l (pre & post & Hl & Hi & Hp)]; simpl.
  - exists [], []. repeat split. constructor.
  - destruct (le a y) eqn:E.
    + exists [], (y :: l). repeat split. constructor.
    + exists (y :: pre), post. rewrite Hi, Hl. repeat split.
      now constructor.
Qed.

Lemma precedes_insert (x y a : A) pre post :
  precedes x y (pre ++ post) -> precedes x y (pre ++ a :: post).
Proof.
  induction pre as [|b pre IH]; simpl.
  - now right.
  - intros [[Hb Hy]|H]; [left | right; now apply IH].
    split; [exact Hb|]. apply in_app_or in Hy. apply in_or_app.
    destruct Hy; [now left | right; now right].
Qed.

Lemma precedes_here (x y : A) pre post :
  In y post -> precedes x y (pre ++ x :: post).
Proof.
  intros Hy. induction pre as [|b pre IH]; simpl; [now left | now right].
Qed.

(** Insertion sort is stable: an element that may stand before another
    and did so before sorting still does so afterwards. *)
Lemma sort_by_stable l x y :
  le x y = true -> precedes x y l -> precedes x y (sort_by le l).
Proof.
  intros Hxy. induction l as [|a l IH]; simpl; [trivial|].
  destruct (insert_by_split a (sort_by le l)) as (pre & post & Hl & -> & Hp).
  intros [[-> Hy]|H].
  - apply precedes_here.
    apply (Permutation_in _ (Permutation_sym (sort_by_perm _ le l))) in Hy.
    rewrite Hl in Hy. apply in_app_or in Hy as [Hy|Hy]; [|exact Hy].
    rewrite Forall_forall in Hp. specialize (Hp _ Hy). congruence.
  - apply precedes_insert. rewrite <- Hl. now apply IH.
Qed.

End Stability.

Lemma Object_keys_named A (o : list (string * A)) :
  Forall (fun k => array_index k = None) (map fst o) ->
  Object_keys o = map fst o.
Proof.
  unfold Object_keys. generalize (map fst o) as keys.
  intros keys H.
  assert (flat_map (fun k => match array_index k with
                             | Some n => [(n, k)]
                             | None => []
                             end) keys = []) as ->.
  { induction H as [|k l Hk _ IH]; simpl; [reflexivity|]. now rewrite Hk. }
  simpl. induction H as [|k l Hk _ IH]; simpl; [reflexivity|].
  now rewrite Hk, IH.
Qed.

(** X15.  [render] shows every sender key once, a larger group never
    after a smaller one, and groups of equal size in the order of
    [Object.keys], which is the order in which the groups were created
    when no key is an array index. *)
Theorem senders_by_size_stable grouped :
  Permutation (sorted_senders grouped) (map fst grouped) /\
  StronglySorted
    (fun a b => (group_size grouped b <= group_size grouped a)%Z)
    (sorted_senders grouped) /\
  (forall a b,
     group_size grouped a = group_size grouped b ->
     precedes a b (Object_keys grouped) ->
     precedes a b (sorted_senders grouped)) /\
  (Forall (fun k => array_index k = None) (map fst grouped) ->
   Object_keys grouped = map fst grouped).
Proof.
  split; [apply sorted_senders_perm|].
  split; [apply sorted_senders_descending|].
  split; [|apply Object_keys_named].
  intros a b Hab. unfold sorted_senders. apply sort_by_stable.
  apply Z.leb_le. lia.
Qed.

Lemma senders_by_size_stable_witness :
  precedes "b@x.io" "a@x.io"
    (sorted_senders
       [("b@x.io", Group.mk "b@x.io" "" [Sample.m1]);
        ("a@x.io", Group.mk "a@x.io" "" [Sample.m2]);
        ("c@x.io", Group.mk "c@x.io" "" [Sample.m1; Sample.m3])]).
Proof.
  apply (proj1 (proj2 (proj2 (senders_by_size_stable _)))).
  - reflexivity.
  - vm_compute. left. split; [reflexivity | left; reflexivity].
Defined.

(** Two senders with one email each keep their order behind the sender
    with two. *)
Example senders_by_size_example :
  sorted_senders
    [("b@x.io", Group.mk "b@x.io" "" [Sample.m1]);
     ("a@x.io", Group.mk "a@x.io" "" [Sample.m2]);
     ("c@x.io", Group.mk "c@x.io" "" [Sample.m1; Sample.m3])]
  = ["c@x.io"; "b@x.io"; "a@x.io"].
Proof. reflexivity. Qed.

Lemma pillClass_of_lower s :
  is_empty s = false ->
  pillClass (toLowerCase s) =
  if String.eqb (toLowerCase s) "keep" then "keep"
  else if String.eqb (toLowerCase s) "trash" then "trash" else "review".
Proof.
  intros H. unfold pillClass.
  assert (or_else (toLowerCase s) "review" = toLowerCase s) as ->
      by (destruct s; [discriminate | reflexivity]).
  now rewrite toLowerCase_idem.
Qed.

(** The pill of a row is the class under which its email is counted. *)
Lemma render_row_pill e r :
  render_row e = Ok r ->
  String.eqb (row_pillClass r) "keep"
    = match action_is "keep" e with Ok true => true | _ => false end /\
  String.eqb (row_pillClass r) "trash"
    = match action_is "trash" e with Ok true => true | _ => false end /\
  String.eqb (row_pillClass r) "review" = counted_as_review e.
Proof.
  unfold render_row, counted_as_review, action_is, string_or.
  destruct (truthy (get_opt (Email.decision e) "action")) eqn:T.
  - destruct (get_opt (Email.decision e) "action") as [| | | |s| |];
      try discriminate.
    cbn [result_bind].
    destruct (if truthy (get_opt (Email.decision e) "category") then _
              else _) as [c|]; cbn [result_bind]; [|discriminate].
    destruct (if truthy (get_opt (Email.decision e) "summary") then _
              else _) as [u|]; cbn [result_bind]; [|discriminate].
    destruct (if truthy (get_opt (Email.decision e) "reason") then _
              else _) as [x|]; cbn [result_bind]; [|discriminate].
    intros [= <-]. cbn [row_pillClass].
    rewrite pillClass_of_lower
      by (simpl in T; now destruct (is_empty s)).
    destruct (String.eqb (toLowerCase s) "keep") eqn:K.
    + apply String.eqb_eq in K. rewrite K. repeat split.
    + destruct (String.eqb (toLowerCase s) "trash"); repeat split.
  - cbn [result_bind].
    destruct (if truthy (get_opt (Email.decision e) "category") then _
              else _) as [c|]; cbn [result_bind]; [|discriminate].
    destruct (if truthy (get_opt (Email.decision e) "summary") then _
              else _) as [u|]; cbn [result_bind]; [|discriminate].
    destruct (if truthy (get_opt (Email.decision e) "reason") then _
              else _) as [x|]; cbn [result_bind]; [|discriminate].
    intros [= <-]. repeat split.
Qed.

Lemma rows_filter_length (f : Email.t -> bool) c emails rows :
  Forall2 (fun e r => render_row e = Ok r) emails rows ->
  (forall e r, render_row e = Ok r ->
               String.eqb (row_pillClass r) c = f e) ->
  length (filter (fun r => String.eqb (row_pillClass r) c) rows)
  = length (filter f emails).
Proof.
  intros H Hf. induction H as [|e r emails rows Her _ IH]; simpl;
    [reflexivity|].
  rewrite (Hf _ _ Her). destruct (f e); simpl; now rewrite IH.
Qed.

Lemma render_section_pills sender group s :
  render_section sender group = Ok s -> pills_match_counts s.
Proof.
  intros H. pose proof (render_section_counts _ _ _ H) as (Hsum & Ht & Hr).
  revert H Hsum Ht Hr. unfold render_section.
  destruct (filter_by (action_is "keep") _) as [keeps|] eqn:K; simpl;
    [|discriminate].
  destruct (filter_by (action_is "trash") _) as [trashes|] eqn:T; simpl;
    [|discriminate].
  destruct (result_map render_row _) as [rows|] eqn:R; simpl;
    [|discriminate].
  intros [= <-] Hsum Ht Hr. simpl in *.
  apply result_map_Forall2 in R.
  apply filter_by_filter in K as [-> _].
  apply filter_by_filter in T as [-> _].
  unfold pills_match_counts, pill_count, length_Z. simpl.
  rewrite (rows_filter_length _ "keep" _ _ R
             (fun e r H => proj1 (render_row_pill e r H))).
  rewrite (rows_filter_length _ "trash" _ _ R
             (fun e r H => proj1 (proj2 (render_row_pill e r H)))).
  rewrite (rows_filter_length _ "review" _ _ R
             (fun e r H => proj2 (proj2 (render_row_pill e r H)))).
  repeat split; try reflexivity.
  - f_equal. symmetry. exact (Forall2_length R).
  - unfold length_Z in Hr. exact (eq_sym Hr).
Qed.

(** X16.  In what [render] shows, every section has one row per email of
    its group, and the rows that wear the keep, the trash and the review
    pill are as many as its keep, trash and review counts: the counts of
    lines 265-267 and the pills of lines 315-326 never disagree. *)
Theorem rows_match_counts state v :
  render state = Ok v -> Forall pills_match_counts (view_sections v).
Proof.
  intros H. apply render_inv in H as [H _].
  induction H as [|sender s l l' (group & _ & Hs) _ IH]; constructor;
    [|exact IH].
  exact (render_section_pills _ _ _ Hs).
Qed.

Lemma rows_match_counts_witness :
  exists v,
    render Newsletter.state = Ok v /\
    Forall pills_match_counts (view_sections v) /\
    map (fun s => map row_pillClass (sec_rows s)) (view_sections v)
    = [["keep"; "trash"; "review"; "review"; "review"]].
Proof.
  eexists. split; [vm_compute; reflexivity|].
  split; [|reflexivity].
  exact (rows_match_counts Newsletter.state _ eq_refl).
Defined.

(** X17.  [render] returns for every state in which the action, the
    category, the summary and the reason of each decision are absent,
    falsy or strings; the fallback decision is of that kind. *)
Theorem render_returns_on_strings state :
  Forall (fun e => printable (Email.decision e))
         (all_emails (ScanState.grouped state)) ->
  (exists v, render state = Ok v) /\
  (forall id, printable (no_decision id)).
Proof.
  intros H. split; [now apply render_total|].
  intros id. repeat constructor; eexists; reflexivity.
Qed.

Lemma render_returns_on_strings_witness :
  exists v, render Newsletter.state = Ok v.
Proof.
  apply (render_returns_on_strings Newsletter.state).
  repeat constructor; eexists; reflexivity.
Defined.

(** ** More on the handlers *)

Lemma trashMessage_connected w id tok p :
  connected tok p ->
  exists r,
    (r = Ok tt \/ exists e, r = Throw e) /\
    trashMessage w id p
    = (r, with_requests (requests p ++ [trash_request tok id]) p).
Proof.
  intros H. unfold trashMessage, bind.
  rewrite (gmailFetch_connected _ _ _ _ _ _ _ H).
  fold (trash_request tok id).
  destruct (trash_service w _ _) as [|[] st txt [[]|]];
    eexists; (split; [|reflexivity]); eauto.
Qed.

(** The loop of the bulk trash, entered with any count. *)
Lemma trash_each_effect w ids :
  forall ok0 p,
  exists ok p',
    trash_each w ids ok0 p = (Ok ok, p') /\
    (ok0 <= ok <= ok0 + length ids)%nat /\
    (length (console p') + ok = length (console p) + ok0 + length ids)%nat /\
    rendered p' = rendered p /\ LS_LAST p' = LS_LAST p /\
    status p' = status p /\ alerts p' = alerts p /\
    (forall tok, connected tok p ->
       requests p' = (requests p ++ map (trash_request tok) ids)%list) /\
    (disconnected p -> requests p' = requests p /\ ok = ok0).
Proof.
  induction ids as [|id ids IH]; intros ok0 p; simpl.
  - exists ok0, p. repeat split; try lia.
    intros tok _. now rewrite app_nil_r.
  - unfold bind at 1, try_catch.
    destruct (connected_or_not p) as [[tok Hc]|Hd].
    + destruct (trashMessage_connected w id tok p Hc) as (r & Hr & E).
      unfold bind at 1. rewrite E.
      set (p1 := with_requests (requests p ++ [trash_request tok id]) p).
      assert (forall ok1,
                (ok0 <= ok1 <= S ok0)%nat ->
                forall q, rendered q = rendered p -> LS_LAST q = LS_LAST p ->
                  status q = status p -> alerts q = alerts p ->
                  accessToken q = accessToken p ->
                  requests q = requests p1 ->
                  (length (console q) + ok1 = length (console p) + S ok0)%nat ->
                  exists ok p',
                    trash_each w ids ok1 q = (Ok ok, p') /\
                    (ok0 <= ok <= ok0 + S (length ids))%nat /\
                    (length (console p') + ok
                     = length (console p) + ok0 + S (length ids))%nat /\
                    rendered p' = rendered p /\ LS_LAST p' = LS_LAST p /\
                    status p' = status p /\ alerts p' = alerts p /\
                    (forall tok0, connected tok0 p ->
                       requests p' =
                       (requests p ++ trash_request tok0 id ::
                          map (trash_request tok0) ids)%list) /\
                    (disconnected p -> requests p' = requests p /\ ok = ok0))
        as Hstep.
      { intros ok1 Hok q Hq1 Hq2 Hq3 Hq4 Hq5 Hq6 Hq7.
        destruct (IH ok1 q) as (ok & p' & E' & B & Cn & R1 & R2 & R3 & R4
                                & Rc & _).
        exists ok, p'. split; [exact E'|].
        split; [lia|]. split; [lia|].
        split; [congruence|]. split; [congruence|].
        split; [congruence|]. split; [congruence|].
        split.
        - intros tok0 [Ht0 He0]. destruct Hc as [Ht He].
          assert (tok0 = tok) as -> by congruence.
          rewrite (Rc tok); [|split; congruence].
          rewrite Hq6. unfold p1. cbn. now rewrite <- app_assoc.
        - intros Hd. destruct (connected_not_disconnected _ _ Hc Hd). }
      destruct Hr as [->|[e ->]].
      * apply (Hstep (S ok0)); try reflexivity; try lia; cbn; lia.
      * unfold bind, console_error, update.
        apply (Hstep ok0); try reflexivity; try lia;
          cbn; rewrite length_app; simpl; lia.
    + destruct (mailbox_disconnected w p Hd) as (_ & _ & Ht).
      unfold bind at 1. rewrite Ht.
      unfold bind, console_error, update.
      destruct (IH ok0 (with_console (console p ++ [not_connected]) p))
        as (ok & p' & E' & B & Cn & R1 & R2 & R3 & R4 & _ & Rd).
      exists ok, p'. split; [exact E'|].
      destruct (Rd Hd) as [Rq ->].
      cbn in Cn. rewrite length_app in Cn. simpl in Cn.
      split; [lia|]. split; [lia|].
      split; [exact R1|]. split; [exact R2|].
      split; [exact R3|]. split; [exact R4|]. split.
      * intros tok Hc. destruct (connected_not_disconnected _ _ Hc Hd).
      * intros _. split; [exact Rq | reflexivity].
Qed.

Lemma trashMessage_outcome w id tok p :
  connected tok p ->
  trashMessage w id p
  = (match trash_outcome (trash_service w (requests p)
                            (trash_request tok id)) with
     | None => Ok tt
     | Some e => Throw e
     end,
     with_requests (requests p ++ [trash_request tok id]) p).
Proof.
  intros H. unfold trashMessage, bind.
  rewrite (gmailFetch_connected _ _ _ _ _ _ _ H).
  fold (trash_request tok id).
  destruct (trash_service w _ _) as [|[] st txt [[]|]]; reflexivity.
Qed.

Lemma trash_each_outcomes w tok ids :
  forall ok0 p,
    connected tok p ->
    trash_each w ids ok0 p
    = (Ok (ok0 + returned (trash_outcomes w tok (requests p) ids))%nat,
       with_console
         (console p ++ thrown (trash_outcomes w tok (requests p) ids))
         (with_requests (requests p ++ map (trash_request tok) ids) p)).
Proof.
  induction ids as [|id ids IH]; intros ok0 p Hc.
  - cbn. rewrite !app_nil_r, Nat.add_0_r. now destruct p.
  - cbn [trash_each trash_outcomes map]. unfold bind at 1, try_catch.
    unfold bind at 1. rewrite (trashMessage_outcome _ _ _ _ Hc).
    destruct (trash_outcome _) as [e|] eqn:O.
    + unfold bind, console_error, update, ret. cbv beta iota.
      rewrite IH by exact Hc.
      cbn [requests console with_console with_requests].
      unfold returned, thrown. cbn [filter flat_map]. f_equal.
      destruct p; cbn. now rewrite <- !app_assoc.
    + unfold bind, ret. cbv beta iota. rewrite IH by exact Hc.
      cbn [requests console with_console with_requests].
      unfold returned, thrown. cbn [filter flat_map length app]. f_equal.
      * f_equal. lia.
      * destruct p; cbn. now rewrite <- !app_assoc.
Qed.

Lemma trash_each_disconnected w ids :
  forall ok0 p,
    disconnected p ->
    trash_each w ids ok0 p
    = (Ok ok0,
       with_console (console p ++ repeat not_connected (length ids)) p).
Proof.
  induction ids as [|id ids IH]; intros ok0 p Hd.
  - cbn. rewrite app_nil_r. now destruct p.
  - cbn [trash_each]. unfold bind at 1, try_catch. unfold bind at 1.
    destruct (mailbox_disconnected w p Hd) as (_ & _ & ->).
    unfold bind, console_error, update, ret. cbv beta iota.
    rewrite IH by exact Hd.
    cbn [console with_console length repeat]. f_equal.
    destruct p; cbn. now rewrite <- app_assoc.
Qed.

(** X18.  The loop of the bulk trash never throws.  With a token it
    sends one trash request per id, in the order of the ids; its count
    is the number of calls that returned, each call being answered
    after the requests before it, and the console gets the exception of
    every call that threw, in order.  Without a token it sends nothing,
    counts nothing and logs the not-connected error once per id.  It
    touches nothing else on the page. *)
Theorem trash_each_counts w ids p :
  (forall tok,
     connected tok p ->
     trash_each w ids 0 p
     = (Ok (returned (trash_outcomes w tok (requests p) ids)),
        with_console
          (console p ++ thrown (trash_outcomes w tok (requests p) ids))
          (with_requests (requests p ++ map (trash_request tok) ids) p))) /\
  (disconnected p ->
   trash_each w ids 0 p
   = (Ok 0%nat,
      with_console (console p ++ repeat not_connected (length ids)) p)).
Proof.
  split.
  - intros tok Hc. exact (trash_each_outcomes w tok ids 0 p Hc).
  - exact (trash_each_disconnected w ids 0 p).
Qed.

Lemma trash_each_counts_witness :
  trash_each BulkTrash.world ["t1"; "t2"; "t3"] 0 BulkTrash.page
  = (Ok 1%nat,
     with_console
       [ Error "Gmail API error 500: Backend Error";
         Error "Gmail API error 500: Backend Error" ]
       (with_requests (map (trash_request "ya29.token") ["t1"; "t2"; "t3"])
          BulkTrash.page)).
Proof.
  exact (proj1 (trash_each_counts BulkTrash.world ["t1"; "t2"; "t3"]
                  BulkTrash.page)
           "ya29.token" (conj eq_refl eq_refl)).
Defined.

(** ** The bulk trash as a whole *)

Lemma suggested_ids_filter emails ids :
  suggested_ids emails = Ok ids ->
  ids = map Email.id (filter trash_suggested emails).
Proof.
  unfold suggested_ids.
  destruct (filter_by _ emails) as [sel|] eqn:F; cbn [result_bind];
    [|discriminate].
  intros [= <-]. apply filter_by_filter in F as [-> _].
  f_equal. apply filter_ext. intros e. unfold trash_suggested.
  destruct (action_is "trash" e) as [[]|]; cbn [result_bind];
    try reflexivity.
  cbn. now destruct (Email._trashed e).
Qed.

(** X19.  What a click on [Trash suggested] sends.  The ids it works on
    are those of the emails of the section suggested for the trash and not
    yet flagged, in the order of the rows.  With none, it only alerts;
    declined, it leaves the page as it is; confirmed, it sends one trash
    request per id in that order when a token is held, and nothing
    without one. *)
Theorem trashSuggested_requests w sender p state group ids :
  rendered p = Some state ->
  assoc sender (ScanState.grouped state) = Some group ->
  suggested_ids (Group.emails group) = Ok ids ->
  ids = map Email.id (filter trash_suggested (Group.emails group)) /\
  exists r p',
    trashSuggested w sender p = (r, p') /\
    match ids with
    | [] =>
        r = Ok tt /\
        p' = with_alerts (alerts p ++ ["No TRASH suggestions here."]) p
    | _ :: _ =>
        if confirm w (bulk_question (length ids) sender)
        then (forall tok, connected tok p ->
                requests p'
                = (requests p ++ map (trash_request tok) ids)%list) /\
             (disconnected p -> requests p' = requests p)
        else r = Ok tt /\ p' = p
    end.
Proof.
  intros Hr Ha Hs. split; [exact (suggested_ids_filter _ _ Hs)|].
  unfold trashSuggested, bind at 1, read. rewrite Hr, Ha.
  unfold bind at 1, lift. rewrite Hs.
  destruct ids as [|id ids].
  - eexists _, _. split; [reflexivity|]. split; reflexivity.
  - unfold bulk_question.
    destruct (confirm w _) eqn:C; cbn [negb].
    + unfold bind at 1, setStatus at 1, update at 1.
      unfold bind at 1.
      match goal with
      | |- context [trash_each w ?l 0 ?q] =>
          destruct (trash_each_effect w l 0 q)
            as (ok & p1 & E & _ & _ & _ & _ & _ & _ & Rc & Rd)
      end.
      rewrite E.
      unfold bind at 1, update at 1.
      unfold bind at 1, localStorage_setItem_LAST, update at 1.
      unfold bind at 1, render_page, bind at 1, lift.
      destruct (render _) as [v|e];
        (eexists _, _; split; [reflexivity|]);
        unfold update, setStatus, update; cbn [requests];
        (split; [intros tok Hc; exact (Rc tok Hc)
                | intros Hd; exact (proj1 (Rd Hd))]).
    + eexists _, _. split; [reflexivity|]. split; reflexivity.
Qed.

Lemma trashSuggested_requests_witness :
  requests (snd (trashSuggested BulkTrash.world BulkTrash.sender
                   BulkTrash.page))
  = map (trash_request "ya29.token") ["t1"; "t2"; "t3"].
Proof.
  destruct (trashSuggested_requests BulkTrash.world BulkTrash.sender
              BulkTrash.page BulkTrash.state
              (Group.mk BulkTrash.sender "Shop <deals@shop.example>"
                        BulkTrash.emails)
              ["t1"; "t2"; "t3"] eq_refl eq_refl eq_refl)
    as (_ & r & p' & E & H).
  rewrite E. cbn [snd].
  exact (proj1 H "ya29.token" (conj eq_refl eq_refl)).
Defined.

Lemma assoc_replace A k (a b : A) l :
  assoc k l = Some a -> assoc k (replace k b l) = Some b.
Proof.
  induction l as [|[k' a'] l IH]; simpl; [discriminate|].
  destruct (String.eqb k k') eqn:E; simpl; rewrite E; auto.
Qed.

Lemma emails_of_set_emails sender group emails state :
  assoc sender (ScanState.grouped state) = Some group ->
  emails_of (ScanState.grouped (set_emails sender group emails state)) sender
  = emails.
Proof.
  intros H. unfold emails_of, set_emails. cbn.
  now rewrite (assoc_replace _ _ _ _ _ H).
Qed.

Lemma includes_in ids id : In id ids -> includes ids id = true.
Proof.
  intros H. unfold includes. apply existsb_exists.
  exists id. split; [exact H | apply String.eqb_refl].
Qed.

(** Once the attempted ids are flagged, no email of the section is
    suggested for the trash. *)
Lemma flagged_not_suggested emails ids :
  suggested_ids emails = Ok ids ->
  suggested_ids (flag_attempted ids emails) = Ok [].
Proof.
  intros H. pose proof (suggested_ids_filter _ _ H) as Hids.
  assert (Forall (fun e => exists b, action_is "trash" e = Ok b) emails)
    as Hall.
  { unfold suggested_ids in H.
    destruct (filter_by _ emails) as [sel|] eqn:F; [|discriminate].
    apply filter_by_filter in F as [_ F].
    eapply Forall_impl; [|exact F]. intros e [b Hb].
    destruct (action_is "trash" e) as [b'|]; [eauto | discriminate]. }
  assert (forall e, In e emails -> trash_suggested e = true ->
                    includes ids (Email.id e) = true) as Hin.
  { intros e He Hs. apply includes_in. rewrite Hids.
    apply in_map. apply filter_In. now split. }
  clear H Hids. unfold suggested_ids.
  assert (filter_by
            (fun e => result_bind (action_is "trash" e) (fun b =>
                      Ok (b && negb (Email._trashed e))))
            (flag_attempted ids emails) = Ok []) as ->; [|reflexivity].
  induction Hall as [|e l [b Hb] _ IH]; [reflexivity|].
  cbn [flag_attempted map filter_by].
  fold (flag_attempted ids l). rewrite IH by (intros; apply Hin; simpl; auto).
  specialize (Hin e (or_introl eq_refl)). unfold trash_suggested in Hin.
  rewrite Hb in Hin.
  destruct (includes ids (Email.id e)) eqn:I.
  - change (action_is "trash" (Email.mark_trashed e))
      with (action_is "trash" e).
    rewrite Hb. cbn. now rewrite andb_false_r.
  - rewrite Hb. cbn [result_bind].
    destruct b; [|reflexivity].
    destruct (Email._trashed e); [reflexivity|].
    now specialize (Hin eq_refl).
Qed.

(** X20.  A bulk trash is spent after one confirmed run: the page it
    leaves has no email of that section suggested any more, so a second
    click only alerts that there are no suggestions and sends nothing,
    whichever calls of the first run had failed. *)
Theorem trashSuggested_second_click w w' p sender state group id ids v :
  rendered p = Some state ->
  assoc sender (ScanState.grouped state) = Some group ->
  suggested_ids (Group.emails group) = Ok (id :: ids) ->
  confirm w (bulk_question (length (id :: ids)) sender) = true ->
  render (set_emails sender group
            (flag_attempted (id :: ids) (Group.emails group)) state) = Ok v ->
  exists p',
    trashSuggested w sender p = (Ok tt, p') /\
    trashSuggested w' sender p'
    = (Ok tt, with_alerts (alerts p' ++ ["No TRASH suggestions here."]) p').
Proof.
  intros Hr Ha Hs Hc Hv.
  destruct (trashSuggested_flags_every_attempt
              w p sender state group id ids v Hr Ha Hs Hc Hv)
    as (ok & p' & E & HL & HR & _).
  exists p'. split; [exact E|].
  unfold trashSuggested, bind at 1, read. rewrite HR, HL.
  unfold set_emails at 1. cbn [ScanState.grouped ScanState.with_grouped].
  rewrite (assoc_replace _ _ _ _ _ Ha).
  cbn [Group.emails Group.with_emails].
  unfold bind at 1, lift. now rewrite (flagged_not_suggested _ _ Hs).
Qed.

Lemma trashSuggested_second_click_witness :
  exists p',
    trashSuggested BulkTrash.world BulkTrash.sender BulkTrash.page
      = (Ok tt, p') /\
    trashSuggested BulkTrash.world BulkTrash.sender p'
    = (Ok tt, with_alerts (alerts p' ++ ["No TRASH suggestions here."]) p').
Proof.
  destruct (render_total
              (set_emails BulkTrash.sender
                 (Group.mk BulkTrash.sender "Shop <deals@shop.example>"
                           BulkTrash.emails)
                 (flag_attempted ["t1"; "t2"; "t3"] BulkTrash.emails)
                 BulkTrash.state)) as [v Hv].
  { repeat constructor; eexists; reflexivity. }
  exact (trashSuggested_second_click BulkTrash.world BulkTrash.world
           BulkTrash.page BulkTrash.sender BulkTrash.state
           (Group.mk BulkTrash.sender "Shop <deals@shop.example>"
                     BulkTrash.emails)
           "t1" ["t2"; "t3"] v eq_refl eq_refl eq_refl eq_refl Hv).
Defined.

(** ** The manual Trash handler, when its call returns *)

Lemma flag_at_nth emails :
  forall index e,
    nth_error emails index = Some e ->
    nth_error (flag_at index emails) index = Some (Email.mark_trashed e) /\
    (forall j, j <> index ->
       nth_error (flag_at index emails) j = nth_error emails j).
Proof.
  induction emails as [|a l IH]; intros [|n] e H; try discriminate.
  - injection H as ->. split; [reflexivity|].
    intros [|j] Hj; [congruence | reflexivity].
  - destruct (IH n e H) as [H1 H2]. split; [exact H1|].
    intros [|j] Hj; [reflexivity|]. apply H2. congruence.
Qed.

(** X21.  A manual trash that is declined leaves the page as it is.  One
    that is confirmed while a token is held sends exactly one request, the
    trash request of the email of that row; when the call returns, the
    flag of that row and of no other is set, and the snapshot with the
    flag is the one stored and the one behind the page. *)
Theorem manualTrash_flags_one_row w p sender index state group e tok :
  rendered p = Some state ->
  assoc sender (ScanState.grouped state) = Some group ->
  nth_error (Group.emails group) index = Some e ->
  connected tok p ->
  (confirm w "Move this email to Trash?" = false ->
   manualTrash w sender index p = (Ok tt, p)) /\
  (confirm w "Move this email to Trash?" = true ->
   exists r p',
     manualTrash w sender index p = (r, p') /\
     requests p' = (requests p ++ [trash_request tok (Email.id e)])%list /\
     (fst (trashMessage w (Email.id e)
             (with_status "Trashing 1 email…" p)) = Ok tt ->
      LS_LAST p'
      = Some (set_emails sender group
                (flag_at index (Group.emails group)) state) /\
      rendered p' = LS_LAST p' /\
      nth_error
        (emails_of (ScanState.grouped
                      (set_emails sender group
                         (flag_at index (Group.emails group)) state))
                   sender) index
      = Some (Email.mark_trashed e) /\
      forall j, j <> index ->
        nth_error
          (emails_of (ScanState.grouped
                        (set_emails sender group
                           (flag_at index (Group.emails group)) state))
                     sender) j
        = nth_error (Group.emails group) j)).
Proof.
  intros Hr Ha He Hc. split; intros C.
  - unfold manualTrash, bind at 1, read. now rewrite Hr, Ha, He, C.
  - unfold manualTrash, bind at 1, read. rewrite Hr, Ha, He, C. cbn [negb].
    unfold bind at 1, setStatus at 1, update at 1.
    assert (connected tok (with_status "Trashing 1 email…" p)) as Hc'
        by exact Hc.
    destruct (trashMessage_connected w (Email.id e) tok _ Hc')
      as (r1 & Hr1 & E1).
    unfold bind at 1. rewrite E1. cbn [fst].
    destruct Hr1 as [->|[err ->]].
    + unfold bind at 1, update at 1.
      unfold bind at 1, localStorage_setItem_LAST, update at 1.
      unfold bind at 1, render_page, bind at 1, lift.
      destruct (render _) as [v|err];
        (eexists _, _; split; [reflexivity|]);
        (split; [reflexivity|]); intros _;
        rewrite (emails_of_set_emails _ _ _ _ Ha);
        destruct (flag_at_nth _ _ _ He) as [H1 H2];
        repeat split; assumption.
    + eexists _, _. split; [reflexivity|]. split; [reflexivity|].
      discriminate.
Qed.

Lemma manualTrash_flags_one_row_witness :
  exists r p',
    manualTrash BulkTrash.world BulkTrash.sender 0 BulkTrash.page = (r, p') /\
    requests p' = [trash_request "ya29.token" "t1"] /\
    option_map trashed_ids (LS_LAST p') = Some ["t1"].
Proof.
  destruct (manualTrash_flags_one_row BulkTrash.world BulkTrash.page
              BulkTrash.sender 0 BulkTrash.state
              (Group.mk BulkTrash.sender "Shop <deals@shop.example>"
                        BulkTrash.emails)
              (BulkTrash.mail "t1" "trash") "ya29.token"
              eq_refl eq_refl eq_refl (conj eq_refl eq_refl))
    as [_ H].
  destruct (H eq_refl) as (r & p' & E & Hq & Hs).
  exists r, p'. split; [exact E|]. split; [exact Hq|].
  destruct (Hs eq_refl) as (-> & _). reflexivity.
Defined.

(** ** The manual Keep handler *)

Lemma assoc_app A k (l1 l2 : list (string * A)) :
  assoc k (l1 ++ l2)
  = match assoc k l1 with Some a => Some a | None => assoc k l2 end.
Proof.
  induction l1 as [|[k' a] l1 IH]; simpl; [reflexivity|].
  now destruct (String.eqb k k').
Qed.

Lemma assoc_replace_other A k k' (b : A) l :
  k' <> k -> assoc k' (replace k b l) = assoc k' l.
Proof.
  intros Hk. induction l as [|[k0 a0] l IH]; simpl; [reflexivity|].
  destruct (String.eqb k k0) eqn:E; simpl.
  - apply String.eqb_eq in E. subst k0.
    destruct (String.eqb k' k) eqn:E'; [|reflexivity].
    apply String.eqb_eq in E'. contradiction.
  - destruct (String.eqb k' k0); [reflexivity | exact IH].
Qed.

Lemma assoc_obj_set_same k v props : assoc k (obj_set k v props) = Some v.
Proof.
  unfold obj_set. destruct (assoc k props) as [a|] eqn:E.
  - exact (assoc_replace _ _ _ _ _ E).
  - rewrite assoc_app, E. simpl. now rewrite String.eqb_refl.
Qed.

Lemma assoc_obj_set_other k k' v props :
  k' <> k -> assoc k' (obj_set k v props) = assoc k' props.
Proof.
  intros Hk. unfold obj_set. destruct (assoc k props) as [a|] eqn:E.
  - now apply assoc_replace_other.
  - rewrite assoc_app. destruct (assoc k' props); [reflexivity|].
    simpl. destruct (String.eqb k' k) eqn:E'; [|reflexivity].
    apply String.eqb_eq in E'. contradiction.
Qed.

Lemma kept_is_keep d e :
  action_is "keep" (Email.with_decision (keep_decision d) e) = Ok true /\
  trash_suggested (Email.with_decision (keep_decision d) e) = false.
Proof.
  assert (get_opt (keep_decision d) "action" = VStr "keep") as H.
  { unfold keep_decision, get_opt.
    rewrite assoc_obj_set_other by discriminate.
    now rewrite assoc_obj_set_same. }
  unfold trash_suggested, action_is. cbn [Email.decision Email.with_decision].
  rewrite H. split; reflexivity.
Qed.

(** X22.  The decision a click on [Keep] leaves is an object whose
    action is [keep] and whose reason is [Manually kept.]; every other
    property of the decision it replaces is kept with its value, an absent
    or falsy decision counting as the empty object.  The email then
    counts as a keep and is not suggested for the trash, whatever its
    flags. *)
Theorem keep_decision_overrides d :
  exists props,
    keep_decision d = VObj props /\
    assoc "action" props = Some (VStr "keep") /\
    assoc "reason" props = Some (VStr "Manually kept.") /\
    (forall k, k <> "action" -> k <> "reason" ->
       assoc k props = assoc k (if truthy d then spread d else [])) /\
    (forall e,
       action_is "keep" (Email.with_decision (keep_decision d) e) = Ok true /\
       trash_suggested (Email.with_decision (keep_decision d) e) = false).
Proof.
  eexists. split; [reflexivity|]. split; [|split; [|split]].
  - rewrite assoc_obj_set_other by discriminate. apply assoc_obj_set_same.
  - apply assoc_obj_set_same.
  - intros k Ha Hr. now rewrite !assoc_obj_set_other.
  - intros e. apply kept_is_keep.
Qed.

Lemma keep_decision_overrides_witness :
  exists props,
    keep_decision (VObj [("id", VStr "t2"); ("action", VStr "trash");
                         ("category", VStr "promo")])
    = VObj props /\
    assoc "action" props = Some (VStr "keep") /\
    assoc "reason" props = Some (VStr "Manually kept.") /\
    assoc "category" props = Some (VStr "promo") /\
    assoc "id" props = Some (VStr "t2").
Proof.
  destruct (keep_decision_overrides
              (VObj [("id", VStr "t2"); ("action", VStr "trash");
                     ("category", VStr "promo")]))
    as (props & E & Ha & Hr & Hk & _).
  exists props. split; [exact E|]. split; [exact Ha|]. split; [exact Hr|].
  split; apply Hk; discriminate.
Defined.

Lemma keep_at_nth emails :
  forall index e,
    nth_error emails index = Some e ->
    nth_error (keep_at index emails) index
    = Some (Email.with_decision (keep_decision (Email.decision e)) e) /\
    (forall j, j <> index ->
       nth_error (keep_at index emails) j = nth_error emails j).
Proof.
  induction emails as [|a l IH]; intros [|n] e H; try discriminate.
  - injection H as ->. split; [reflexivity|].
    intros [|j] Hj; [congruence | reflexivity].
  - destruct (IH n e H) as [H1 H2]. split; [exact H1|].
    intros [|j] Hj; [reflexivity|]. apply H2. congruence.
Qed.

Lemma keep_at_suggested emails :
  forall index e,
    nth_error emails index = Some e ->
    filter trash_suggested (keep_at index emails)
    = filter trash_suggested (remove_at index emails).
Proof.
  induction emails as [|a l IH]; intros [|n] e H; try discriminate.
  - cbn [keep_at remove_at filter].
    now rewrite (proj2 (kept_is_keep (Email.decision a) a)).
  - cbn [keep_at remove_at filter]. now rewrite (IH n e H).
Qed.

(** X23.  A click on [Keep] in a row sends nothing and asks nothing.
    The snapshot it stores, which is also the one behind the page, is the
    old one with the emails of that section replaced by the list in which
    the email of that row, and no other, has the new decision: the other
    sections, the time, the query and the total are as they were.  A
    later bulk trash finds the suggestions of the section without that
    row.  If [render] throws on the new snapshot the handler throws with
    it, the snapshot being stored already; else the page shows it. *)
Theorem manualKeep_effect sender index p state group e :
  rendered p = Some state ->
  assoc sender (ScanState.grouped state) = Some group ->
  nth_error (Group.emails group) index = Some e ->
  manualKeep sender index p
  = (match render (set_emails sender group
                     (keep_at index (Group.emails group)) state) with
     | Ok v =>
         (Ok tt,
          with_rendered
            (Some (set_emails sender group
                     (keep_at index (Group.emails group)) state))
            (with_results (view_sections v)
               (with_summary (Some (view_summary v))
                  (with_LS_LAST
                     (Some (set_emails sender group
                              (keep_at index (Group.emails group)) state))
                     (with_rendered
                        (Some (set_emails sender group
                                 (keep_at index (Group.emails group))
                                 state)) p)))))
     | Throw x =>
         (Throw x,
          with_LS_LAST
            (Some (set_emails sender group
                     (keep_at index (Group.emails group)) state))
            (with_rendered
               (Some (set_emails sender group
                        (keep_at index (Group.emails group)) state)) p))
     end) /\
  set_emails sender group (keep_at index (Group.emails group)) state
  = ScanState.mk (ScanState.generatedAt state) (ScanState.query state)
      (ScanState.total state)
      (replace sender
         (Group.mk (Group.sender group) (Group.fromHeaderSample group)
                   (keep_at index (Group.emails group)))
         (ScanState.grouped state)) /\
  (forall other,
     other <> sender ->
     assoc other
       (replace sender
          (Group.mk (Group.sender group) (Group.fromHeaderSample group)
                    (keep_at index (Group.emails group)))
          (ScanState.grouped state))
     = assoc other (ScanState.grouped state)) /\
  map fst
    (replace sender
       (Group.mk (Group.sender group) (Group.fromHeaderSample group)
                 (keep_at index (Group.emails group)))
       (ScanState.grouped state))
  = map fst (ScanState.grouped state) /\
  nth_error (keep_at index (Group.emails group)) index
  = Some (Email.with_decision (keep_decision (Email.decision e)) e) /\
  (forall j, j <> index ->
     nth_error (keep_at index (Group.emails group)) j
     = nth_error (Group.emails group) j) /\
  filter trash_suggested (keep_at index (Group.emails group))
  = filter trash_suggested (remove_at index (Group.emails group)).
Proof.
  intros Hr Ha He.
  destruct (keep_at_nth _ _ _ He) as [H1 H2].
  split; [|split; [reflexivity|split; [|split; [|split; [exact H1|split;
    [exact H2 | exact (keep_at_suggested _ _ _ He)]]]]]].
  - unfold manualKeep, bind at 1, read. rewrite Hr, Ha, He.
    unfold bind at 1, update at 1.
    unfold bind at 1, localStorage_setItem_LAST, update at 1.
    unfold render_page, bind, lift.
    destruct (render _) as [v|err]; reflexivity.
  - intros other Ho. now apply assoc_replace_other.
  - clear. induction (ScanState.grouped state) as [|[k g] l IH];
      [reflexivity|].
    cbn [replace]. destruct (String.eqb sender k); [reflexivity|].
    cbn [map fst]. now rewrite IH.
Qed.

Lemma manualKeep_effect_witness :
  fst (manualKeep BulkTrash.sender 2 BulkTrash.page) = Ok tt /\
  requests (snd (manualKeep BulkTrash.sender 2 BulkTrash.page)) = [] /\
  option_map
    (fun s => map Email.id
                (filter trash_suggested
                        (emails_of (ScanState.grouped s) BulkTrash.sender)))
    (LS_LAST (snd (manualKeep BulkTrash.sender 2 BulkTrash.page)))
  = Some ["t1"; "t3"].
Proof.
  destruct (manualKeep_effect BulkTrash.sender 2 BulkTrash.page
              BulkTrash.state
              (Group.mk BulkTrash.sender "Shop <deals@shop.example>"
                        BulkTrash.emails)
              (BulkTrash.mail "t2" "trash") eq_refl eq_refl eq_refl)
    as (E & _).
  rewrite E. vm_compute. repeat split.
Defined.

(** ** The snapshot behind the page and the stored one *)

Lemma trashSuggested_in_sync w sender p :
  in_sync p -> in_sync (snd (trashSuggested w sender p)).
Proof.
  intros H. unfold trashSuggested, bind at 1, read.
  destruct (rendered p) as [state|] eqn:Hr; [|exact H].
  destruct (assoc sender (ScanState.grouped state)) as [group|]; [|exact H].
  unfold bind at 1, lift.
  destruct (suggested_ids (Group.emails group)) as [[|id ids]|err];
    [exact H| |exact H].
  destruct (confirm w _); cbn [negb]; [|exact H].
  unfold bind at 1, setStatus at 1, update at 1. unfold bind at 1.
  match goal with
  | |- context [trash_each w ?l 0 ?q] =>
      destruct (trash_each_effect w l 0 q) as (ok & q' & E & _)
  end.
  rewrite E.
  unfold bind at 1, update at 1.
  unfold bind at 1, localStorage_setItem_LAST, update at 1.
  unfold bind at 1, render_page, bind at 1, lift.
  destruct (render _) as [v|err]; intros s; cbn; congruence.
Qed.

Lemma manualTrash_in_sync w sender index p :
  in_sync p -> in_sync (snd (manualTrash w sender index p)).
Proof.
  intros H. unfold manualTrash, bind at 1, read.
  destruct (rendered p) as [state|] eqn:Hr; [|exact H].
  destruct (assoc sender (ScanState.grouped state)) as [group|]; [|exact H].
  destruct (nth_error (Group.emails group) index) as [e|]; [|exact H].
  destruct (confirm w _); cbn [negb]; [|exact H].
  unfold bind at 1, setStatus at 1, update at 1. unfold bind at 1.
  destruct (trashMessage w (Email.id e) _) as [[[]|err] q] eqn:T.
  - unfold bind at 1, update at 1.
    unfold bind at 1, localStorage_setItem_LAST, update at 1.
    unfold bind at 1, render_page, bind at 1, lift.
    destruct (render _) as [v|err]; intros s; cbn; congruence.
  - cbn [snd]. apply trashMessage_same_snapshot in T as [T1 T2].
    intros s. rewrite T1, T2. cbn [rendered LS_LAST with_status].
    rewrite Hr. intros Hs. apply H. now rewrite Hr.
Qed.

Lemma manualKeep_in_sync sender index p :
  in_sync p -> in_sync (snd (manualKeep sender index p)).
Proof.
  intros H. unfold manualKeep, bind at 1, read.
  destruct (rendered p) as [state|] eqn:Hr; [|exact H].
  destruct (assoc sender (ScanState.grouped state)) as [group|]; [|exact H].
  destruct (nth_error (Group.emails group) index) as [e|]; [|exact H].
  unfold bind at 1, update at 1.
  unfold bind at 1, localStorage_setItem_LAST, update at 1.
  unfold render_page, bind, lift.
  destruct (render _) as [v|err]; intros s; cbn; congruence.
Qed.

(** X24.  The handlers of the rows keep the stored snapshot equal to the
    state object behind the page: whether a bulk trash, a manual trash or
    a manual keep returns, throws, is declined or finds nothing to do, the
    last-scan document afterwards is that object. *)
Theorem handlers_keep_in_sync w sender index p :
  in_sync p ->
  in_sync (snd (trashSuggested w sender p)) /\
  in_sync (snd (manualTrash w sender index p)) /\
  in_sync (snd (manualKeep sender index p)).
Proof.
  intros H. split; [|split].
  - now apply trashSuggested_in_sync.
  - now apply manualTrash_in_sync.
  - now apply manualKeep_in_sync.
Qed.

Lemma handlers_keep_in_sync_witness :
  in_sync (snd (trashSuggested BulkTrash.world BulkTrash.sender
                  BulkTrash.page)) /\
  in_sync (snd (manualTrash BulkTrash.world BulkTrash.sender 2
                  BulkTrash.page)) /\
  in_sync (snd (manualKeep BulkTrash.sender 2 BulkTrash.page)).
Proof.
  apply (handlers_keep_in_sync BulkTrash.world BulkTrash.sender 2
           BulkTrash.page).
  intros s H. exact H.
Defined.

(** ** More on the decisions of a completion *)

Lemma entries_of_last pre d post :
  forall byId k,
    entries_of (pre ++ d :: post) = Ok byId ->
    get_opt d "id" = VStr k ->
    Forall (fun d' => get_opt d' "id" <> VStr k) post ->
    Map_get byId k = Some d.
Proof.
  induction pre as [|a pre IH]; intros byId k.
  - cbn [app]. unfold entries_of. cbn [result_map].
    destruct (get d "id") as [kd|] eqn:G; cbn [result_bind]; [|discriminate].
    fold (entries_of post).
    destruct (entries_of post) as [rest|] eqn:E; cbn [result_bind];
      [|discriminate].
    intros [= <-] Hid Hpost. cbn [Map_get].
    destruct (Map_get rest k) as [d'|] eqn:L.
    + destruct (entries_of_lookup _ _ _ _ E L) as [Hin Hd'].
      rewrite Forall_forall in Hpost. now destruct (Hpost _ Hin).
    + assert (kd = VStr k) as ->.
      { destruct d; cbn in G, Hid; try discriminate.
        injection G as <-. exact Hid. }
      now rewrite String.eqb_refl.
  - cbn [app]. unfold entries_of. cbn [result_map].
    destruct (get a "id") as [ka|]; cbn [result_bind]; [|discriminate].
    fold (entries_of (pre ++ d :: post)).
    destruct (entries_of (pre ++ d :: post)) as [rest|] eqn:E;
      cbn [result_bind]; [|discriminate].
    intros [= <-] Hid Hpost. cbn [Map_get].
    now rewrite (IH _ _ eq_refl Hid Hpost).
Qed.

(** X25.  When the response carries several decisions with the id of an
    email, the email gets the last of them: the dictionary of line 203 is
    filled in the order of the array and a later entry replaces an
    earlier one. *)
Theorem classifyBatch_last_decision_wins w settings emails p out p' ok st txt
    data pre d post i e :
  groqClassifyBatch w settings emails p = (Ok out, p') ->
  classify_response w settings emails p = Response ok st txt (Some data) ->
  decisions_in (content data) = Ok (pre ++ d :: post)%list ->
  nth_error emails i = Some e ->
  get_opt d "id" = VStr (Email.id e) ->
  Forall (fun d' => get_opt d' "id" <> VStr (Email.id e)) post ->
  nth_error out i = Some (Email.with_decision d e).
Proof.
  intros H Hr Hd He Hid Hpost.
  apply groqClassifyBatch_ok_inv in H as (st' & txt' & data' & Hr' & Hm & _).
  rewrite Hr in Hr'. injection Hr' as _ _ _ <-.
  apply merge_decisions_ok_inv in Hm as (ds & byId & Hd' & E & ->).
  rewrite Hd in Hd'. injection Hd' as <-.
  rewrite nth_error_map, He. cbn [option_map].
  unfold decision_for. rewrite (entries_of_last _ _ _ _ _ E Hid Hpost).
  destruct d; try discriminate. reflexivity.
Qed.

Lemma classifyBatch_last_decision_wins_witness :
  nth_error
    (match fst (groqClassifyBatch TwoAnswers.world Sample.settings0
                  [Sample.m1; Sample.m2; Sample.m3] Sample.page0) with
     | Ok out => out
     | Throw _ => []
     end) 0
  = Some (Email.with_decision TwoAnswers.second Sample.m1).
Proof.
  refine (classifyBatch_last_decision_wins
            TwoAnswers.world Sample.settings0
            [Sample.m1; Sample.m2; Sample.m3] Sample.page0
            _ _ true 200 "" {| content := TwoAnswers.content |}
            [TwoAnswers.first] TwoAnswers.second [TwoAnswers.other]
            0 Sample.m1 eq_refl eq_refl eq_refl eq_refl eq_refl _).
  repeat constructor. discriminate.
Defined.

(** X26.  A classification call that returns has sent exactly one
    request, and hands back each email as it was given apart from its
    decision: the sender key and the trashed flag are kept too.  The
    decision attached is the fallback or an entry of the response's
    [decisions] array that carries the id of that very email: no email
    is labeled with a decision made for another id. *)
Theorem classifyBatch_decisions_are_sound w settings emails p out p' ok st
    txt data decisions :
  groqClassifyBatch w settings emails p = (Ok out, p') ->
  classify_response w settings emails p = Response ok st txt (Some data) ->
  decisions_in (content data) = Ok decisions ->
  p' = classify_sent settings emails p /\
  Forall2 (fun e o =>
             o = Email.with_decision (Email.decision o) e /\
             (Email.decision o = no_decision (Email.id e) \/
              In (Email.decision o) decisions /\
              get_opt (Email.decision o) "id" = VStr (Email.id e)))
          emails out.
Proof.
  intros H Hr Hd.
  apply groqClassifyBatch_ok_inv in H as (st' & txt' & data' & Hr' & Hm & Hp).
  split; [exact Hp|].
  rewrite Hr in Hr'. injection Hr' as _ _ _ <-.
  apply merge_decisions_ok_inv in Hm as (ds & byId & Hd' & E & ->).
  rewrite Hd in Hd'. injection Hd' as <-.
  clear Hr Hp Hd.
  induction emails as [|e l IH]; [constructor|].
  cbn [map]. constructor; [|exact IH].
  split; [reflexivity|]. cbn [Email.decision Email.with_decision].
  unfold decision_for.
  destruct (Map_get byId (Email.id e)) as [d|] eqn:L; [|now left].
  destruct (truthy d); [|now left].
  right. exact (entries_of_lookup _ _ _ _ E L).
Qed.

Lemma classifyBatch_decisions_are_sound_witness :
  snd (groqClassifyBatch (Sample.world [] [] Sample.shuffled)
         Sample.settings0 [Relabeled.m1_labeled; Sample.m2] Sample.page0)
  = classify_sent Sample.settings0 [Relabeled.m1_labeled; Sample.m2]
      Sample.page0 /\
  Forall2 (fun e o =>
             o = Email.with_decision (Email.decision o) e /\
             (Email.decision o = no_decision (Email.id e) \/
              In (Email.decision o)
                 [ VObj [("id", VStr "m3"); ("action", VStr "keep")];
                   VObj [("id", VStr "zz"); ("action", VStr "trash")];
                   VObj [("id", VStr "m1"); ("action", VStr "trash")] ] /\
              get_opt (Email.decision o) "id" = VStr (Email.id e)))
          [Relabeled.m1_labeled; Sample.m2]
          (match fst (groqClassifyBatch (Sample.world [] [] Sample.shuffled)
                        Sample.settings0 [Relabeled.m1_labeled; Sample.m2]
                        Sample.page0) with
           | Ok out => out
           | Throw _ => []
           end).
Proof.
  exact (classifyBatch_decisions_are_sound
           (Sample.world [] [] Sample.shuffled) Sample.settings0
           [Relabeled.m1_labeled; Sample.m2] Sample.page0
           _ _ true 200 "" {| content := Sample.shuffled |}
           _ eq_refl eq_refl eq_refl).
Defined.

Lemma entries_of_outcome ds :
  if existsb is_nullish ds then entries_of ds = Throw TypeError
  else exists byId, entries_of ds = Ok byId.
Proof.
  induction ds as [|d ds IH]; [now exists []|].
  unfold entries_of. cbn [existsb result_map]. fold (entries_of ds).
  destruct d; cbn [is_nullish orb get result_bind]; try reflexivity;
    (destruct (existsb is_nullish ds);
     [now rewrite IH | destruct IH as [byId ->]; cbn; eauto]).
Qed.

Lemma merge_decisions_outcome c emails :
  match decode_failure c with
  | Some e => merge_decisions c emails = Throw e
  | None => exists out, merge_decisions c emails = Ok out
  end.
Proof.
  unfold decode_failure, merge_decisions.
  destruct (content_or_default c) as [raw|parsed]; [reflexivity|].
  cbn [JSON_parse result_bind]. unfold decisions_of.
  destruct parsed; cbn [is_nullish get result_bind]; try reflexivity;
    try (cbn; eauto; fail).
  match goal with
  | |- context [get_opt ?v "decisions"] =>
      destruct (get_opt v "decisions") as [| | | | |ds|];
        try (cbn; eauto; fail)
  end.
  pose proof (entries_of_outcome ds) as H.
  destruct (existsb is_nullish ds).
  - now rewrite H.
  - destruct H as [byId ->]. cbn. eauto.
Qed.

(** X27.  On a success response the call throws for three contents
    only, and for them whatever the batch is: a text that is not JSON
    (the parser's SyntaxError), the JSON value [null], and a [decisions]
    array with a [null] entry (both a TypeError).  For every other
    content it returns.  Either way its one request has been sent. *)
Theorem classifyBatch_decoding_outcome w settings emails p st txt data :
  is_empty (Settings.groqKey settings) = false ->
  classify_response w settings emails p = Response true st txt (Some data) ->
  snd (groqClassifyBatch w settings emails p)
  = classify_sent settings emails p /\
  match decode_failure (content data) with
  | Some e => fst (groqClassifyBatch w settings emails p) = Throw e
  | None => exists out, fst (groqClassifyBatch w settings emails p) = Ok out
  end.
Proof.
  intros K Hr. rewrite (groqClassifyBatch_unfold _ _ _ _ K).
  cbn [fst snd]. split; [reflexivity|].
  rewrite Hr. apply merge_decisions_outcome.
Qed.

Lemma classifyBatch_decoding_outcome_witness :
  fst (groqClassifyBatch
         (Sample.world [] []
            (Some (Json (VObj [("decisions",
                                VArr [TwoAnswers.first; VNull])]))))
         Sample.settings0 [Sample.m1] Sample.page0)
  = Throw TypeError.
Proof.
  exact (proj2 (classifyBatch_decoding_outcome
                  (Sample.world [] []
                     (Some (Json (VObj [("decisions",
                                         VArr [TwoAnswers.first; VNull])]))))
                  Sample.settings0 [Sample.m1] Sample.page0
                  200 ""
                  {| content :=
                       Some (Json (VObj [("decisions",
                                          VArr [TwoAnswers.first; VNull])]))
                  |} eq_refl eq_refl)).
Defined.

(** ** Loading the last scan *)

Lemma loadLast_unfold p :
  loadLast p
  = match LS_LAST p with
    | None => (Ok tt, with_status "No last scan saved yet." p)
    | Some state =>
        match render state with
        | Ok v =>
            (Ok tt,
             with_status
               ("Loaded last scan ✅" ++ nl ++ "Scanned: "
                ++ string_of_Z (ScanState.total state) ++ nl ++ "Query: "
                ++ ScanState.query state ++ nl ++ "Time: "
                ++ ScanState.generatedAt state)
               (with_rendered (Some state)
                  (with_results (view_sections v)
                     (with_summary (Some (view_summary v)) p))))
        | Throw e => (Throw e, p)
        end
    end.
Proof.
  unfold loadLast, bind at 1, read.
  destruct (LS_LAST p) as [state|]; [|reflexivity].
  unfold bind, render_page, bind, lift, update, setStatus, update.
  now destruct (render state).
Qed.

(** X28.  [loadLast] works on the page alone: it sends nothing and
    writes to neither storage document.  With no last scan stored it only
    sets the status line; when [render] throws on the stored snapshot the
    page stays as it was; when it returns, the sections and the summary
    on the page are those of [render] on the stored snapshot. *)
Theorem loadLast_is_local p :
  requests (snd (loadLast p)) = requests p /\
  LS_LAST (snd (loadLast p)) = LS_LAST p /\
  LS_KEY (snd (loadLast p)) = LS_KEY p /\
  (LS_LAST p = None ->
   loadLast p = (Ok tt, with_status "No last scan saved yet." p)) /\
  (forall e, fst (loadLast p) = Throw e -> snd (loadLast p) = p) /\
  (forall state,
     LS_LAST p = Some state -> fst (loadLast p) = Ok tt ->
     exists v,
       render state = Ok v /\
       rendered (snd (loadLast p)) = Some state /\
       results (snd (loadLast p)) = view_sections v /\
       summary (snd (loadLast p)) = Some (view_summary v)).
Proof.
  rewrite loadLast_unfold.
  destruct (LS_LAST p) as [state|] eqn:L.
  - destruct (render state) as [v|err] eqn:V; cbn [fst snd].
    + split; [reflexivity|]. split; [exact L|]. split; [reflexivity|].
      split; [discriminate|]. split; [discriminate|].
      intros s [= <-] _. exists v. split; [exact V|]. repeat split.
    + split; [reflexivity|]. split; [exact L|]. split; [reflexivity|].
      split; [discriminate|]. split; [reflexivity|]. discriminate.
  - cbn [fst snd].
    split; [reflexivity|]. split; [exact L|]. split; [reflexivity|].
    split; [reflexivity|]. split; discriminate.
Qed.

Lemma loadLast_is_local_witness :
  loadLast Sample.page0
  = (Ok tt, with_status "No last scan saved yet." Sample.page0).
Proof.
  exact (proj1 (proj2 (proj2 (proj2 (loadLast_is_local Sample.page0))))
           eq_refl).
Defined.

(** X29.  After a scan that returned, [loadLast] brings back what the
    scan showed: the same snapshot behind the page, the same sections and
    the same summary, without a request and without touching what is
    stored.  (The last-scan document is read back as the snapshot it was
    written from.) *)
Theorem loadLast_after_scan w p p' :
  scan w p = (Ok tt, p') ->
  fst (loadLast p') = Ok tt /\
  rendered (snd (loadLast p')) = rendered p' /\
  results (snd (loadLast p')) = results p' /\
  summary (snd (loadLast p')) = summary p' /\
  LS_LAST (snd (loadLast p')) = LS_LAST p' /\
  requests (snd (loadLast p')) = requests p'.
Proof.
  unfold scan, bind at 1.
  destruct (scan_collect w p) as [[[settings labeled]|e] q] eqn:C;
    [|discriminate].
  cbn [fst snd]. unfold scan_finish, bind at 1, lift.
  destruct (group_by_sender labeled) as [grouped|e] eqn:G; [|discriminate].
  unfold bind at 1, read. unfold bind at 1, localStorage_setItem_LAST,
    update at 1. unfold bind at 1, render_page, bind at 1, lift.
  match goal with
  | |- context [render ?s] =>
      set (state := s); destruct (render state) as [v|e] eqn:V
  end; [|discriminate].
  unfold update, setStatus, update. intros [= <-].
  rewrite loadLast_unfold. cbn [LS_LAST with_status with_rendered
    with_results with_summary with_LS_LAST].
  rewrite V. cbn. repeat split.
Qed.

Lemma loadLast_after_scan_witness :
  fst (loadLast (snd (scan TwoBatches.world TwoBatches.page))) = Ok tt /\
  results (snd (loadLast (snd (scan TwoBatches.world TwoBatches.page))))
  = results (snd (scan TwoBatches.world TwoBatches.page)).
Proof.
  destruct (loadLast_after_scan TwoBatches.world TwoBatches.page
              (snd (scan TwoBatches.world TwoBatches.page)))
    as (H1 & _ & H2 & _).
  - vm_compute. reflexivity.
  - split; [exact H1 | exact H2].
Defined.
